(** * llm-game-test: the world-orchestration core, embedded in Rocq

    The development follows the TypeScript sources of the server:

    - [TimeManager]        Game/World/TimeManager.ts, the world clock, and
                           its variant driven by the game loop
    - [Weather]            Game/World/utils.ts, the weather transitions
    - [WeatherManager]     Game/World/WeatherManager.ts, the weather update
                           by time of day
    - [WorldManager]       Game/World/WorldManager.ts, the terrain grid with
                           versioned writes, its queries, the farming calls
                           and the dirty-tile record
    - [AgentActionQueue]   the per-agent priority queue
    - [InteractionManager] Game/Interaction/InteractionManager.ts, the
                           per-coordinate interaction serializer and the
                           interaction handlers
    - [Game]               Game/index.ts, the fixed-rate loop that drives
                           the clock, and the saving of changed terrain

    Classes become records with explicit state passing; [Date.now()] and
    [Math.random()] become arguments; promise continuations become explicit
    microtasks of a small event loop.  The definitions come first, the
    properties after them. *)

From Stdlib Require Import ZArith QArith Qround Lia List String.
From Stdlib Require Floats.
From stdpp Require Import base option list gmap strings pretty sorting.

Set Warnings "-inexact-float".

Local Open Scope Z_scope.

(** * JavaScript numbers

    The clock computes with JavaScript [number]s.  The code of the clock is
    written once, over an abstract number type, and read in two ways: over
    binary64 floating-point values, which is how the program runs, and over
    the rationals, which is the arithmetic its comments reason in.  What is
    stated of the program is stated over binary64.  Tick counts are
    integer-valued and are kept in [Z]; the program's are exact as long as
    they are safe integers. *)

Class Number (num : Type) := {
  num_ofZ : Z -> num;
  num_add : num -> num -> num;
  num_sub : num -> num -> num;
  num_mul : num -> num -> num;
  num_div : num -> num -> num;
  (** [Math.floor] *)
  num_floor : num -> Z;
  (** [<=] *)
  num_leb : num -> num -> bool;
}.

#[export] Instance Number_Q : Number Q := {|
  num_ofZ := inject_Z;
  num_add := Qplus;
  num_sub := Qminus;
  num_mul := Qmult;
  num_div := Qdiv;
  num_floor := Qfloor;
  num_leb := Qle_bool;
|}.

(** [Math.floor] of a finite binary64 value [(-1)^s * m * 2^e]: shifting the
    signed mantissa rounds towards minus infinity.  Zeros give 0.
    [Math.floor] of an infinity or of NaN is that value itself, which is
    neither a tick count nor a coordinate; the result 0 given here is not
    the program's, so the embedding follows the program where the argument
    is finite: a clock whose tick interval is not 0, a player at a finite
    position. *)
Definition float_floor (x : PrimFloat.float) : Z :=
  match FloatOps.Prim2SF x with
  | SpecFloat.S754_finite s m e => Z.shiftl (if s then Z.neg m else Z.pos m) e
  | _ => 0
  end.

(** The integers that JavaScript numbers hold and add without rounding, as
    [Number.isSafeInteger] has them. *)
Definition safeInteger (n : Z) : Prop := - 2 ^ 53 < n < 2 ^ 53.

(** The finite values, which are those [float_floor] is [Math.floor] of. *)
Definition float_finite (x : PrimFloat.float) : bool :=
  match FloatOps.Prim2SF x with
  | SpecFloat.S754_finite _ _ _ | SpecFloat.S754_zero _ => true
  | _ => false
  end.

(** The binary64 value nearest to an integer (exact below 2^53). *)
Definition float_ofZ (z : Z) : PrimFloat.float :=
  FloatOps.SF2Prim
    (SpecFloat.binary_normalize FloatOps.prec FloatOps.emax z 0 false).

#[export] Instance Number_binary64 : Number PrimFloat.float := {|
  num_ofZ := float_ofZ;
  num_add := PrimFloat.add;
  num_sub := PrimFloat.sub;
  num_mul := PrimFloat.mul;
  num_div := PrimFloat.div;
  num_floor := float_floor;
  num_leb := PrimFloat.leb;
|}.

(** * TimeManager: the world clock *)

Module TimeManager.

Inductive TimeOfDay := Dawn | Day | Dusk | Night.

#[export] Instance TimeOfDay_eq_dec : EqDecision TimeOfDay.
Proof. solve_decision. Defined.

(** [this.ticksPerDay = 240] in the constructor; the field is readonly. *)
Definition ticksPerDay : Z := 240.

(** [resolvePeriod]: JavaScript's [%] truncates towards zero ([Z.rem]);
    the double remainder makes the result non-negative. *)
Definition resolvePeriod (tick : Z) : TimeOfDay :=
  let periodLength := ticksPerDay / 4 in
  let normalized := Z.rem (Z.rem tick ticksPerDay + ticksPerDay) ticksPerDay in
  if normalized <? periodLength then Dawn
  else if normalized <? periodLength * 2 then Day
  else if normalized <? periodLength * 3 then Dusk
  else Night.

Section Clock.
Context {num : Type} `{Number num}.

(** The fields of the class.  [notified] records, oldest first, the
    argument of every round of listener calls: one entry stands for
    [this.listeners.forEach((fn) => fn(this.timeOfDay))]. *)
Record state := mkState {
  tick : Z;
  timeOfDay : TimeOfDay;
  tickIntervalMs : num;
  speedMultiplier : num;
  lastUpdatedAt : num;
  notified : list TimeOfDay;
}.

(** [GameTimeSnapshot], with [lastUpdatedAt] already parsed. *)
Record GameTimeSnapshot := mkSnapshot {
  snap_tick : Z;
  snap_timeOfDay : TimeOfDay;
  snap_speedMultiplier : num;
  snap_tickIntervalMs : num;
  snap_lastUpdatedAt : num;
}.

(** The constructor without a snapshot:
    [new TimeManager(undefined, { tickIntervalMs, speedMultiplier })]. *)
Definition create (interval speed now : num) : state :=
  {| tick := 0; timeOfDay := resolvePeriod 0;
     tickIntervalMs := interval; speedMultiplier := speed;
     lastUpdatedAt := now; notified := [] |}.

Definition applyTickAdvance (delta : Z) (c : state) : state :=
  if delta <=? 0 then c
  else
    let prevPeriod := timeOfDay c in
    let tick' := tick c + delta in
    let period := resolvePeriod tick' in
    {| tick := tick'; timeOfDay := period;
       tickIntervalMs := tickIntervalMs c;
       speedMultiplier := speedMultiplier c;
       lastUpdatedAt := lastUpdatedAt c;
       notified := if decide (period = prevPeriod) then notified c
                   else notified c ++ [period] |}.

Definition set_lastUpdatedAt (t : num) (c : state) : state :=
  {| tick := tick c; timeOfDay := timeOfDay c;
     tickIntervalMs := tickIntervalMs c;
     speedMultiplier := speedMultiplier c;
     lastUpdatedAt := t; notified := notified c |}.

(** [advance(forceTicks?)], with [now] the value of [Date.now()]. *)
Definition advance (forceTicks : option Z) (now : num) (c : state) : state :=
  match forceTicks with
  | Some ticksToAdvance =>
      applyTickAdvance ticksToAdvance (set_lastUpdatedAt now c)
  | None =>
      let elapsedMs := num_sub now (lastUpdatedAt c) in
      if num_leb elapsedMs (num_ofZ 0) then c
      else
        let scaledElapsed := num_mul elapsedMs (speedMultiplier c) in
        let ticksToAdvance := num_floor (num_div scaledElapsed (tickIntervalMs c)) in
        if ticksToAdvance <=? 0 then c
        else
          let leftoverScaled :=
            num_sub scaledElapsed
                    (num_mul (num_ofZ ticksToAdvance) (tickIntervalMs c)) in
          let leftoverReal := num_div leftoverScaled (speedMultiplier c) in
          applyTickAdvance ticksToAdvance
            (set_lastUpdatedAt (num_sub now leftoverReal) c)
  end.

(** [restore(snapshot)]; [tickIntervalMs] is readonly and kept. *)
Definition restore (s : GameTimeSnapshot) (c : state) : state :=
  applyTickAdvance 0
    {| tick := snap_tick s; timeOfDay := snap_timeOfDay s;
       tickIntervalMs := tickIntervalMs c;
       speedMultiplier := snap_speedMultiplier s;
       lastUpdatedAt := snap_lastUpdatedAt s;
       notified := notified c |}.

(** Calls of [advance()] at the wall-clock times reached after each of
    the intervals [deltas], starting at time [now]. *)
Fixpoint advance_each (now : num) (deltas : list num) (c : state) : state :=
  match deltas with
  | [] => c
  | d :: rest =>
      let now' := num_add now d in
      advance_each now' rest (advance None now' c)
  end.

End Clock.

Arguments state num : clear implicits.
Arguments GameTimeSnapshot num : clear implicits.

(** ** The clock driven by the game loop

    The second [TimeManager] of the repository (it follows the environment
    class in server/Game/World/Environment.ts) has no timer of its own:
    [advance(deltaTime)] takes the elapsed milliseconds from the game loop.
    The rest of the class is the same. *)

Module Driven.
Section Clock.
Context {num : Type} `{Number num}.

(** [advance(deltaTime)]; [isActive] is set by [start()]. *)
Definition advance (isActive : bool) (deltaTime : num) (c : state num)
  : state num :=
  if negb isActive then c
  else
    let scaledElapsed := num_mul deltaTime (speedMultiplier c) in
    let ticksToAdvance := num_floor (num_div scaledElapsed (tickIntervalMs c)) in
    if ticksToAdvance <=? 0 then c
    else applyTickAdvance ticksToAdvance c.

End Clock.
End Driven.

(** Scaled time since the clock [c0] was last updated, in ticks. *)
Definition ticks_due (c0 : state Q) (T : Q) : Q :=
  ((T - lastUpdatedAt c0) * speedMultiplier c0 / tickIntervalMs c0)%Q.

(** ** The other controls of the clock *)

Section Controls.
Context {num : Type} `{Number num}.

(** [setSpeed(multiplier)], with [now] the value of [Date.now()]; [None]
    stands for the [Error] thrown for a multiplier that is not positive. *)
Definition setSpeed (multiplier now : num) (c : state num)
  : option (state num) :=
  if num_leb multiplier (num_ofZ 0) then None
  else Some {| tick := tick c; timeOfDay := timeOfDay c;
               tickIntervalMs := tickIntervalMs c;
               speedMultiplier := multiplier;
               lastUpdatedAt := now; notified := notified c |}.

(** [update()]: [this.advance(1)]. *)
Definition update (now : num) (c : state num) : state num :=
  advance (Some 1) now c.

(** A sequence of calls of [advance], each with its argument and the value
    of [Date.now()] at the call. *)
Definition advance_all (calls : list (option Z * num)) (c : state num)
  : state num :=
  fold_left (fun c call => advance (fst call) (snd call) c) calls c.

(** The clock driven by the game loop, started, and called with one
    [deltaTime] after the other. *)
Definition driven_each (deltas : list num) (c : state num) : state num :=
  fold_left (fun c deltaTime => Driven.advance true deltaTime c) deltas c.

(** The ticks the driven clock counts for one [deltaTime] taken on its
    own, in the arithmetic of the clock. *)
Definition counted (c : state num) (deltaTime : num) : Z :=
  Z.max 0
    (num_floor (num_div (num_mul deltaTime (speedMultiplier c))
                        (tickIntervalMs c))).

(** The ticks it counts for each [deltaTime] of a list, added up. *)
Definition counted_each (c : state num) (deltas : list num) : Z :=
  fold_right Z.add 0 (counted c <$> deltas).

End Controls.

End TimeManager.

(** * Weather: the transition table *)

Module Weather.

Inductive WeatherType := clear | rain | storm | snow | fog.

#[export] Instance WeatherType_eq_dec : EqDecision WeatherType.
Proof. solve_decision. Defined.

Section Transition.
Context {num : Type} `{Number num}.

(** The [for] loop of [getNextWeather]: [sum] is the running total before
    the entry at the head. *)
Fixpoint walk (transitions : list (WeatherType * num)) (roll sum : num)
  : option WeatherType :=
  match transitions with
  | [] => None
  | (next, prob) :: rest =>
      let sum' := num_add sum prob in
      if num_leb roll sum' then Some next else walk rest roll sum'
  end.

(** The loop, then the fallback
    [lastTransition ? lastTransition[0] : "clear"]. *)
Definition pick (transitions : list (WeatherType * num)) (roll : num)
  : WeatherType :=
  match walk transitions roll (num_ofZ 0) with
  | Some next => next
  | None =>
      match last transitions with
      | Some lastTransition => fst lastTransition
      | None => clear
      end
  end.

(** Each entry with its cumulative probability: the totals the loop
    compares the draw with, added up from the left. *)
Fixpoint cumulative (transitions : list (WeatherType * num)) (sum : num)
  : list (WeatherType * num) :=
  match transitions with
  | [] => []
  | (next, prob) :: rest =>
      (next, num_add sum prob) :: cumulative rest (num_add sum prob)
  end.

(** The first entry whose cumulative probability is at least the draw. *)
Definition first_reaching (transitions : list (WeatherType * num)) (roll : num)
  : option WeatherType :=
  fst <$> find (fun entry => num_leb roll (snd entry))
               (cumulative transitions (num_ofZ 0)).

End Transition.

Import PrimFloat.
Local Open Scope float_scope.

(** [WEATHER_TRANSITIONS], with the literals read as binary64 values. *)
Definition WEATHER_TRANSITIONS (current : WeatherType)
  : list (WeatherType * PrimFloat.float) :=
  match current with
  | clear => [(clear, 0.6); (rain, 0.2); (fog, 0.1); (storm, 0.05); (snow, 0.05)]
  | rain => [(rain, 0.5); (clear, 0.3); (storm, 0.15); (fog, 0.05)]
  | storm => [(storm, 0.4); (rain, 0.4); (clear, 0.2)]
  | snow => [(snow, 0.5); (clear, 0.3); (fog, 0.2)]
  | fog => [(fog, 0.5); (clear, 0.3); (rain, 0.2)]
  end.

(** [getNextWeather(current)], with [roll] the value of [Math.random()].
    Every [WeatherType] has a table, so the [?? WEATHER_TRANSITIONS.clear]
    default is never taken. *)
Definition getNextWeather (current : WeatherType) (roll : PrimFloat.float)
  : WeatherType :=
  pick (WEATHER_TRANSITIONS current) roll.

End Weather.

(** * WeatherManager: the current weather *)

Module WeatherManager.
Import Weather PrimFloat.

(** [update(timeOfDay)]: the new value of [this.current]; [random n] is the
    result of call number [n] of [Math.random()] during the update.  The
    [&&] draws only at night, and [getNextWeather] draws after it. *)
Definition update (timeOfDay : TimeManager.TimeOfDay) (current : WeatherType)
    (random : nat -> float) : WeatherType :=
  match timeOfDay with
  | TimeManager.Night =>
      if ltb (random 0%nat) 0.1%float then fog
      else getNextWeather current (random 1%nat)
  | _ => getNextWeather current (random 0%nat)
  end.

End WeatherManager.

(** * WorldManager: the terrain grid *)

(** JavaScript arrays: a slot is a value or a hole; reading a hole or past
    the end gives [undefined], writing past the end extends the array. *)
Definition array_get {A : Type} (a : list (option A)) (i : Z) : option A :=
  if i <? 0 then None else mjoin (a !! Z.to_nat i).

Definition array_set {A : Type} (a : list (option A)) (i : nat) (v : A)
  : list (option A) :=
  if decide (i < length a)%nat then <[i := Some v]> a
  else a ++ replicate (i - length a) None ++ [Some v].

Module WorldManager.

Inductive TerrainType :=
  GRASS | DIRT | WATER | STONE | SAND | TREE | ROCK | FARMLAND | WALL | VOID.

#[export] Instance TerrainType_eq_dec : EqDecision TerrainType.
Proof. solve_decision. Defined.

(** [TileState]: the named optional fields. *)
Record TileState := mkTileState {
  tilled : option bool;
  crop : option string;
  growthStage : option Z;
  watered : option bool;
  durability : option Z;
  lastInteractedAt : option string;
}.

(** [Tile]; the free-form [metadata] bag is left out. *)
Record Tile := mkTile {
  type : TerrainType;
  state : option TileState;
  version : option Z;
}.

Record Position2D := mkPos { x : Z; y : Z }.

(** [TileConfig]: the physical flags; the display strings are left out. *)
Record TileConfig := mkConfig {
  walkable : bool;
  tillable : bool;
  harvestable : bool;
  transparent : bool;
}.

(** [WorldMap]: [tiles[y][x]]. *)
Record WorldMap := mkMap {
  width : Z;
  height : Z;
  tiles : list (list (option Tile));
}.

Record manager := mkManager {
  worldMap : WorldMap;
  dirtyTiles : gset string;
}.

(** [initTileConfigs] followed by [this.tileConfigs.get(type)]. *)
Definition getTileConfig (t : TerrainType) : option TileConfig :=
  Some match t with
       | GRASS => mkConfig true true false true
       | DIRT => mkConfig true true false true
       | WATER => mkConfig false false false true
       | STONE => mkConfig true false false true
       | SAND => mkConfig true false false true
       | TREE => mkConfig false false true false
       | ROCK => mkConfig false false true false
       | FARMLAND => mkConfig true false false true
       | WALL => mkConfig false false false false
       | VOID => mkConfig false false false true
       end.

Definition voidTile : Tile := mkTile VOID None None.

Definition isInBounds (m : manager) (pos : Position2D) : bool :=
  (0 <=? x pos) && (x pos <? width (worldMap m)) &&
  (0 <=? y pos) && (y pos <? height (worldMap m)).

Definition getTile (m : manager) (pos : Position2D) : Tile :=
  if negb (isInBounds m pos) then voidTile
  else
    match tiles (worldMap m) !! Z.to_nat (y pos) with
    | Some row => default voidTile (array_get row (x pos))
    | None => voidTile
    end.

Definition isHarvestable (m : manager) (pos : Position2D) : bool :=
  match getTileConfig (type (getTile m pos)) with
  | Some config => harvestable config
  | None => false
  end.

(** [`${pos.x},${pos.y}`].  A template literal prints a safe integer with
    all its decimal digits, as [pretty] does.  From 10^21 on JavaScript
    prints a number in exponent notation, which the embedding does not
    follow: what is stated of a key is stated of the keys of safe integers,
    or of coordinates inside a map, which are array indices. *)
Definition posKey (pos : Position2D) : string :=
  pretty (x pos) +:+ "," +:+ pretty (y pos).

Definition markTileDirty (pos : Position2D) (m : manager) : manager :=
  mkManager (worldMap m) ({[ posKey pos ]} ∪ dirtyTiles m).

Definition getTileVersion (m : manager) (pos : Position2D) : Z :=
  default 0 (version (getTile m pos)).

(** [setTile(pos, tile, expectedVersion?)]: the manager after the call and
    the returned flag.  The program writes the new version into the object
    it is given and stores that very object; the embedding stores the value.
    The two agree as long as the object is stored nowhere else, as with the
    tiles that [tillLand], [plantCrop], [waterTile] and [harvest] build for
    their write.  An object that a caller of [setTile] stores at two
    coordinates shares one version between them, which the embedding does
    not show. *)
Definition setTile (m : manager) (pos : Position2D) (tile : Tile)
    (expectedVersion : option Z) : manager * bool :=
  if negb (isInBounds m pos) then (m, false)
  else
    match tiles (worldMap m) !! Z.to_nat (y pos) with
    | None => (m, false)
    | Some row =>
        let currentTile := array_get row (x pos) in
        let currentVersion := default 0 (currentTile ≫= version) in
        let conflict :=
          match expectedVersion with
          | Some expected => negb (currentVersion =? expected)
          | None => false
          end in
        if conflict then (m, false)
        else
          let tile' := mkTile (type tile) (state tile) (Some (currentVersion + 1)) in
          let row' := array_set row (Z.to_nat (x pos)) tile' in
          let map' :=
            mkMap (width (worldMap m)) (height (worldMap m))
                  (<[Z.to_nat (y pos) := row']> (tiles (worldMap m))) in
          (markTileDirty pos (mkManager map' (dirtyTiles m)), true)
    end.

Definition getDrops (t : TerrainType) : list string :=
  match t with
  | TREE => ["wood"; "wood"; "wood"]
  | ROCK => ["stone"; "stone"; "stone"; "stone"; "stone"]
  | _ => []
  end.

Record HarvestResult := mkHarvest {
  success : bool;
  complete : bool;
  drops : option (list string);
}.

Definition harvestFailed : HarvestResult := mkHarvest false false None.

(** [harvest(pos)]; [now] is [new Date().toISOString()]. *)
Definition harvest (m : manager) (pos : Position2D) (now : string)
  : manager * HarvestResult :=
  if negb (isHarvestable m pos) then (m, harvestFailed)
  else
    let tile := getTile m pos in
    let expectedVersion := default 0 (version tile) in
    match state tile with
    | Some st =>
        match durability st with
        | Some d =>
            let newDurability := d - 1 in
            if newDurability <=? 0 then
              let dropped := getDrops (type tile) in
              let '(m', ok) :=
                setTile m pos (mkTile GRASS None None) (Some expectedVersion) in
              if ok then (m', mkHarvest true true (Some dropped))
              else (m', harvestFailed)
            else
              let newTile :=
                mkTile (type tile)
                  (Some (mkTileState (tilled st) (crop st) (growthStage st)
                           (watered st) (Some newDurability) (Some now)))
                  None in
              let '(m', ok) := setTile m pos newTile (Some expectedVersion) in
              if ok then (m', mkHarvest true false None)
              else (m', harvestFailed)
        | None => (m, harvestFailed)
        end
    | None => (m, harvestFailed)
    end.

(** [n] calls of [harvest] in a row, with the results in call order. *)
Fixpoint harvest_times (n : nat) (m : manager) (pos : Position2D) (now : string)
  : manager * list HarvestResult :=
  match n with
  | O => (m, [])
  | S n' =>
      let '(m1, r) := harvest m pos now in
      let '(m2, rs) := harvest_times n' m1 pos now in
      (m2, r :: rs)
  end.

(** The shape [generateDefaultWorld] builds: [height] rows of [width]
    slots. *)
Definition well_formed (m : manager) : Prop :=
  Z.of_nat (length (tiles (worldMap m))) = height (worldMap m) /\
  Forall (fun row => Z.of_nat (length row) = width (worldMap m))
         (tiles (worldMap m)).

(** What an accepted write leaves behind. *)
Definition written (m m' : manager) (pos : Position2D) (tile : Tile) : Prop :=
  getTile m' pos
    = mkTile (type tile) (state tile) (Some (getTileVersion m pos + 1)) /\
  posKey pos ∈ dirtyTiles m' /\
  dirtyTiles m ⊆ dirtyTiles m' /\
  isInBounds m' pos = true /\
  well_formed m'.

Definition partialHarvest : HarvestResult := mkHarvest true false None.

Definition completeHarvest (t : TerrainType) : HarvestResult :=
  mkHarvest true true (Some (getDrops t)).

(** The tile a harvest that does not finish the resource writes back. *)
Definition worn (tile : Tile) (st : TileState) (d : Z) (now : string) : Tile :=
  mkTile (type tile)
    (Some (mkTileState (tilled st) (crop st) (growthStage st) (watered st)
             (Some d) (Some now)))
    None.

(** A 3 x 3 world for examples: walls around a tree that was written three
    times. *)
Definition sampleWorld : manager :=
  let wall := Some (mkTile WALL None None) in
  let tree :=
    Some (mkTile TREE (Some (mkTileState None None None None (Some 3) None))
                 (Some 3)) in
  mkManager (mkMap 3 3 [[wall; wall; wall]; [wall; tree; wall]; [wall; wall; wall]])
            ∅.

(** ** The queries *)

Definition isWalkable (m : manager) (pos : Position2D) : bool :=
  match getTileConfig (type (getTile m pos)) with
  | Some config => walkable config
  | None => false
  end.

Definition isTillable (m : manager) (pos : Position2D) : bool :=
  match getTileConfig (type (getTile m pos)) with
  | Some config => tillable config
  | None => false
  end.

Record Rectangle := mkRect {
  rect_x : Z;
  rect_y : Z;
  rect_width : Z;
  rect_height : Z;
}.

Record VisibleTile := mkVisible {
  vt_pos : Position2D;
  vt_tile : Tile;
  vt_config : TileConfig;
}.

(** The values of the variable of a counting [for] loop: [count] values
    from [from] on, none for a [count] that is not positive. *)
Definition span (from count : Z) : list Z :=
  (fun i => from + Z.of_nat i) <$> seq 0 (Z.to_nat count).

(** [getVisibleTiles(center, radius)]: [dy] and [dx] run from [-radius] to
    [radius]. *)
Definition getVisibleTiles (m : manager) (center : Position2D) (radius : Z)
  : list VisibleTile :=
  dy ← span (- radius) (2 * radius + 1);
  dx ← span (- radius) (2 * radius + 1);
  let pos := mkPos (x center + dx) (y center + dy) in
  let tile := getTile m pos in
  if decide (type tile = VOID) then []
  else
    match getTileConfig (type tile) with
    | Some config => [mkVisible pos tile config]
    | None => []
    end.

(** [getTilesInRect(rect)] *)
Definition getTilesInRect (m : manager) (rect : Rectangle) : list VisibleTile :=
  y ← span (rect_y rect) (rect_height rect);
  x ← span (rect_x rect) (rect_width rect);
  let pos := mkPos x y in
  if isInBounds m pos then
    let tile := getTile m pos in
    match getTileConfig (type tile) with
    | Some config => [mkVisible pos tile config]
    | None => []
    end
  else [].

(** [counts.set(tile.type, (counts.get(tile.type) || 0) + 1)] on the [Map]
    of [describeView]; a [Map] keeps its keys in the order in which they
    were first set. *)
Fixpoint countType (t : TerrainType) (counts : list (TerrainType * Z))
  : list (TerrainType * Z) :=
  match counts with
  | [] => [(t, 1)]
  | (t', n) :: rest =>
      if decide (t' = t) then (t', n + 1) :: rest
      else (t', n) :: countType t rest
  end.

(** [describeView(center, radius)]: the lines of the description after the
    heading, one for each terrain type in view with the number of its
    tiles; the wording of the lines is left out. *)
Definition describeView (m : manager) (center : Position2D) (radius : Z)
  : list (TerrainType * Z) :=
  fold_left (fun counts visible => countType (type (vt_tile visible)) counts)
            (getVisibleTiles m center radius) [].

(** ** The dirty set *)

Definition clearDirtyFlags (m : manager) : manager :=
  mkManager (worldMap m) ∅.

Definition hasDirtyData (m : manager) : bool :=
  bool_decide (0 < size (dirtyTiles m))%nat.

Import Strings.Ascii.

(** [key.split(',')] *)
Fixpoint split_comma (key : string) : list string :=
  match key with
  | EmptyString => [EmptyString]
  | String c rest =>
      if Strings.Ascii.eqb c ","%char then EmptyString :: split_comma rest
      else
        match split_comma rest with
        | part :: parts => String c part :: parts
        | [] => [String c EmptyString]
        end
  end.

Definition digit (c : ascii) : option Z :=
  let code := Z.of_N (Strings.Ascii.N_of_ascii c) in
  if (48 <=? code) && (code <=? 57) then Some (code - 48) else None.

(** The digits [parseInt] reads, up to the first character that is not
    one; [acc] is the value read so far, [None] before the first digit. *)
Fixpoint parseDigits (s : string) (acc : option Z) : option Z :=
  match s with
  | EmptyString => acc
  | String c rest =>
      match digit c with
      | Some d => parseDigits rest (Some (default 0 acc * 10 + d))
      | None => acc
      end
  end.

Fixpoint skipWhiteSpace (s : string) : string :=
  match s with
  | String c rest =>
      let code := Z.of_N (Strings.Ascii.N_of_ascii c) in
      if ((9 <=? code) && (code <=? 13)) || (code =? 32)
      then skipWhiteSpace rest else s
  | EmptyString => s
  end.

(** [parseInt(s, 10)]; [None] is [NaN].  White space is the ASCII one, and
    the value is an integer of any size: the coordinates of a map are far
    below 2^53. *)
Definition parseInt (s : string) : option Z :=
  match skipWhiteSpace s with
  | String c rest =>
      if Strings.Ascii.eqb c "-"%char then Z.opp <$> parseDigits rest None
      else if Strings.Ascii.eqb c "+"%char then parseDigits rest None
      else parseDigits (String c rest) None
  | EmptyString => None
  end.

(** The body of the loop of [getDirtyTiles]: the coordinate a key stands
    for, [None] when the key is skipped. *)
Definition decodeKey (key : string) : option Position2D :=
  match split_comma key with
  | [first; second] =>
      if String.eqb first "" || String.eqb second "" then None
      else
        match parseInt first, parseInt second with
        | Some x, Some y => Some (mkPos x y)
        | _, _ => None
        end
  | _ => None
  end.

(** [getDirtyTiles()].  The set is kept without its insertion order, so the
    order of the result is not the program's. *)
Definition getDirtyTiles (m : manager) : list (Position2D * Tile) :=
  omap (fun key => (fun pos => (pos, getTile m pos)) <$> decodeKey key)
       (elements (dirtyTiles m)).

(** A coordinate is dirty when [getDirtyTiles] lists it; the entry then
    carries the tile the coordinate holds. *)
Definition isDirty (m : manager) (pos : Position2D) : Prop :=
  (pos, getTile m pos) ∈ getDirtyTiles m.

(** ** Farming *)

(** [tillLand(pos)]; [now] is [new Date().toISOString()]. *)
Definition tillLand (m : manager) (pos : Position2D) (now : string)
  : manager * bool :=
  if negb (isTillable m pos) then (m, false)
  else
    let expectedVersion := getTileVersion m pos in
    setTile m pos
      (mkTile FARMLAND
         (Some (mkTileState (Some true) None None (Some false) None (Some now)))
         None)
      (Some expectedVersion).

(** The fields of [{ ...tile.state }]: none when there is no state. *)
Definition spread (st : option TileState) : TileState :=
  default (mkTileState None None None None None None) st.

(** A string used as a condition: [undefined] and the empty string count
    as false. *)
Definition truthy (s : option string) : bool :=
  match s with
  | Some (String _ _) => true
  | _ => false
  end.

(** [plantCrop(pos, cropId)] *)
Definition plantCrop (m : manager) (pos : Position2D) (cropId : string)
    (now : string) : manager * bool :=
  let tile := getTile m pos in
  if negb (bool_decide (type tile = FARMLAND)) then (m, false)
  else if truthy (state tile ≫= crop) then (m, false)
  else
    let expectedVersion := default 0 (version tile) in
    let st := spread (state tile) in
    let newTile :=
      mkTile (type tile)
        (Some (mkTileState (tilled st) (Some cropId) (Some 0) (watered st)
                 (durability st) (Some now)))
        None in
    setTile m pos newTile (Some expectedVersion).

(** [waterTile(pos)] *)
Definition waterTile (m : manager) (pos : Position2D) (now : string)
  : manager * bool :=
  let tile := getTile m pos in
  if negb (bool_decide (type tile = FARMLAND)) then (m, false)
  else
    match state tile with
    | None => (m, false)
    | Some st =>
        let expectedVersion := default 0 (version tile) in
        let newTile :=
          mkTile (type tile)
            (Some (mkTileState (tilled st) (crop st) (growthStage st)
                     (Some true) (durability st) (Some now)))
            None in
        setTile m pos newTile (Some expectedVersion)
    end.

(** The manager an accepted write of [tile] into [row] leaves. *)
Definition stored (m : manager) (pos : Position2D) (tile : Tile)
    (row : list (option Tile)) : manager :=
  markTileDirty pos
    (mkManager
       (mkMap (width (worldMap m)) (height (worldMap m))
          (<[Z.to_nat (y pos) :=
               array_set row (Z.to_nat (x pos))
                 (mkTile (type tile) (state tile)
                         (Some (getTileVersion m pos + 1)))]>
             (tiles (worldMap m))))
       (dirtyTiles m)).

(** The calls that change the terrain. *)
Inductive mutation :=
| Write (tile : Tile) (expectedVersion : option Z)
| Till
| Plant (cropId : string)
| Water
| Harvest.

Definition mutate (op : mutation) (m : manager) (pos : Position2D)
    (now : string) : manager * bool :=
  match op with
  | Write tile expectedVersion => setTile m pos tile expectedVersion
  | Till => tillLand m pos now
  | Plant cropId => plantCrop m pos cropId now
  | Water => waterTile m pos now
  | Harvest => let '(m', result) := harvest m pos now in (m', success result)
  end.

(** The calls that write a tile object they have built themselves: all but
    the plain [setTile], which stores the object of its caller. *)
Definition ownTile (op : mutation) : bool :=
  match op with
  | Write _ _ => false
  | _ => true
  end.

(** A call from outside that can change the manager. *)
Inductive call :=
| Mutate (op : mutation) (pos : Position2D) (now : string)
| ClearDirtyFlags.

Definition perform (m : manager) (c : call) : manager :=
  match c with
  | Mutate op pos now => fst (mutate op m pos now)
  | ClearDirtyFlags => clearDirtyFlags m
  end.

Definition replay (calls : list call) (m : manager) : manager :=
  fold_left perform calls m.

(** The coordinates changed by the calls since the dirty flags were last
    cleared, latest first; [acc] holds those changed before the calls. *)
Fixpoint changed (calls : list call) (m : manager) (acc : list Position2D)
  : list Position2D :=
  match calls with
  | [] => acc
  | Mutate op pos now :: rest =>
      let '(m', ok) := mutate op m pos now in
      changed rest m' (if ok then pos :: acc else acc)
  | ClearDirtyFlags :: rest => changed rest (clearDirtyFlags m) []
  end.

(** ** The constructor *)

(** [seededRandom(seed)]: the value returned by call number [n] (from 0).
    The product and the sum are binary64 operations: they are exact for a
    state below 233280, which is every state but the seed, and they round
    for a seed the size of a millisecond timestamp.  Both results are
    integers, and [%] on integers is the exact remainder with the sign of
    the dividend.  The quotient is a binary64 division. *)
Fixpoint seededState (n : nat) (seed : Z) : Z :=
  match n with
  | O => seed
  | S n' =>
      Z.rem (float_floor
               (PrimFloat.add
                  (PrimFloat.mul (float_ofZ (seededState n' seed))
                                 (float_ofZ 9301))
                  (float_ofZ 49297)))
            233280
  end.

Definition seededRandom (seed : Z) (n : nat) : PrimFloat.float :=
  PrimFloat.div (float_ofZ (seededState (S n) seed)) (float_ofZ 233280).

Import PrimFloat.

(** One cell of [generateDefaultWorld]: the tile pushed and the number of
    draws made so far; [random n] is the result of draw number [n]. *)
Definition generateTile (width height x y : Z) (random : nat -> float)
    (drawn : nat) : Tile * nat :=
  if (x =? 0) || (x =? width - 1) || (y =? 0) || (y =? height - 1)
  then (mkTile WALL None None, drawn)
  else if ltb (random drawn) 0.05%float
  then (mkTile WATER None None, S drawn)
  else if ltb (random (S drawn)) 0.03%float
  then (mkTile TREE (Some (mkTileState None None None None (Some 3) None)) None,
        S (S drawn))
  else if ltb (random (S (S drawn))) 0.02%float
  then (mkTile ROCK (Some (mkTileState None None None None (Some 5) None)) None,
        S (S (S drawn)))
  else (mkTile GRASS None None, S (S (S drawn))).

(** The inner loop, with [columns] cells still to push from column [x]. *)
Fixpoint generateRow (columns : nat) (width height x y : Z)
    (random : nat -> float) (drawn : nat) : list (option Tile) * nat :=
  match columns with
  | O => ([], drawn)
  | S columns' =>
      let '(tile, drawn1) := generateTile width height x y random drawn in
      let '(row, drawn2) :=
        generateRow columns' width height (x + 1) y random drawn1 in
      (Some tile :: row, drawn2)
  end.

(** The outer loop, with [rows] rows still to push from row [y]. *)
Fixpoint generateRows (rows : nat) (width height y : Z)
    (random : nat -> float) (drawn : nat) : list (list (option Tile)) * nat :=
  match rows with
  | O => ([], drawn)
  | S rows' =>
      let '(row, drawn1) :=
        generateRow (Z.to_nat width) width height 0 y random drawn in
      let '(below, drawn2) :=
        generateRows rows' width height (y + 1) random drawn1 in
      (row :: below, drawn2)
  end.

(** [generateDefaultWorld(width, height, seed)];
    [const random = seed ? this.seededRandom(seed) : Math.random], where
    [mathRandom] gives the results of the calls of [Math.random]. *)
Definition generateDefaultWorld (width height : Z) (seed : option Z)
    (mathRandom : nat -> float) : WorldMap :=
  let random :=
    match seed with
    | Some sd => if sd =? 0 then mathRandom else seededRandom sd
    | None => mathRandom
    end in
  mkMap width height
        (fst (generateRows (Z.to_nat height) width height 0 random 0)).

(** [new WorldManager(worldId, width, height, seed)] *)
Definition create (width height : Z) (seed : option Z)
    (mathRandom : nat -> float) : manager :=
  mkManager (generateDefaultWorld width height seed mathRandom) ∅.

End WorldManager.

(** * AgentActionQueue: the per-agent priority queue

    An action's [execute] body is opaque: calling it is recorded in the log
    [started], and the settling of the promise it returns is an event of its
    own.  [executeNextAction] is a coroutine that suspends at
    [await action.execute()]; [processQueue] suspends at
    [await executionPromise] and deletes the lock in a later microtask. *)

Module AgentActionQueue.

Inductive ActionType := MOVE | INTERACT | ATTACK | USE_ITEM | SPEAK | IDLE.

Inductive ActionPriority := CRITICAL | HIGH | NORMAL | LOW.

#[export] Instance ActionPriority_eq_dec : EqDecision ActionPriority.
Proof. solve_decision. Defined.

(** The numeric values of the enum. *)
Definition priorityValue (p : ActionPriority) : Z :=
  match p with CRITICAL => 0 | HIGH => 1 | NORMAL => 2 | LOW => 3 end.

Record AgentAction := mkAction {
  id : string;
  agentId : string;
  type : ActionType;
  priority : ActionPriority;
  timestamp : Z;
  cancellable : bool;
  timeout : option Z;
}.

Record state := mkQueues {
  queues : gmap string (list AgentAction);
  executing : gmap string AgentAction;
  locks : gset string;
  (** the actions whose [execute()] has been called, in call order *)
  started : list AgentAction;
  (** pending continuations of [processQueue]: the agents whose lock is
      deleted when the microtask runs *)
  releases : list string;
}.

Definition empty : state := mkQueues ∅ ∅ ∅ [] [].

(** The search loop of [insertByPriority]: the index of the first entry
    whose priority is greater than the action's, [queue.length] if none;
    [i] is the index of the head. *)
Fixpoint insertIndex (queue : list AgentAction) (action : AgentAction) (i : nat)
  : nat :=
  match queue with
  | [] => i
  | item :: rest =>
      if priorityValue (priority action) <? priorityValue (priority item)
      then i
      else insertIndex rest action (S i)
  end.

(** [queue.splice(insertIndex, 0, action)] *)
Definition insertByPriority (queue : list AgentAction) (action : AgentAction)
  : list AgentAction :=
  let i := insertIndex queue action 0 in
  take i queue ++ action :: drop i queue.

(** [if (action.timeout) { age = now - timestamp; if (age > timeout) ... }];
    a timeout of 0 is falsy. *)
Definition expired (action : AgentAction) (now : Z) : bool :=
  match timeout action with
  | Some limit => negb (limit =? 0) && (limit <? now - timestamp action)
  | None => false
  end.

(** The [while] loop of [executeNextAction] from its head to the next
    suspension: expired entries are shifted and skipped; the result is the
    action whose [execute()] is called, if any, and the entries left. *)
Fixpoint nextAction (queue : list AgentAction) (now : Z)
  : option AgentAction * list AgentAction :=
  match queue with
  | [] => (None, [])
  | action :: rest =>
      if expired action now then nextAction rest now else (Some action, rest)
  end.

(** [executeNextAction(agentId)], entered or resumed at the loop head. *)
Definition executeNextAction (agent : string) (now : Z) (s : state) : state :=
  match queues s !! agent with
  | None =>
      mkQueues (queues s) (delete agent (executing s)) (locks s) (started s)
               (releases s ++ [agent])
  | Some queue =>
      match nextAction queue now with
      | (Some action, rest) =>
          mkQueues (<[agent := rest]> (queues s))
                   (<[agent := action]> (executing s))
                   (locks s) (started s ++ [action]) (releases s)
      | (None, rest) =>
          mkQueues (<[agent := rest]> (queues s))
                   (delete agent (executing s))
                   (locks s) (started s) (releases s ++ [agent])
      end
  end.

(** [processQueue(agentId)] up to [await executionPromise]. *)
Definition processQueue (agent : string) (now : Z) (s : state) : state :=
  if decide (agent ∈ locks s) then s
  else
    let s' := executeNextAction agent now s in
    mkQueues (queues s') (executing s') ({[ agent ]} ∪ locks s') (started s')
             (releases s').

(** [enqueue(action)]: the state after the call and the value the returned
    promise resolves to. *)
Definition enqueue (action : AgentAction) (now : Z) (s : state) : state * bool :=
  let queue := default [] (queues s !! agentId action) in
  if (100 <=? Z.of_nat (length queue)) then
    (mkQueues (<[agentId action := queue]> (queues s)) (executing s) (locks s)
              (started s) (releases s), false)
  else
    let s1 :=
      mkQueues (<[agentId action := insertByPriority queue action]> (queues s))
               (executing s) (locks s) (started s) (releases s) in
    (processQueue (agentId action) now s1, true).

(** The promise of the agent's running action settles and the loop resumes:
    [finally { this.executing.delete(agentId) }], then the loop head. *)
Definition settle (agent : string) (now : Z) (s : state) : state :=
  match executing s !! agent with
  | None => s
  | Some _ =>
      executeNextAction agent now
        (mkQueues (queues s) (delete agent (executing s)) (locks s) (started s)
                  (releases s))
  end.

(** The continuation of [processQueue]: [finally { this.locks.delete }]. *)
Definition release (s : state) : state :=
  match releases s with
  | [] => s
  | agent :: rest =>
      mkQueues (queues s) (executing s) (locks s ∖ {[ agent ]}) (started s) rest
  end.

Inductive event :=
| Enqueue (action : AgentAction) (now : Z)
| Settle (agent : string) (now : Z)
| Release.

Definition step (s : state) (e : event) : state :=
  match e with
  | Enqueue action now => fst (enqueue action now s)
  | Settle agent now => settle agent now s
  | Release => release s
  end.

Definition run (events : list event) (s : state) : state :=
  fold_left step events s.

(** The numeric priority of an action. *)
Definition value (action : AgentAction) : Z := priorityValue (priority action).

(** Three actions of one agent for examples, in arrival order. *)
Definition lowAction : AgentAction := mkAction "a1" "npc" SPEAK LOW 0 true None.
Definition criticalAction : AgentAction :=
  mkAction "a2" "npc" MOVE CRITICAL 0 false None.
Definition normalAction : AgentAction :=
  mkAction "a3" "npc" INTERACT NORMAL 0 true None.
Definition earlierAction : AgentAction :=
  mkAction "a0" "npc" MOVE NORMAL 0 true None.

(** ** Cancelling and inspecting *)

(** [cancel(agentId, actionId)]: the state after the call and the returned
    flag.  A queued action that may be cancelled is spliced out.  Otherwise
    the call looks at the running action: for that one it only logs, so the
    state stays as it is. *)
Definition cancel (agent actionId : string) (s : state) : state * bool :=
  match queues s !! agent with
  | None => (s, false)
  | Some queue =>
      let marked :=
        match executing s !! agent with
        | Some current =>
            bool_decide (id current = actionId) && cancellable current
        | None => false
        end in
      match list_find (fun a => id a = actionId) queue with
      | Some (index, action) =>
          if cancellable action then
            (mkQueues (<[agent := delete index queue]> (queues s))
                      (executing s) (locks s) (started s) (releases s), true)
          else (s, marked)
      | None => (s, marked)
      end
  end.

Record QueueInfo := mkQueueInfo {
  queueSize : Z;
  isExecuting : bool;
  currentAction : option ActionType;
}.

(** [getQueueInfo(agentId)] *)
Definition getQueueInfo (agent : string) (s : state) : QueueInfo :=
  let queue := default [] (queues s !! agent) in
  mkQueueInfo (Z.of_nat (length queue))
              (bool_decide (is_Some (executing s !! agent)))
              (type <$> executing s !! agent).

(** [clearAll(agentId)]: the three entries of the agent are deleted.  A
    loop of [executeNextAction] that is suspended at
    [await action.execute()] is not stopped by this; it goes on when its
    action settles.  The state keeps no record of such a loop once the
    entry in [executing] is gone, so the embedding follows the manager
    after [clearAll] up to the moment the action that was running
    settles. *)
Definition clearAll (agent : string) (s : state) : state :=
  mkQueues (delete agent (queues s)) (delete agent (executing s))
           (locks s ∖ {[ agent ]}) (started s) (releases s).

(** What happens to the queues in the runs that are followed from the empty
    manager: an event of the loop, or a call of [cancel].  Two things are
    left out of these runs: calls of [clearAll], and actions whose
    [execute()] calls [enqueue] for their own agent before it first
    yields, which is before [processQueue] has set the lock. *)
Inductive operation :=
| Happens (e : event)
| Cancel (agent actionId : string).

Definition operate (s : state) (o : operation) : state :=
  match o with
  | Happens e => step s e
  | Cancel agent actionId => fst (cancel agent actionId s)
  end.

Definition operate_all (operations : list operation) (s : state) : state :=
  fold_left operate operations s.

(** A queue in the order of its priority values, lowest first. *)
Definition sorted (queue : list AgentAction) : Prop :=
  StronglySorted (fun a b => value a <= value b) queue.

(** Every queue is in priority order, holds at most 100 actions and only
    actions of its agent. *)
Definition orderly (s : state) : Prop :=
  forall agent queue,
    queues s !! agent = Some queue ->
    sorted queue /\ (length queue <= 100)%nat /\
    Forall (fun action => agentId action = agent) queue.

(** A running action is one of its agent that was started, its agent holds
    the lock and is not about to lose it; a lock that is about to be deleted
    is held, and is deleted once. *)
Definition guarded (s : state) : Prop :=
  (forall agent action,
     executing s !! agent = Some action ->
     agentId action = agent /\ action ∈ started s /\
     agent ∈ locks s /\ agent ∉ releases s) /\
  (forall agent, agent ∈ releases s -> agent ∈ locks s) /\
  NoDup (releases s).

End AgentActionQueue.

(** * InteractionManager: one promise chain per coordinate

    [processInteraction] is an [async] function without an [await]: a call
    runs the handler to its end and returns a promise that is already
    settled.  Each [await] of [handleInteractionAsync] parks the rest of the
    call at the back of the microtask queue. *)

Module InteractionManager.

Inductive InteractionType := TILL | PLANT | HARVEST | WATER | CHOP | MINE | LOOK.

Record InteractionRequest := mkRequest {
  playerId : string;
  type : InteractionType;
  target : WorldManager.Position2D;
  data : option string;
}.

Section Serializer.
(** The world the handlers act on, what a handler's promise settles with
    (a result or a rejection), and the handler. *)
Context {World Outcome : Type}.
Variable processInteraction : InteractionRequest -> World -> World * Outcome.

Inductive microtask :=
| AfterPrevious (request : InteractionRequest)
| AfterCurrent (request : InteractionRequest) (posKey : string)
               (currentPromise : nat) (outcome : Outcome).

Record state := mkInteractions {
  world : World;
  (** promises are compared by identity: they are numbered as created *)
  interactionQueues : gmap string nat;
  processingCount : Z;
  nextPromise : nat;
  microtasks : list microtask;
  (** handler runs, oldest first: the request, the world it found and the
      world it left *)
  handled : list (InteractionRequest * World * World);
  (** the calls that have returned, with what they returned *)
  returned : list (InteractionRequest * Outcome);
}.

Definition init (w : World) : state := mkInteractions w ∅ 0 0 [] [] [].

Definition posKeyOf (request : InteractionRequest) : string :=
  WorldManager.posKey (target request).

(** From [const currentPromise = this.processInteraction(request)] to
    [await currentPromise]. *)
Definition startInteraction (request : InteractionRequest) (s : state) : state :=
  let '(world', outcome) := processInteraction request (world s) in
  let currentPromise := nextPromise s in
  mkInteractions world'
    (<[posKeyOf request := currentPromise]> (interactionQueues s))
    (processingCount s + 1)
    (S (nextPromise s))
    (microtasks s
       ++ [AfterCurrent request (posKeyOf request) currentPromise outcome])
    (handled s ++ [(request, world s, world')])
    (returned s).

(** A call of [handleInteractionAsync], up to its first suspension. *)
Definition handleInteractionAsync (request : InteractionRequest) (s : state)
  : state :=
  match interactionQueues s !! posKeyOf request with
  | Some previousPromise =>
      mkInteractions (world s) (interactionQueues s) (processingCount s)
        (nextPromise s) (microtasks s ++ [AfterPrevious request])
        (handled s) (returned s)
  | None => startInteraction request s
  end.

(** The [finally] block and the return. *)
Definition finishInteraction (request : InteractionRequest) (posKey : string)
    (currentPromise : nat) (outcome : Outcome) (s : state) : state :=
  mkInteractions (world s)
    (if decide (interactionQueues s !! posKey = Some currentPromise)
     then delete posKey (interactionQueues s)
     else interactionQueues s)
    (processingCount s - 1)
    (nextPromise s) (microtasks s) (handled s)
    (returned s ++ [(request, outcome)]).

Definition runMicrotask (t : microtask) (s : state) : state :=
  match t with
  | AfterPrevious request => startInteraction request s
  | AfterCurrent request posKey currentPromise outcome =>
      finishInteraction request posKey currentPromise outcome s
  end.

(** What the event loop does next: an outside caller calls
    [handleInteractionAsync], or the oldest microtask runs. *)
Inductive event :=
| Call (request : InteractionRequest)
| Tick.

Definition step (s : state) (e : event) : state :=
  match e with
  | Call request => handleInteractionAsync request s
  | Tick =>
      match microtasks s with
      | [] => s
      | t :: rest =>
          runMicrotask t
            (mkInteractions (world s) (interactionQueues s) (processingCount s)
               (nextPromise s) rest (handled s) (returned s))
      end
  end.

Definition run (events : list event) (s : state) : state :=
  fold_left step events s.

(** Each handler found the world the handler before it left. *)
Fixpoint chained (w : World) (log : list (InteractionRequest * World * World))
  : Prop :=
  match log with
  | [] => True
  | (request, before, after) :: rest =>
      before = w /\ after = fst (processInteraction request before) /\
      chained after rest
  end.

(** The world a chain of handler runs ends in. *)
Definition final (w : World) (log : list (InteractionRequest * World * World))
  : World :=
  match last log with
  | Some (_, _, after) => after
  | None => w
  end.

(** The handler runs of a state form one chain that ends in its world. *)
Definition serial (w0 : World) (s : state) : Prop :=
  chained w0 (handled s) /\ world s = final w0 (handled s).

(** Every entry of the queue map has its clean-up among the microtasks. *)
Definition tracked (s : state) : Prop :=
  forall posKey promise,
    interactionQueues s !! posKey = Some promise ->
    exists request outcome,
      AfterCurrent request posKey promise outcome ∈ microtasks s.

(** The number of ticks that empty the microtask queue: a parked call runs
    its handler and then its clean-up. *)
Definition ticksLeft (pending : list microtask) : nat :=
  sum_list_with (fun t => match t with
                          | AfterPrevious _ => 2
                          | AfterCurrent _ _ _ _ => 1
                          end%nat) pending.

End Serializer.

Arguments state World Outcome : clear implicits.
Arguments microtask Outcome : clear implicits.

(** The chop handler on its own, for examples: [handleHarvest] without the
    player lookup and the distance check. *)
Definition chop (now : string) (request : InteractionRequest)
    (m : WorldManager.manager) : WorldManager.manager * WorldManager.HarvestResult :=
  if WorldManager.isHarvestable m (target request)
  then WorldManager.harvest m (target request) now
  else (m, WorldManager.harvestFailed).

(** ** The books of a schedule *)

Section Books.
Context {World Outcome : Type}.
Variable processInteraction : InteractionRequest -> World -> World * Outcome.

(** The calls whose handler has run and that have not returned yet, oldest
    first, with what they are going to return. *)
Definition awaited (tasks : list (microtask Outcome))
  : list (InteractionRequest * Outcome) :=
  omap (fun t => match t with
                 | AfterCurrent request _ _ outcome => Some (request, outcome)
                 | AfterPrevious _ => None
                 end) tasks.

(** The calls that wait for the promise in front of them. *)
Definition parked (tasks : list (microtask Outcome)) : list InteractionRequest :=
  omap (fun t => match t with
                 | AfterPrevious request => Some request
                 | AfterCurrent _ _ _ _ => None
                 end) tasks.

(** The requests of the calls of a schedule, in call order. *)
Definition called (events : list event) : list InteractionRequest :=
  omap (fun e => match e with
                 | Call request => Some request
                 | Tick => None
                 end) events.

(** A coordinate is busy while a call for it has run its handler and has
    not returned. *)
Definition busy (tasks : list (microtask Outcome))
    (pos : WorldManager.Position2D) : Prop :=
  exists request outcome,
    (request, outcome) ∈ awaited tasks /\ target request = pos.

(** The number of [Tick]s of a schedule. *)
Fixpoint ticks (events : list event) : nat :=
  match events with
  | [] => 0
  | Tick :: rest => S (ticks rest)
  | Call _ :: rest => ticks rest
  end.

(** The promises of the calls that await their own result, oldest first:
    all of them, and those stored under one key. *)
Definition promises (tasks : list (microtask Outcome)) : list nat :=
  omap (fun t => match t with
                 | AfterCurrent _ _ promise _ => Some promise
                 | AfterPrevious _ => None
                 end) tasks.

Definition holders (posKey : string) (tasks : list (microtask Outcome))
  : list nat :=
  omap (fun t => match t with
                 | AfterCurrent _ key promise _ =>
                     if decide (key = posKey) then Some promise else None
                 | AfterPrevious _ => None
                 end) tasks.

(** The queue map against the microtasks: a call that awaits its own result
    does so under the key of its coordinate and with a promise of its own,
    and the entry of a key is the promise of the latest call for that key
    that has not returned; there is no entry when there is no such call. *)
Definition held (s : state World Outcome) : Prop :=
  (forall request key promise outcome,
     AfterCurrent request key promise outcome ∈ microtasks s ->
     key = posKeyOf request /\ (promise < nextPromise s)%nat) /\
  NoDup (promises (microtasks s)) /\
  (forall key,
     interactionQueues s !! key = last (holders key (microtasks s))).

(** Every call that awaits its own result has its handler run in the log,
    and what it is going to return is what that run settled with. *)
Definition logged (s : state World Outcome) : Prop :=
  forall request outcome,
    (request, outcome) ∈ awaited (microtasks s) ->
    exists before,
      (request, before, (processInteraction request before).1) ∈ handled s /\
      outcome = (processInteraction request before).2.

(** What the handler runs of a log settled with. *)
Definition outcomes (log : list (InteractionRequest * World * World))
  : list (InteractionRequest * Outcome) :=
  (fun entry => (entry.1.1, (processInteraction entry.1.1 entry.1.2).2)) <$> log.

(** [getQueueStats()]: [queueSize] and [processingCount]. *)
Definition getQueueStats (s : state World Outcome) : Z * Z :=
  (Z.of_nat (size (interactionQueues s)), processingCount s).

End Books.

(** ** The handlers

    [processInteraction] over the terrain of a [WorldManager] and the
    positions of the players of the [AgentManager].  The texts of the
    messages are left out; a message is the constructor of its template. *)

(** [Position]: a point in space, as the player keeps it. *)
Record Position := mkPosition {
  pos_x : PrimFloat.float;
  pos_y : PrimFloat.float;
  pos_z : PrimFloat.float;
}.

Inductive Message :=
| PlayerMissing
| TooFar (distance : PrimFloat.float)
| UnknownType
| NotTillable
| Tilled
| TillFailed
| NoCropId
| NotFarmland
| Planted (cropId : string)
| PlantFailed
| Watered
| CannotWater
| NotHarvestable
| HarvestFailed
| HarvestDone (chopping : bool)
| Harvesting (chopping : bool)
| Description (lines : list (WorldManager.TerrainType * Z)).

(** [InteractionResult]; [changes] holds the position, the action and the
    crop id when there is one. *)
Record InteractionResult := mkResult {
  success : bool;
  message : Message;
  changes : option (WorldManager.Position2D * string * option string);
  rewards : option (list string);
}.

Definition failure (message : Message) : InteractionResult :=
  mkResult false message None None.

Definition handleTill (m : WorldManager.manager) (pos : WorldManager.Position2D)
    (now : string) : WorldManager.manager * InteractionResult :=
  if negb (WorldManager.isTillable m pos) then (m, failure NotTillable)
  else
    let '(m', ok) := WorldManager.tillLand m pos now in
    if ok then (m', mkResult true Tilled (Some (pos, "tilled", None)) None)
    else (m', failure TillFailed).

(** [handlePlant(pos, cropId)], with [cropId] the value of
    [request.data?.cropId]. *)
Definition handlePlant (m : WorldManager.manager) (pos : WorldManager.Position2D)
    (cropId : option string) (now : string)
  : WorldManager.manager * InteractionResult :=
  if negb (WorldManager.truthy cropId) then (m, failure NoCropId)
  else
    match WorldManager.type (WorldManager.getTile m pos) with
    | WorldManager.FARMLAND =>
        let crop := default "" cropId in
        let '(m', ok) := WorldManager.plantCrop m pos crop now in
        if ok then (m', mkResult true (Planted crop)
                                 (Some (pos, "planted", Some crop)) None)
        else (m', failure PlantFailed)
    | _ => (m, failure NotFarmland)
    end.

Definition handleWater (m : WorldManager.manager) (pos : WorldManager.Position2D)
    (now : string) : WorldManager.manager * InteractionResult :=
  let '(m', ok) := WorldManager.waterTile m pos now in
  if ok then (m', mkResult true Watered (Some (pos, "watered", None)) None)
  else (m', failure CannotWater).

Definition handleHarvest (m : WorldManager.manager)
    (pos : WorldManager.Position2D) (type : InteractionType) (now : string)
  : WorldManager.manager * InteractionResult :=
  if negb (WorldManager.isHarvestable m pos) then (m, failure NotHarvestable)
  else
    let '(m', result) := WorldManager.harvest m pos now in
    if negb (WorldManager.success result) then (m', failure HarvestFailed)
    else
      let chopping :=
        match type with CHOP => true | _ => false end in
      match WorldManager.complete result, WorldManager.drops result with
      | true, Some dropped =>
          (m', mkResult true (HarvestDone chopping)
                        (Some (pos, "harvested", None)) (Some dropped))
      | _, _ =>
          (m', mkResult true (Harvesting chopping)
                        (Some (pos, "harvesting", None)) None)
      end.

Definition handleLook (m : WorldManager.manager) (pos : WorldManager.Position2D)
  : WorldManager.manager * InteractionResult :=
  (m, mkResult true (Description (WorldManager.describeView m pos 3)) None None).

(** [to2D]: the map's y is the z of space.  The position is taken to have
    finite coordinates; see [float_floor] for the others. *)
Definition to2D (pos3D : Position) : WorldManager.Position2D :=
  WorldManager.mkPos (float_floor (pos_x pos3D)) (float_floor (pos_z pos3D)).

(** [calculateDistance], in binary64. *)
Definition calculateDistance (a b : WorldManager.Position2D) : PrimFloat.float :=
  let dx := PrimFloat.sub (float_ofZ (WorldManager.x a))
                          (float_ofZ (WorldManager.x b)) in
  let dy := PrimFloat.sub (float_ofZ (WorldManager.y a))
                          (float_ofZ (WorldManager.y b)) in
  PrimFloat.sqrt (PrimFloat.add (PrimFloat.mul dx dx) (PrimFloat.mul dy dy)).

Import PrimFloat.

Definition MAX_INTERACTION_DISTANCE : float := 1.5%float.

(** [processInteraction(request)] (and, statement by statement,
    [handleInteraction(request)]); [players] maps the id of each player of
    the [AgentManager] to the player's position. *)
Definition processInteraction (players : gmap string Position) (now : string)
    (request : InteractionRequest) (m : WorldManager.manager)
  : WorldManager.manager * InteractionResult :=
  match players !! playerId request with
  | None => (m, failure PlayerMissing)
  | Some position =>
      let playerPos := to2D position in
      let distance := calculateDistance playerPos (target request) in
      if ltb MAX_INTERACTION_DISTANCE distance
      then (m, failure (TooFar distance))
      else
        match type request with
        | TILL => handleTill m (target request) now
        | PLANT => handlePlant m (target request) (data request) now
        | WATER => handleWater m (target request) now
        | CHOP | MINE => handleHarvest m (target request) (type request) now
        | LOOK => handleLook m playerPos
        | HARVEST => (m, failure UnknownType)
        end
  end.

(** The call of [WorldManager] a request comes down to; none for a look
    and for a type without a handler. *)
Definition mutationOf (request : InteractionRequest)
  : option WorldManager.mutation :=
  match type request with
  | TILL => Some WorldManager.Till
  | PLANT => Some (WorldManager.Plant (default "" (data request)))
  | WATER => Some WorldManager.Water
  | CHOP | MINE => Some WorldManager.Harvest
  | LOOK | HARVEST => None
  end.

End InteractionManager.

(** * Game: the fixed-rate loop and the clock *)

Module Game.
Section Loop.
Context {num : Type} `{Number num}.

(** The fields of [Game] that the clock depends on. *)
Record state := mkGame {
  timeManager : TimeManager.state num;
  lastUpdateTime : Z;
}.

Definition gameLoopIntervalMs : Z := 50.

(** The constructor: [new TimeManager(undefined, { tickIntervalMs: 50 })];
    [now] is [Date.now()], an integer number of milliseconds. *)
Definition create (now : Z) : state :=
  {| timeManager :=
       TimeManager.create (num_ofZ 50) (num_ofZ 1) (num_ofZ now);
     lastUpdateTime := now |}.

(** [update(deltaTime)], step 0: [this.timeManager.advance(deltaTime)].
    The later steps (agents, interactions, terrain, tick observers and the
    scheduling of saves) do not touch the clock. *)
Definition update (deltaTime : Z) (now : Z) (g : state) : state :=
  {| timeManager :=
       TimeManager.advance (Some deltaTime) (num_ofZ now) (timeManager g);
     lastUpdateTime := lastUpdateTime g |}.

(** The [setInterval] callback of [startGameLoop]. *)
Definition gameLoopIteration (now : Z) (g : state) : state :=
  let deltaTime := now - lastUpdateTime g in
  update deltaTime now
    {| timeManager := timeManager g; lastUpdateTime := now |}.

(** [update(deltaTime)], step 0, over the clock driven by the loop. *)
Definition updateDriven (deltaTime : Z) (g : state) : state :=
  {| timeManager :=
       TimeManager.Driven.advance true (num_ofZ deltaTime) (timeManager g);
     lastUpdateTime := lastUpdateTime g |}.

End Loop.
Arguments state num : clear implicits.

(** ** Saving the dirty terrain

    [saveDirtyTerrain] reads the dirty tiles, waits for the database and
    then clears the flags; interactions can run while it waits. *)

(** The terrain and the [dirtyChunks] of the stored map document. *)
Record store := mkStore {
  worldManager : WorldManager.manager;
  dirtyChunks : list (WorldManager.Position2D * WorldManager.Tile);
}.

(** [saveDirtyTerrain] up to its [await]: the batch handed to the
    database, [None] when the call returns before. *)
Definition saveBegins (m : WorldManager.manager)
  : option (list (WorldManager.Position2D * WorldManager.Tile)) :=
  if negb (WorldManager.hasDirtyData m) then None
  else
    match WorldManager.getDirtyTiles m with
    | [] => None
    | dirtyTiles => Some dirtyTiles
    end.

(** [saveDirtyTerrain] after its [await], when the update went through:
    [$set] has replaced [dirtyChunks] by the batch, and the flags are
    cleared. *)
Definition saveLands
    (batch : list (WorldManager.Position2D * WorldManager.Tile)) (g : store)
  : store :=
  mkStore (WorldManager.clearDirtyFlags (worldManager g)) batch.

End Game.

(** * Properties *)

Module TimeManagerProps.
Import TimeManager.

Ltac Zify.zify_post_hook ::= Z.to_euclidean_division_equations.

Lemma resolvePeriod_mod (tick : Z) :
  0 <= tick -> resolvePeriod tick = resolvePeriod (tick mod ticksPerDay).
Proof.
  intros Htick. unfold resolvePeriod, ticksPerDay.
  assert (Hrem : forall t, 0 <= t -> Z.rem (Z.rem t 240 + 240) 240 = t mod 240).
  { intros t Ht. rewrite (Z.rem_mod_nonneg t 240) by lia.
    rewrite Z.rem_mod_nonneg by lia. lia. }
  rewrite (Hrem tick Htick), (Hrem (tick mod 240)) by lia.
  rewrite Z.mod_mod by lia. reflexivity.
Qed.

Lemma resolvePeriod_normalized (n : Z) :
  0 <= n < ticksPerDay ->
  resolvePeriod n =
    if n <? 60 then Dawn else if n <? 120 then Day
    else if n <? 180 then Dusk else Night.
Proof.
  unfold resolvePeriod, ticksPerDay. intros Hn.
  rewrite (Z.rem_small n 240) by lia.
  replace (Z.rem (n + 240) 240) with n.
  - reflexivity.
  - rewrite Z.rem_mod_nonneg by lia. lia.
Qed.

(** C7.  For every non-negative tick the day-phase depends on
    [tick mod ticksPerDay] only, and the four quarters of the day, each
    [periodLen = ticksPerDay / 4] ticks long, map to dawn, day, dusk and
    night in this order. *)
Theorem resolvePeriod_quarters (tick : Z) :
  0 <= tick ->
  let periodLen := ticksPerDay / 4 in
  let n := tick mod ticksPerDay in
  resolvePeriod tick = resolvePeriod n /\
  (0 <= n <= periodLen - 1 -> resolvePeriod tick = Dawn) /\
  (periodLen <= n <= 2 * periodLen - 1 -> resolvePeriod tick = Day) /\
  (2 * periodLen <= n <= 3 * periodLen - 1 -> resolvePeriod tick = Dusk) /\
  (3 * periodLen <= n <= 4 * periodLen - 1 -> resolvePeriod tick = Night).
Proof.
  intros Htick periodLen n.
  assert (Hn : 0 <= n < ticksPerDay) by (apply Z.mod_pos_bound; reflexivity).
  rewrite (resolvePeriod_mod tick Htick). fold n.
  rewrite (resolvePeriod_normalized n Hn).
  change periodLen with 60. unfold ticksPerDay in Hn.
  split; [reflexivity|].
  repeat split; intros Hrange;
    repeat (match goal with
            | |- context [?a <? ?b] => destruct (Z.ltb_spec a b)
            end; try lia; try reflexivity).
Qed.

Lemma resolvePeriod_quarters_witness :
  0 <= 500 /\ resolvePeriod 500 = resolvePeriod (500 mod ticksPerDay) /\
  resolvePeriod 500 = Dawn.
Proof.
  split; [lia|].
  pose proof (resolvePeriod_quarters 500 ltac:(lia)) as (Hmod & Hdawn & _).
  split; [exact Hmod|]. apply Hdawn. vm_compute. split; discriminate.
Defined.

(** C3.  The clock as the program runs it, in binary64, with speed 6 and a
    tick interval of 1000 ms, started at 1700000000000 and called 250 ms and
    500 ms later.  The first call counts one tick and stores
    [lastUpdatedAt = now - 500/6], where the quotient and the difference are
    both rounded.  The second call then sees less than 2000 scaled
    milliseconds and counts one tick more, two in all.  A single call 500 ms
    after the start counts three: the calls at the shorter intervals have
    lost a tick. *)
Theorem advance_each_lags_binary64 :
  let c := create (num := PrimFloat.float)
             (float_ofZ 1000) (float_ofZ 6) (float_ofZ 1700000000000) in
  let start := lastUpdatedAt c in
  let t1 := num_add start (float_ofZ 250) in
  let t2 := num_add t1 (float_ofZ 250) in
  let c1 := advance None t1 c in
  tick c1 = 1 /\
  PrimFloat.ltb (num_mul (num_sub t2 (lastUpdatedAt c1)) (speedMultiplier c1))
                (float_ofZ 2000) = true /\
  tick (advance_each start [float_ofZ 250; float_ofZ 250] c) = 2 /\
  tick (advance None (num_add start (float_ofZ 500)) c) = 3.
Proof. vm_compute. repeat split. Qed.

(** C4.  [restore] copies tick, day-phase, speed and timestamp from the
    snapshot and then calls [applyTickAdvance(0)], which returns at once: the
    day-phase is the snapshot's own, it is not recomputed from the tick, and
    no listener is called, whatever the phase was before. *)
Theorem restore_copies_snapshot {num : Type} `{Number num}
    (s : GameTimeSnapshot num) (c : state num) :
  tick (restore s c) = snap_tick s /\
  timeOfDay (restore s c) = snap_timeOfDay s /\
  speedMultiplier (restore s c) = snap_speedMultiplier s /\
  notified (restore s c) = notified c.
Proof. unfold restore, applyTickAdvance. cbn. repeat split. Qed.

(** A fresh clock is at dawn; restoring a snapshot taken at tick 100, in
    the day phase, changes the phase and notifies nobody.  A stored snapshot
    with tick 500 and phase night is restored as night, where tick 500 is
    in the dawn quarter. *)
Example restore_fresh_clock :
  let c := create (num := Q) 50%Q 1%Q 0%Q in
  let c1 := restore (mkSnapshot 100 Day 2%Q 50%Q 0%Q) c in
  let c2 := restore (mkSnapshot 500 Night 2%Q 50%Q 0%Q) c in
  timeOfDay c = Dawn /\ timeOfDay c1 = Day /\ notified c1 = [] /\
  timeOfDay c2 = Night /\ resolvePeriod 500 = Dawn.
Proof. vm_compute. repeat split. Qed.

End TimeManagerProps.

Module GameProps.
Import TimeManager.

(** C5.  One iteration of the game loop passes the elapsed milliseconds to
    [advance] as its [forceTicks] argument: a positive [deltaTime] adds
    [deltaTime] ticks to the clock, whatever the speed multiplier and the
    tick interval are.  On a fresh game (tick interval 50 ms, speed 1) two
    iterations of 75 ms leave tick 150, where
    [floor(150 * 1 / 50) = 3]; over the clock variant that takes
    milliseconds they leave tick 2, the remainders being dropped. *)
Theorem update_forces_ticks :
  (forall (num : Type) (N : Number num) (deltaTime now : Z) (g : Game.state num),
     tick (Game.timeManager (Game.update deltaTime now g))
     = if deltaTime <=? 0 then tick (Game.timeManager g)
       else tick (Game.timeManager g) + deltaTime) /\
  (let g0 := Game.create (num := PrimFloat.float) 1700000000000 in
   tick (Game.timeManager
           (Game.gameLoopIteration 1700000000150
              (Game.gameLoopIteration 1700000000075 g0))) = 150 /\
   tick (Game.timeManager (Game.updateDriven 75 (Game.updateDriven 75 g0))) = 2 /\
   num_floor (num_div (num_mul (float_ofZ 150) (float_ofZ 1)) (float_ofZ 50)) = 3).
Proof.
  split.
  - intros num N deltaTime now g.
    unfold Game.update, advance, applyTickAdvance. cbn.
    destruct (deltaTime <=? 0); reflexivity.
  - vm_compute. repeat split.
Qed.

(** The same with exact arithmetic, and for a single iteration of 50 ms. *)
Example gameLoopIteration_exact :
  let g0 := Game.create (num := Q) 1700000000000 in
  tick (Game.timeManager (Game.gameLoopIteration 1700000000050 g0)) = 50 /\
  tick (Game.timeManager
          (Game.gameLoopIteration 1700000000150
             (Game.gameLoopIteration 1700000000075 g0))) = 150 /\
  tick (Game.timeManager (Game.updateDriven 75 (Game.updateDriven 75 g0))) = 2.
Proof. vm_compute. repeat split. Qed.

End GameProps.

Module WeatherProps.
Import Weather.

Section Walk.
Context {num : Type} `{Number num}.

Lemma walk_cumulative (transitions : list (WeatherType * num)) (roll sum : num) :
  walk transitions roll sum
  = fst <$> find (fun entry => num_leb roll (snd entry))
                 (cumulative transitions sum).
Proof.
  revert sum. induction transitions as [|[next prob] rest IH]; intros sum.
  - reflexivity.
  - cbn [walk cumulative find snd].
    destruct (num_leb roll (num_add sum prob)); [reflexivity|apply IH].
Qed.

Lemma walk_member (transitions : list (WeatherType * num)) (roll sum : num)
    (w : WeatherType) :
  walk transitions roll sum = Some w -> w ∈ (fst <$> transitions).
Proof.
  revert sum. induction transitions as [|[next prob] rest IH]; intros sum.
  - discriminate.
  - cbn [walk]. destruct (num_leb roll (num_add sum prob)).
    + intros [= <-]. cbn. left.
    + intros Hrest. cbn. right. exact (IH _ Hrest).
Qed.

Lemma pick_first_reaching (transitions : list (WeatherType * num)) (roll : num) :
  pick transitions roll
  = default (default clear (fst <$> last transitions))
            (first_reaching transitions roll).
Proof.
  unfold pick, first_reaching. rewrite walk_cumulative.
  destruct (find _ _); cbn; [reflexivity|].
  destruct (last transitions); reflexivity.
Qed.

Lemma pick_member (transitions : list (WeatherType * num)) (roll : num)
    (lastTransition : WeatherType * num) :
  last transitions = Some lastTransition ->
  pick transitions roll ∈ (fst <$> transitions).
Proof.
  intros Hlast. unfold pick. rewrite Hlast.
  destruct (walk transitions roll (num_ofZ 0)) as [w|] eqn:Hwalk.
  - exact (walk_member _ _ _ _ Hwalk).
  - apply list_elem_of_fmap. exists lastTransition. split; [reflexivity|].
    apply last_Some in Hlast as [front ->]. apply elem_of_app. right. left.
Qed.

End Walk.

(** For a draw of at most 1 the loop itself finds an entry: every table
    adds up to 1.0 in binary64, so the fallback is not reached. *)
Lemma first_reaching_unit_draw (current : WeatherType) (roll : PrimFloat.float) :
  PrimFloat.leb roll (float_ofZ 1) = true ->
  is_Some (first_reaching (WEATHER_TRANSITIONS current) roll).
Proof.
  intros Hroll. unfold first_reaching.
  destruct current;
    match goal with
    | |- context [cumulative ?t ?s] =>
        let c := eval vm_compute in (cumulative t s) in
        change (cumulative t s) with c
    end;
    cbn [find snd num_leb Number_binary64];
    repeat (match goal with
            | |- context [PrimFloat.leb roll ?b] =>
                destruct (PrimFloat.leb roll b) eqn:?
            end; cbn [fmap option_fmap option_map]; try (eexists; reflexivity));
    vm_compute in Hroll; congruence.
Qed.

(** C8.  [getNextWeather] is a total function into the weather enum.  For
    every current weather and every draw it returns the first entry of the
    current weather's table whose cumulative probability is at least the
    draw, and the last entry of that table when there is none; the result is
    always one of the table's entries, and a draw of exactly 1.0 gives the
    last entry. *)
Theorem getNextWeather_selects (current : WeatherType) (roll : PrimFloat.float) :
  exists lastTransition,
    last (WEATHER_TRANSITIONS current) = Some lastTransition /\
    getNextWeather current roll
    = default (fst lastTransition)
              (first_reaching (WEATHER_TRANSITIONS current) roll) /\
    getNextWeather current roll ∈ (fst <$> WEATHER_TRANSITIONS current) /\
    getNextWeather current (float_ofZ 1) = fst lastTransition.
Proof.
  assert (Hlast : exists lastTransition,
            last (WEATHER_TRANSITIONS current) = Some lastTransition)
    by (destruct current; eexists; reflexivity).
  destruct Hlast as [lastTransition Hlast]. exists lastTransition.
  split; [exact Hlast|]. split; [|split].
  - unfold getNextWeather. rewrite pick_first_reaching, Hlast. reflexivity.
  - exact (pick_member _ roll _ Hlast).
  - destruct current; vm_compute in Hlast; injection Hlast as <-;
      vm_compute; reflexivity.
Qed.

End WeatherProps.

Module WorldManagerProps.
Import WorldManager.

Lemma array_get_set {A : Type} (a : list (option A)) (i : nat) (v : A) :
  array_get (array_set a i v) (Z.of_nat i) = Some v.
Proof.
  unfold array_get, array_set.
  destruct (Z.ltb_spec (Z.of_nat i) 0) as [?|_]; [lia|].
  rewrite Nat2Z.id. destruct (decide (i < length a)%nat) as [Hin|Hout].
  - rewrite list_lookup_insert_eq by exact Hin. reflexivity.
  - rewrite lookup_app_r by lia.
    rewrite lookup_app_r by (rewrite length_replicate; lia).
    rewrite length_replicate. replace (i - length a - (i - length a))%nat with 0%nat by lia.
    reflexivity.
Qed.

Lemma array_set_length {A : Type} (a : list (option A)) (i : nat) (v : A) :
  (i < length a)%nat -> length (array_set a i v) = length a.
Proof.
  intros Hin. unfold array_set. rewrite decide_True by exact Hin.
  apply length_insert.
Qed.

(** An in-bounds coordinate of a well-formed map names a row of full
    width. *)
Lemma in_bounds_row (m : manager) (pos : Position2D) :
  isInBounds m pos = true -> well_formed m ->
  exists row,
    tiles (worldMap m) !! Z.to_nat (y pos) = Some row /\
    (Z.to_nat (x pos) < length row)%nat /\
    0 <= x pos /\ 0 <= y pos.
Proof.
  unfold isInBounds, well_formed. intros Hin [Hrows Hcols].
  repeat (apply andb_prop in Hin as [Hin ?]).
  destruct (lookup_lt_is_Some_2 (tiles (worldMap m)) (Z.to_nat (y pos)))
    as [row Hrow]; [lia|].
  exists row. split; [exact Hrow|].
  rewrite Forall_forall in Hcols.
  pose proof (Hcols row (list_elem_of_lookup_2 _ _ _ Hrow)). lia.
Qed.

Lemma getTile_row (m : manager) (pos : Position2D) (row : list (option Tile)) :
  isInBounds m pos = true ->
  tiles (worldMap m) !! Z.to_nat (y pos) = Some row ->
  getTile m pos = default voidTile (array_get row (x pos)).
Proof. intros Hin Hrow. unfold getTile. rewrite Hin, Hrow. reflexivity. Qed.

Lemma currentVersion_row (m : manager) (pos : Position2D)
    (row : list (option Tile)) :
  isInBounds m pos = true ->
  tiles (worldMap m) !! Z.to_nat (y pos) = Some row ->
  default 0 (array_get row (x pos) ≫= version) = getTileVersion m pos.
Proof.
  intros Hin Hrow. unfold getTileVersion.
  rewrite (getTile_row m pos row Hin Hrow).
  destruct (array_get row (x pos)); reflexivity.
Qed.

Lemma setTile_accepted (m : manager) (pos : Position2D) (tile : Tile)
    (expectedVersion : option Z) :
  isInBounds m pos = true -> well_formed m ->
  (forall expected, expectedVersion = Some expected ->
                    expected = getTileVersion m pos) ->
  exists m', setTile m pos tile expectedVersion = (m', true) /\
             written m m' pos tile.
Proof.
  intros Hin Hwf Hexpected.
  destruct (in_bounds_row m pos Hin Hwf) as (row & Hrow & Hx & Hx0 & Hy0).
  pose proof (lookup_lt_Some _ _ _ Hrow) as Hy.
  unfold setTile. rewrite Hin, Hrow. cbn [negb].
  rewrite (currentVersion_row m pos row Hin Hrow).
  assert (Hok : match expectedVersion with
                | Some expected => negb (getTileVersion m pos =? expected)
                | None => false
                end = false).
  { destruct expectedVersion as [expected|]; [|reflexivity].
    rewrite (Hexpected expected eq_refl), Z.eqb_refl. reflexivity. }
  rewrite Hok. eexists. split; [reflexivity|].
  assert (Hin' : forall map' dirty',
            width map' = width (worldMap m) -> height map' = height (worldMap m) ->
            isInBounds (mkManager map' dirty') pos = true).
  { intros map' dirty' Hw Hh. unfold isInBounds in *. cbn. rewrite Hw, Hh. exact Hin. }
  unfold written, markTileDirty. cbn [worldMap dirtyTiles].
  split; [|split; [|split; [|split]]].
  - unfold getTile. rewrite Hin' by reflexivity. cbn [negb worldMap tiles].
    rewrite list_lookup_insert_eq by exact Hy.
    rewrite <- (Z2Nat.id (x pos)) at 2 by exact Hx0.
    rewrite array_get_set. reflexivity.
  - set_solver.
  - set_solver.
  - apply Hin'; reflexivity.
  - destruct Hwf as [Hrows Hcols]. split; cbn [worldMap tiles width height].
    + rewrite length_insert. exact Hrows.
    + apply Forall_insert; [exact Hcols|].
      rewrite array_set_length by exact Hx.
      rewrite Forall_forall in Hcols.
      exact (Hcols row (list_elem_of_lookup_2 _ _ _ Hrow)).
Qed.

Lemma setTile_conflict (m : manager) (pos : Position2D) (tile : Tile)
    (expected : Z) :
  isInBounds m pos = true -> well_formed m ->
  expected <> getTileVersion m pos ->
  setTile m pos tile (Some expected) = (m, false).
Proof.
  intros Hin Hwf Hstale.
  destruct (in_bounds_row m pos Hin Hwf) as (row & Hrow & _).
  unfold setTile. rewrite Hin, Hrow. cbn [negb].
  rewrite (currentVersion_row m pos row Hin Hrow).
  destruct (Z.eqb_spec (getTileVersion m pos) expected) as [Heq|_];
    [congruence|reflexivity].
Qed.

Lemma written_version (m m' : manager) (pos : Position2D) (tile : Tile) :
  written m m' pos tile -> getTileVersion m' pos = getTileVersion m pos + 1.
Proof. intros [Htile _]. unfold getTileVersion at 1. rewrite Htile. reflexivity. Qed.

(** The map the constructor builds has [height] rows of [width] slots. *)
Lemma generateRow_length (columns : nat) (width height x y : Z)
    (random : nat -> PrimFloat.float) (drawn : nat) :
  length (fst (generateRow columns width height x y random drawn)) = columns.
Proof.
  revert x drawn. induction columns as [|columns IH]; intros x drawn; [reflexivity|].
  cbn [generateRow].
  destruct (generateTile width height x y random drawn) as [tile drawn1].
  specialize (IH (x + 1) drawn1).
  destruct (generateRow columns width height (x + 1) y random drawn1).
  cbn [fst length] in *. congruence.
Qed.

Lemma generateRows_shape (rows : nat) (width height y : Z)
    (random : nat -> PrimFloat.float) (drawn : nat) :
  length (fst (generateRows rows width height y random drawn)) = rows /\
  Forall (fun row => length row = Z.to_nat width)
         (fst (generateRows rows width height y random drawn)).
Proof.
  revert y drawn. induction rows as [|rows IH]; intros y drawn.
  - split; [reflexivity|constructor].
  - cbn [generateRows].
    pose proof (generateRow_length (Z.to_nat width) width height 0 y random drawn)
      as Hrow.
    destruct (generateRow (Z.to_nat width) width height 0 y random drawn)
      as [row drawn1].
    specialize (IH (y + 1) drawn1).
    destruct (generateRows rows width height (y + 1) random drawn1).
    cbn [fst length] in *. destruct IH as [Hlength Hrows].
    split; [congruence|constructor; assumption].
Qed.

Lemma create_well_formed (columns rows : Z) (seed : option Z)
    (mathRandom : nat -> PrimFloat.float) :
  0 <= columns -> 0 <= rows ->
  well_formed (create columns rows seed mathRandom).
Proof.
  intros Hcolumns Hrows. unfold well_formed, create, generateDefaultWorld.
  cbn [worldMap tiles width height].
  match goal with
  | |- context [generateRows ?r ?w ?h ?y ?rnd ?d] =>
      destruct (generateRows_shape r w h y rnd d) as [Hlength Hshape]
  end.
  split.
  - rewrite Hlength. lia.
  - eapply Forall_impl; [exact Hshape|]. cbn. intros row Hrow. lia.
Qed.

(** A seeded world of 8 by 6 tiles: walled in, with water at (2, 3). *)
Example create_seeded :
  let m := create 8 6 (Some 42) (fun _ => float_ofZ 0) in
  type (getTile m (mkPos 0 3)) = WALL /\
  type (getTile m (mkPos 2 3)) = WATER /\
  type (getTile m (mkPos 3 3)) = GRASS /\
  isInBounds m (mkPos 7 5) = true /\
  getTile m (mkPos 8 0) = voidTile.
Proof. vm_compute. repeat split. Qed.

(** ** The keys of the dirty set *)

Import Strings.Ascii.

Lemma digit_pretty (d : N) :
  (d < 10)%N -> digit (pretty_N_char d) = Some (Z.of_N d).
Proof.
  intros Hd.
  assert (d = 0 \/ d = 1 \/ d = 2 \/ d = 3 \/ d = 4 \/ d = 5 \/ d = 6 \/ d = 7
          \/ d = 8 \/ d = 9)%N as Hcases by lia.
  repeat (destruct Hcases as [->|Hcases]; [reflexivity|]). subst d. reflexivity.
Qed.

Lemma pretty_char_plain (d : N) (rest : string) :
  (d < 10)%N ->
  Strings.Ascii.eqb (pretty_N_char d) ","%char = false /\
  Strings.Ascii.eqb (pretty_N_char d) "-"%char = false /\
  Strings.Ascii.eqb (pretty_N_char d) "+"%char = false /\
  skipWhiteSpace (String (pretty_N_char d) rest) = String (pretty_N_char d) rest.
Proof.
  intros Hd.
  assert (d = 0 \/ d = 1 \/ d = 2 \/ d = 3 \/ d = 4 \/ d = 5 \/ d = 6 \/ d = 7
          \/ d = 8 \/ d = 9)%N as Hcases by lia.
  repeat (destruct Hcases as [->|Hcases]; [repeat split|]). subst d.
  repeat split.
Qed.

(** Reading back the digits [pretty] wrote gives the number. *)
Lemma parseDigits_pretty (n : N) (s : string) (acc : option Z) :
  (0 < n)%N -> default 0 acc = 0 ->
  parseDigits (pretty_N_go n s) acc = parseDigits s (Some (Z.of_N n)).
Proof.
  revert s acc. induction (N.lt_wf_0 n) as [n _ IH]; intros s acc Hn Hacc.
  rewrite pretty_N_go_step by exact Hn.
  pose proof (N.mod_lt n 10 ltac:(discriminate)) as Hmod.
  destruct (decide (n `div` 10 = 0)%N) as [Hsmall|Hbig].
  - rewrite Hsmall, pretty_N_go_0. cbn [parseDigits].
    rewrite digit_pretty by exact Hmod. rewrite Hacc.
    f_equal. f_equal.
    pose proof (N.div_mod n 10 ltac:(discriminate)). lia.
  - rewrite IH with (acc := acc); [|apply N.div_lt; lia|lia|exact Hacc].
    cbn [parseDigits]. rewrite digit_pretty by exact Hmod.
    cbv beta iota delta [default id].
    replace (Z.of_N (n `div` 10) * 10 + Z.of_N (n `mod` 10)) with (Z.of_N n);
      [reflexivity|].
    rewrite (N.div_mod n 10 ltac:(discriminate)) at 1. lia.
Qed.

(** [pretty] writes digits only: the string starts with one, so [parseInt]
    has no white space or sign to skip, and it holds no comma. *)
Lemma pretty_N_go_head (n : N) (s : string) :
  (0 < n)%N ->
  exists d rest, (d < 10)%N /\ pretty_N_go n s = String (pretty_N_char d) rest.
Proof.
  revert s. induction (N.lt_wf_0 n) as [n _ IH]; intros s Hn.
  rewrite pretty_N_go_step by exact Hn.
  destruct (decide (n `div` 10 = 0)%N) as [Hsmall|Hbig].
  - rewrite Hsmall, pretty_N_go_0. eexists _, _. split; [|reflexivity].
    apply N.mod_lt. discriminate.
  - apply IH; [apply N.div_lt; lia|lia].
Qed.

Lemma split_comma_cons (s : string) :
  exists part parts, split_comma s = part :: parts.
Proof.
  induction s as [|c rest (part & parts & IH)]; cbn [split_comma].
  - eauto.
  - destruct (Strings.Ascii.eqb c ","%char); [eauto|]. rewrite IH. eauto.
Qed.

Lemma split_comma_pretty (n : N) (s part : string) (parts : list string) :
  split_comma s = part :: parts ->
  split_comma (pretty_N_go n s) = pretty_N_go n part :: parts.
Proof.
  revert s part. induction (N.lt_wf_0 n) as [n _ IH]; intros s part Hs.
  destruct (decide (n = 0)%N) as [->|Hn].
  - rewrite !pretty_N_go_0. exact Hs.
  - rewrite !(pretty_N_go_step n) by lia.
    apply IH; [apply N.div_lt; lia|].
    cbn [split_comma].
    destruct (pretty_char_plain (n `mod` 10) "") as (-> & _);
      [apply N.mod_lt; discriminate|].
    rewrite Hs. reflexivity.
Qed.

Lemma pretty_N_go_app (n : N) (s t : string) :
  pretty_N_go n s +:+ t = pretty_N_go n (s +:+ t).
Proof.
  revert s. induction (N.lt_wf_0 n) as [n _ IH]; intros s.
  destruct (decide (n = 0)%N) as [->|Hn].
  - rewrite !pretty_N_go_0. reflexivity.
  - rewrite !(pretty_N_go_step n) by lia.
    rewrite IH by (apply N.div_lt; lia). reflexivity.
Qed.

Lemma pretty_pos (p : positive) : pretty (Z.pos p) = pretty_N_go (N.pos p) "".
Proof. reflexivity. Qed.

Lemma pretty_neg (p : positive) :
  pretty (Z.neg p) = String "-" (pretty_N_go (N.pos p) "").
Proof. reflexivity. Qed.

Lemma split_comma_plain (c : ascii) (rest part : string) (parts : list string) :
  Strings.Ascii.eqb c ","%char = false ->
  split_comma rest = part :: parts ->
  split_comma (String c rest) = String c part :: parts.
Proof. intros Hc Hrest. cbn [split_comma]. rewrite Hc, Hrest. reflexivity. Qed.

Lemma split_comma_numeral (z : Z) (t part : string) (parts : list string) :
  split_comma t = part :: parts ->
  split_comma (pretty z +:+ t) = (pretty z +:+ part) :: parts.
Proof.
  intros Ht. destruct z as [|p|p].
  - change (pretty 0 +:+ t) with (String "0" t).
    change (pretty 0 +:+ part) with (String "0" part).
    apply split_comma_plain; [reflexivity|exact Ht].
  - rewrite pretty_pos, !pretty_N_go_app.
    change ("" +:+ t) with t. change ("" +:+ part) with part.
    apply split_comma_pretty, Ht.
  - rewrite pretty_neg.
    change (String "-" (pretty_N_go (N.pos p) "") +:+ t)
      with (String "-" (pretty_N_go (N.pos p) "" +:+ t)).
    change (String "-" (pretty_N_go (N.pos p) "") +:+ part)
      with (String "-" (pretty_N_go (N.pos p) "" +:+ part)).
    apply split_comma_plain; [reflexivity|].
    rewrite !pretty_N_go_app.
    change ("" +:+ t) with t. change ("" +:+ part) with part.
    apply split_comma_pretty, Ht.
Qed.

Lemma parseInt_numeral (z : Z) : parseInt (pretty z) = Some z.
Proof.
  destruct z as [|p|p].
  - reflexivity.
  - rewrite pretty_pos.
    destruct (pretty_N_go_head (N.pos p) "") as (d & rest & Hd & Hhead);
      [reflexivity|].
    unfold parseInt. rewrite Hhead.
    destruct (pretty_char_plain d rest Hd) as (_ & Hminus & Hplus & ->).
    cbv iota. rewrite Hminus, Hplus, <- Hhead.
    rewrite parseDigits_pretty by reflexivity. reflexivity.
  - rewrite pretty_neg. unfold parseInt.
    change (skipWhiteSpace (String "-" (pretty_N_go (N.pos p) "")))
      with (String "-" (pretty_N_go (N.pos p) "")).
    cbv iota. change (Strings.Ascii.eqb "-" "-") with true. cbv iota.
    rewrite parseDigits_pretty by reflexivity. reflexivity.
Qed.

Lemma numeral_not_empty (z : Z) : String.eqb (pretty z) "" = false.
Proof.
  destruct z as [|p|p]; [reflexivity| |reflexivity].
  rewrite pretty_pos.
  destruct (pretty_N_go_head (N.pos p) "") as (d & rest & _ & ->);
    reflexivity.
Qed.

Lemma append_empty (s : string) : s +:+ "" = s.
Proof.
  induction s as [|c s IH]; [reflexivity|].
  change (String c s +:+ "") with (String c (s +:+ "")). rewrite IH. reflexivity.
Qed.

Lemma decodeKey_posKey (pos : Position2D) : decodeKey (posKey pos) = Some pos.
Proof.
  destruct pos as [px py]. unfold decodeKey, posKey. cbn [x y].
  assert (Hsecond : split_comma (pretty py) = [pretty py]).
  { rewrite <- (append_empty (pretty py)) at 1.
    rewrite (split_comma_numeral py "" "" []) by reflexivity.
    rewrite append_empty. reflexivity. }
  assert (Hrest : split_comma ("," +:+ pretty py) = ["" ; pretty py]).
  { change ("," +:+ pretty py) with (String "," (pretty py)).
    cbn [split_comma]. change (Strings.Ascii.eqb "," ",") with true.
    cbv iota. rewrite Hsecond. reflexivity. }
  rewrite (split_comma_numeral px _ "" [pretty py] Hrest).
  rewrite append_empty, !numeral_not_empty, !parseInt_numeral.
  reflexivity.
Qed.

Lemma posKey_inj (pos pos' : Position2D) : posKey pos' = posKey pos -> pos' = pos.
Proof.
  intros Hkey. pose proof (decodeKey_posKey pos') as Hpos'.
  rewrite Hkey, decodeKey_posKey in Hpos'. congruence.
Qed.

(** A coordinate is dirty exactly when the set holds a key that reads back
    as that coordinate. *)
Lemma isDirty_key (m : manager) (pos : Position2D) :
  isDirty m pos <->
  exists key, key ∈ dirtyTiles m /\ decodeKey key = Some pos.
Proof.
  unfold isDirty, getDirtyTiles. rewrite list_elem_of_omap. split.
  - intros (key & Hin & Hdecode). exists key.
    apply elem_of_elements in Hin. split; [exact Hin|].
    destruct (decodeKey key) as [pos'|]; [|discriminate].
    cbn in Hdecode. injection Hdecode as -> _. reflexivity.
  - intros (key & Hin & Hdecode). exists key.
    split; [apply elem_of_elements, Hin|]. rewrite Hdecode. reflexivity.
Qed.

(** An accepted write adds the key of its coordinate to the set and takes
    nothing out of it. *)
Lemma setTile_marks (m m' : manager) (pos : Position2D) (tile : Tile)
    (expectedVersion : option Z) :
  setTile m pos tile expectedVersion = (m', true) ->
  dirtyTiles m' = {[ posKey pos ]} ∪ dirtyTiles m.
Proof.
  unfold setTile. destruct (isInBounds m pos); cbn [negb]; [|discriminate].
  destruct (tiles (worldMap m) !! Z.to_nat (y pos)) as [row|]; [|discriminate].
  destruct (match expectedVersion with
            | Some expected =>
                negb (default 0 (array_get row (x pos) ≫= version) =? expected)
            | None => false
            end); [discriminate|].
  intros [= <-]. reflexivity.
Qed.

(** The dirty coordinates after an accepted write: the written one and
    those that were dirty. *)
Lemma setTile_isDirty (m m' : manager) (pos : Position2D) (tile : Tile)
    (expectedVersion : option Z) :
  setTile m pos tile expectedVersion = (m', true) ->
  forall pos', isDirty m' pos' <-> pos' = pos \/ isDirty m pos'.
Proof.
  intros Hset pos'. rewrite !isDirty_key, (setTile_marks _ _ _ _ _ Hset). split.
  - intros (key & Hin & Hdecode).
    apply elem_of_union in Hin as [Hnew|Hold].
    + apply elem_of_singleton in Hnew. subst key.
      rewrite decodeKey_posKey in Hdecode. left. congruence.
    + right. exists key. auto.
  - intros [->|(key & Hin & Hdecode)].
    + exists (posKey pos). split; [|apply decodeKey_posKey].
      apply elem_of_union_l, elem_of_singleton. reflexivity.
    + exists key. split; [apply elem_of_union_r, Hin|exact Hdecode].
Qed.

(** C1.  At an in-bounds coordinate, [setTile] with an expected version
    equal to the stored one returns true, stores the tile with version
    [expected + 1] and adds the coordinate to the dirty ones: afterwards
    [getDirtyTiles] lists this coordinate with the tile just stored, it
    still lists every coordinate it listed before, and no other.  With any
    other expected version it returns false and changes nothing.  From
    version 3, a write expecting 3 succeeds and leaves version 4, and a
    second write expecting 3 fails and leaves version 4. *)
Theorem setTile_expected_version (m : manager) (pos : Position2D)
    (tile : Tile) (expected : Z) :
  isInBounds m pos = true ->
  well_formed m ->
  (expected = getTileVersion m pos ->
   exists m',
     setTile m pos tile (Some expected) = (m', true) /\
     getTile m' pos = mkTile (type tile) (state tile) (Some (expected + 1)) /\
     (pos, mkTile (type tile) (state tile) (Some (expected + 1)))
       ∈ getDirtyTiles m' /\
     (forall pos', isDirty m' pos' <-> pos' = pos \/ isDirty m pos')) /\
  (expected <> getTileVersion m pos ->
   setTile m pos tile (Some expected) = (m, false)) /\
  (getTileVersion m pos = 3 ->
   forall tile2, exists m1,
     setTile m pos tile (Some 3) = (m1, true) /\
     getTileVersion m1 pos = 4 /\
     setTile m1 pos tile2 (Some 3) = (m1, false) /\
     getTileVersion (fst (setTile m1 pos tile2 (Some 3))) pos = 4).
Proof.
  intros Hin Hwf. split; [|split].
  - intros ->.
    destruct (setTile_accepted m pos tile (Some (getTileVersion m pos)) Hin Hwf)
      as (m' & Hset & Htile & _); [congruence|].
    pose proof (setTile_isDirty _ _ _ _ _ Hset) as Hdirty.
    exists m'. split_and!; [exact Hset|exact Htile| |exact Hdirty].
    rewrite <- Htile. apply Hdirty. left. reflexivity.
  - intros Hstale. exact (setTile_conflict m pos tile expected Hin Hwf Hstale).
  - intros Hv tile2.
    destruct (setTile_accepted m pos tile (Some 3) Hin Hwf)
      as (m1 & Hset & Hwritten); [congruence|].
    pose proof (written_version _ _ _ _ Hwritten) as Hv1. rewrite Hv in Hv1.
    destruct Hwritten as (_ & _ & _ & Hin1 & Hwf1).
    assert (Hfail : setTile m1 pos tile2 (Some 3) = (m1, false))
      by (apply setTile_conflict; [assumption..|lia]).
    exists m1. rewrite Hfail. cbn [fst]. auto.
Qed.

Lemma setTile_expected_version_witness :
  exists m1,
    setTile sampleWorld (mkPos 1 1) (mkTile GRASS None None) (Some 3) = (m1, true) /\
    getTileVersion m1 (mkPos 1 1) = 4 /\
    (mkPos 1 1, mkTile GRASS None (Some 4)) ∈ getDirtyTiles m1 /\
    setTile m1 (mkPos 1 1) (mkTile DIRT None None) (Some 3) = (m1, false).
Proof.
  destruct (setTile_expected_version sampleWorld (mkPos 1 1)
              (mkTile GRASS None None) 3) as (Haccepted & _ & Hscenario).
  - reflexivity.
  - split; [reflexivity|repeat constructor].
  - destruct (Haccepted eq_refl) as (m1 & Hfirst & _ & Hlisted & _).
    destruct (Hscenario eq_refl (mkTile DIRT None None))
      as (m1' & Hfirst' & Hv & Hsecond & _).
    rewrite Hfirst in Hfirst'. injection Hfirst' as <-.
    exists m1. auto.
Defined.

Lemma setTile_keeps_shape (m : manager) (pos : Position2D) (tile : Tile)
    (expectedVersion : option Z) :
  isInBounds m pos = true -> well_formed m ->
  isInBounds (fst (setTile m pos tile expectedVersion)) pos = true /\
  well_formed (fst (setTile m pos tile expectedVersion)).
Proof.
  intros Hin Hwf.
  destruct expectedVersion as [expected|].
  - destruct (decide (expected = getTileVersion m pos)) as [->|Hstale].
    + destruct (setTile_accepted m pos tile (Some (getTileVersion m pos)) Hin Hwf)
        as (m' & -> & _ & _ & _ & ? & ?); [congruence|auto].
    + rewrite setTile_conflict by assumption. auto.
  - destruct (setTile_accepted m pos tile None Hin Hwf)
      as (m' & -> & _ & _ & _ & ? & ?); [discriminate|auto].
Qed.

(** C10.  At an in-bounds coordinate, [setTile] without an expected version
    is accepted whatever the stored version is: it returns true, stores the
    tile with the stored version plus one and marks the coordinate dirty, so
    that [getDirtyTiles] lists it with the tile just stored, beside the
    coordinates it listed before.  This also holds right after any other
    write to the same coordinate, so an unversioned write replaces a tile it
    never read. *)
Theorem setTile_unversioned (m : manager) (pos : Position2D) (tile : Tile) :
  isInBounds m pos = true ->
  well_formed m ->
  (exists m',
     setTile m pos tile None = (m', true) /\
     getTile m' pos
       = mkTile (type tile) (state tile) (Some (getTileVersion m pos + 1)) /\
     (pos, mkTile (type tile) (state tile) (Some (getTileVersion m pos + 1)))
       ∈ getDirtyTiles m' /\
     (forall pos', isDirty m' pos' <-> pos' = pos \/ isDirty m pos')) /\
  (forall other expectedVersion,
     let m1 := fst (setTile m pos other expectedVersion) in
     exists m2,
       setTile m1 pos tile None = (m2, true) /\
       getTile m2 pos
         = mkTile (type tile) (state tile) (Some (getTileVersion m1 pos + 1)) /\
       isDirty m2 pos).
Proof.
  intros Hin Hwf. split.
  - destruct (setTile_accepted m pos tile None Hin Hwf)
      as (m' & Hset & Htile & _); [discriminate|].
    pose proof (setTile_isDirty _ _ _ _ _ Hset) as Hdirty.
    exists m'. split_and!; [exact Hset|exact Htile| |exact Hdirty].
    rewrite <- Htile. apply Hdirty. left. reflexivity.
  - intros other expectedVersion m1.
    destruct (setTile_keeps_shape m pos other expectedVersion Hin Hwf)
      as [Hin1 Hwf1].
    destruct (setTile_accepted m1 pos tile None Hin1 Hwf1)
      as (m2 & Hset & Htile & _); [discriminate|].
    exists m2. split_and!; [exact Hset|exact Htile|].
    apply (setTile_isDirty _ _ _ _ _ Hset). left. reflexivity.
Qed.

Lemma setTile_unversioned_witness :
  exists m',
    setTile sampleWorld (mkPos 1 1) (mkTile GRASS None None) None = (m', true) /\
    getTile m' (mkPos 1 1) = mkTile GRASS None (Some 4) /\
    (mkPos 1 1, mkTile GRASS None (Some 4)) ∈ getDirtyTiles m'.
Proof.
  destruct (setTile_unversioned sampleWorld (mkPos 1 1) (mkTile GRASS None None))
    as [(m' & Hset & Htile & Hlisted & _) _].
  - reflexivity.
  - split; [reflexivity|repeat constructor].
  - exists m'. auto.
Defined.

(** ** Harvesting *)

Lemma harvest_step (m : manager) (pos : Position2D) (now : string)
    (tile : Tile) (st : TileState) (d : Z) :
  isInBounds m pos = true -> well_formed m ->
  getTile m pos = tile -> isHarvestable m pos = true ->
  state tile = Some st -> durability st = Some d ->
  exists m',
    harvest m pos now
      = (m', if d - 1 <=? 0 then completeHarvest (type tile) else partialHarvest) /\
    written m m' pos
      (if d - 1 <=? 0 then mkTile GRASS None None else worn tile st (d - 1) now).
Proof.
  intros Hin Hwf Htile Hharvestable Hstate Hdurability.
  unfold harvest. rewrite Hharvestable, Htile, Hstate, Hdurability. cbn [negb].
  destruct (d - 1 <=? 0).
  - destruct (setTile_accepted m pos (mkTile GRASS None None)
                (Some (default 0 (version tile))) Hin Hwf)
      as (m' & -> & Hwritten).
    + intros expected [= <-]. unfold getTileVersion. rewrite Htile. reflexivity.
    + exists m'. split; [reflexivity|exact Hwritten].
  - destruct (setTile_accepted m pos (worn tile st (d - 1) now)
                (Some (default 0 (version tile))) Hin Hwf)
      as (m' & Hset & Hwritten).
    + intros expected [= <-]. unfold getTileVersion. rewrite Htile. reflexivity.
    + unfold worn in Hset. rewrite Hset.
      exists m'. split; [reflexivity|exact Hwritten].
Qed.

Lemma harvest_times_app (a b : nat) (m : manager) (pos : Position2D)
    (now : string) :
  harvest_times (a + b) m pos now
  = let '(m1, r1) := harvest_times a m pos now in
    let '(m2, r2) := harvest_times b m1 pos now in
    (m2, r1 ++ r2).
Proof.
  revert m. induction a as [|a IH]; intros m; cbn [harvest_times Nat.add].
  - destruct (harvest_times b m pos now). reflexivity.
  - destruct (harvest m pos now) as [m1 r]. rewrite IH.
    destruct (harvest_times a m1 pos now) as [m2 rs].
    destruct (harvest_times b m2 pos now). reflexivity.
Qed.

(** While more than [k] durability is left, [k] harvests all succeed without
    finishing, and the tile keeps its type with [k] less durability. *)
Lemma harvest_times_partial (k : nat) (m : manager) (pos : Position2D)
    (now : string) (tile : Tile) (st : TileState) (d : Z) :
  isInBounds m pos = true -> well_formed m ->
  getTile m pos = tile -> isHarvestable m pos = true ->
  state tile = Some st -> durability st = Some d ->
  Z.of_nat k < d ->
  exists m' tile' st',
    harvest_times k m pos now = (m', replicate k partialHarvest) /\
    isInBounds m' pos = true /\ well_formed m' /\
    getTile m' pos = tile' /\ type tile' = type tile /\
    state tile' = Some st' /\ durability st' = Some (d - Z.of_nat k) /\
    getTileVersion m' pos = getTileVersion m pos + Z.of_nat k.
Proof.
  revert m tile st d.
  induction k as [|k IH]; intros m tile st d Hin Hwf Htile Hh Hstate Hd Hk.
  - exists m, tile, st. cbn [harvest_times replicate].
    rewrite Z.sub_0_r, Z.add_0_r. auto 10.
  - destruct (harvest_step m pos now tile st d Hin Hwf Htile Hh Hstate Hd)
      as (m1 & Hharvest & Hwritten).
    destruct (Z.leb_spec (d - 1) 0) as [?|_]; [lia|].
    pose proof (written_version _ _ _ _ Hwritten) as Hv1.
    destruct Hwritten as (Htile1 & _ & _ & Hin1 & Hwf1).
    assert (Hh1 : isHarvestable m1 pos = true).
    { unfold isHarvestable in *. rewrite Htile1. rewrite Htile in Hh. exact Hh. }
    destruct (IH m1 _ _ (d - 1) Hin1 Hwf1 Htile1 Hh1 eq_refl eq_refl)
      as (m' & tile' & st' & Htimes & ? & ? & ? & ? & ? & ? & ?); [lia|].
    exists m', tile', st'. cbn [harvest_times replicate].
    rewrite Hharvest, Htimes.
    split_and!; try assumption; try reflexivity.
    + replace (d - Z.of_nat (S k)) with (d - 1 - Z.of_nat k) by lia. assumption.
    + lia.
Qed.

(** C6.  On a harvestable tile with durability [d], a harvest succeeds: while
    [d - 1] is positive it writes the tile back with durability [d - 1], and
    otherwise it replaces the tile by grass, in the same version-checked
    write, and returns the drops of the tile's type.  A resource with
    durability [n + 1] takes exactly [n + 1] harvests; a tree with durability
    3 is still a tree after two harvests and the third replaces it by grass
    and yields three wood. *)
Theorem harvest_durability (m : manager) (pos : Position2D) (now : string)
    (tile : Tile) (st : TileState) (d : Z) :
  isInBounds m pos = true ->
  well_formed m ->
  getTile m pos = tile ->
  isHarvestable m pos = true ->
  state tile = Some st ->
  durability st = Some d ->
  (exists m',
     harvest m pos now
       = (m', if d - 1 <=? 0 then completeHarvest (type tile) else partialHarvest) /\
     getTile m' pos
       = if d - 1 <=? 0
         then mkTile GRASS None (Some (getTileVersion m pos + 1))
         else mkTile (type tile)
                (Some (mkTileState (tilled st) (crop st) (growthStage st)
                         (watered st) (Some (d - 1)) (Some now)))
                (Some (getTileVersion m pos + 1))) /\
  (forall n : nat, d = Z.of_nat (S n) ->
   exists m' before,
     harvest_times (S n) m pos now
       = (m', replicate n partialHarvest ++ [completeHarvest (type tile)]) /\
     type (getTile m' pos) = GRASS /\
     fst (harvest_times n m pos now) = before /\
     type (getTile before pos) = type tile) /\
  (type tile = TREE -> d = 3 ->
   exists m',
     harvest_times 3 m pos now
       = (m', [partialHarvest; partialHarvest;
               mkHarvest true true (Some ["wood"; "wood"; "wood"])]) /\
     type (getTile (fst (harvest_times 2 m pos now)) pos) = TREE /\
     type (getTile m' pos) = GRASS).
Proof.
  intros Hin Hwf Htile Hh Hstate Hd.
  assert (Hcount : forall n : nat, d = Z.of_nat (S n) ->
    exists m' before,
      harvest_times (S n) m pos now
        = (m', replicate n partialHarvest ++ [completeHarvest (type tile)]) /\
      type (getTile m' pos) = GRASS /\
      fst (harvest_times n m pos now) = before /\
      type (getTile before pos) = type tile).
  { intros n ->.
    destruct (harvest_times_partial n m pos now tile st _ Hin Hwf Htile Hh Hstate Hd)
      as (m1 & tile1 & st1 & Htimes & Hin1 & Hwf1 & Htile1 & Htype1 & Hstate1
          & Hd1 & _); [lia|].
    assert (Hh1 : isHarvestable m1 pos = true).
    { unfold isHarvestable in *. rewrite Htile1, Htype1.
      rewrite Htile in Hh. exact Hh. }
    destruct (harvest_step m1 pos now tile1 st1 _ Hin1 Hwf1 Htile1 Hh1 Hstate1 Hd1)
      as (m' & Hlast & Hwritten & _).
    destruct (Z.leb_spec (Z.of_nat (S n) - Z.of_nat n - 1) 0) as [_|?]; [|lia].
    exists m', m1.
    replace (S n) with (n + 1)%nat at 1 by lia.
    rewrite harvest_times_app, Htimes. cbn [harvest_times fst].
    rewrite Hlast, Hwritten, Htile1, !Htype1. auto. }
  split; [|split].
  - destruct (harvest_step m pos now tile st d Hin Hwf Htile Hh Hstate Hd)
      as (m' & Hharvest & Hwritten & _).
    exists m'. split; [exact Hharvest|].
    rewrite Hwritten. destruct (d - 1 <=? 0); reflexivity.
  - exact Hcount.
  - intros Htree ->.
    destruct (Hcount 2%nat eq_refl) as (m' & before & Htimes & Hgrass & <- & Htype).
    exists m'. rewrite Htree in Htimes, Htype. auto.
Qed.

Lemma harvest_durability_witness :
  exists m',
    harvest_times 3 sampleWorld (mkPos 1 1) "2026-01-01T00:00:00.000Z"
      = (m', [partialHarvest; partialHarvest;
              mkHarvest true true (Some ["wood"; "wood"; "wood"])]) /\
    type (getTile m' (mkPos 1 1)) = GRASS.
Proof.
  destruct (harvest_durability sampleWorld (mkPos 1 1) "2026-01-01T00:00:00.000Z"
              (mkTile TREE (Some (mkTileState None None None None (Some 3) None))
                      (Some 3))
              (mkTileState None None None None (Some 3) None) 3)
    as (_ & _ & Htree).
  - reflexivity.
  - split; [reflexivity|repeat constructor].
  - reflexivity.
  - reflexivity.
  - reflexivity.
  - reflexivity.
  - destruct (Htree eq_refl eq_refl) as (m' & Htimes & _ & Hgrass).
    exists m'. auto.
Defined.

End WorldManagerProps.

Module AgentActionQueueProps.
Import AgentActionQueue.

Lemma insertIndex_split (queue : list AgentAction) (action : AgentAction) (i : nat) :
  exists before after,
    queue = before ++ after /\
    insertIndex queue action i = (i + length before)%nat /\
    Forall (fun item => value item <= value action) before /\
    match after with
    | [] => True
    | item :: _ => value action < value item
    end.
Proof.
  revert i. induction queue as [|item rest IH]; intros i.
  - exists [], []. cbn. auto with lia.
  - cbn [insertIndex]. fold (value action) (value item).
    destruct (Z.ltb_spec (value action) (value item)) as [Hgt|Hle].
    + exists [], (item :: rest). cbn. auto with lia.
    + destruct (IH (S i)) as (before & after & -> & Hindex & Hbefore & Hafter).
      exists (item :: before), after. cbn [app length].
      split_and!; [reflexivity|lia|constructor; assumption|exact Hafter].
Qed.

Lemma insertByPriority_split (queue : list AgentAction) (action : AgentAction) :
  exists before after,
    queue = before ++ after /\
    insertByPriority queue action = before ++ action :: after /\
    Forall (fun item => value item <= value action) before /\
    match after with
    | [] => True
    | item :: _ => value action < value item
    end.
Proof.
  destruct (insertIndex_split queue action 0)
    as (before & after & -> & Hindex & Hbefore & Hafter).
  exists before, after. unfold insertByPriority. rewrite Hindex. cbn [Nat.add].
  rewrite take_app_length, drop_app_length. auto.
Qed.

(** While the agent's lock is held, [enqueue] only inserts. *)
Lemma enqueue_busy (s : state) (action : AgentAction) (now : Z)
    (queue : list AgentAction) :
  agentId action ∈ locks s ->
  queues s !! agentId action = Some queue ->
  (length queue < 100)%nat ->
  enqueue action now s
  = (mkQueues (<[agentId action := insertByPriority queue action]> (queues s))
              (executing s) (locks s) (started s) (releases s), true).
Proof.
  intros Hlock Hqueue Hroom. unfold enqueue. rewrite Hqueue.
  change (default [] (Some queue)) with queue.
  destruct (Z.leb_spec 100 (Z.of_nat (length queue))) as [?|_]; [lia|].
  unfold processQueue. cbn [locks]. rewrite decide_True by exact Hlock.
  reflexivity.
Qed.

(** When the agent holds no lock and nothing is queued, [enqueue] calls the
    action's [execute()] before it returns. *)
Lemma enqueue_idle (s : state) (action : AgentAction) (now : Z) :
  agentId action ∉ locks s ->
  default [] (queues s !! agentId action) = [] ->
  expired action now = false ->
  enqueue action now s
  = (mkQueues (<[agentId action := []]> (queues s))
              (<[agentId action := action]> (executing s))
              ({[ agentId action ]} ∪ locks s)
              (started s ++ [action]) (releases s), true).
Proof.
  intros Hidle Hqueue Hfresh. unfold enqueue. rewrite Hqueue.
  cbn [length Z.of_nat Z.leb Z.compare].
  unfold processQueue. cbn [locks]. rewrite decide_False by exact Hidle.
  unfold executeNextAction. cbn [queues]. rewrite lookup_insert_eq.
  cbn [insertByPriority insertIndex take drop app nextAction].
  rewrite Hfresh. cbn [queues executing locks started releases].
  rewrite insert_insert_eq. reflexivity.
Qed.

(** When the running action settles, the head of the queue is started. *)
Lemma settle_next (s : state) (agent : string) (now : Z)
    (current action : AgentAction) (rest : list AgentAction) :
  executing s !! agent = Some current ->
  queues s !! agent = Some (action :: rest) ->
  expired action now = false ->
  settle agent now s
  = mkQueues (<[agent := rest]> (queues s)) (<[agent := action]> (executing s))
             (locks s) (started s ++ [action]) (releases s).
Proof.
  intros Hcurrent Hqueue Hfresh. unfold settle. rewrite Hcurrent.
  unfold executeNextAction. cbn [queues]. rewrite Hqueue.
  cbn [nextAction]. rewrite Hfresh. cbn [executing locks started releases].
  rewrite insert_delete_eq. reflexivity.
Qed.




End AgentActionQueueProps.

Module InteractionManagerProps.
Import InteractionManager.

Section Serializer.
Context {World Outcome : Type}.
Variable processInteraction : InteractionRequest -> World -> World * Outcome.

Local Abbreviation state := (state World Outcome).
Local Abbreviation step := (step processInteraction).
Local Abbreviation run := (run processInteraction).
Local Abbreviation startInteraction := (startInteraction processInteraction).
Local Abbreviation serial := (serial processInteraction).

Lemma chained_snoc (w : World) (log : list (InteractionRequest * World * World))
    (request : InteractionRequest) :
  chained processInteraction w log ->
  chained processInteraction w
    (log ++ [(request, final w log,
              fst (processInteraction request (final w log)))]).
Proof.
  revert w. induction log as [|[[r before] after] rest IH]; intros w.
  - intros _. cbn. auto.
  - intros (-> & -> & Hrest). cbn [app chained]. split_and!; [done..|].
    replace (final w ((r, w, (processInteraction r w).1) :: rest))
      with (final (processInteraction r w).1 rest).
    + exact (IH _ Hrest).
    + unfold final. destruct rest as [|entry rest']; [reflexivity|].
      change (last ((r, w, (processInteraction r w).1) :: entry :: rest'))
        with (last (entry :: rest')).
      destruct (last (entry :: rest')) as [[[? ?] ?]|] eqn:Hlast; [reflexivity|].
      apply last_None in Hlast. discriminate.
Qed.

Lemma final_snoc (w : World) (log : list (InteractionRequest * World * World))
    (request : InteractionRequest) (before after : World) :
  final w (log ++ [(request, before, after)]) = after.
Proof. unfold final. rewrite last_snoc. reflexivity. Qed.

Lemma serial_startInteraction (w0 : World) (request : InteractionRequest)
    (s : state) :
  serial w0 s -> serial w0 (startInteraction request s).
Proof.
  intros [Hchain Hworld]. unfold InteractionManager.startInteraction.
  destruct (processInteraction request (world s)) as [world' outcome] eqn:Hrun.
  split; cbn [handled world].
  - replace world' with (fst (processInteraction request (world s)))
      by (rewrite Hrun; reflexivity).
    rewrite Hworld. apply chained_snoc, Hchain.
  - rewrite final_snoc. reflexivity.
Qed.

Lemma serial_step (w0 : World) (s : state) (e : event) :
  serial w0 s -> serial w0 (step s e).
Proof.
  intros Hs. destruct e as [request|]; cbn [InteractionManager.step].
  - unfold handleInteractionAsync.
    destruct (interactionQueues s !! posKeyOf request);
      [exact Hs|apply serial_startInteraction, Hs].
  - destruct (microtasks s) as [|[request|request posKey promise outcome] rest];
      [exact Hs| |exact Hs].
    apply serial_startInteraction. exact Hs.
Qed.

Lemma serial_run (w0 : World) (events : list event) (s : state) :
  serial w0 s -> serial w0 (run events s).
Proof.
  revert s. induction events as [|e events IH]; intros s Hs; [exact Hs|].
  cbn [InteractionManager.run fold_left]. apply IH, serial_step, Hs.
Qed.

(** ** Every map entry has its clean-up pending *)

Lemma tracked_startInteraction (request : InteractionRequest) (s : state)
    (pending : list (microtask Outcome)) :
  (forall posKey promise,
     interactionQueues s !! posKey = Some promise ->
     exists r outcome, AfterCurrent r posKey promise outcome ∈ pending) ->
  microtasks s = pending ->
  tracked (startInteraction request s).
Proof.
  intros Htracked Hpending. unfold InteractionManager.startInteraction.
  destruct (processInteraction request (world s)) as [world' outcome].
  intros posKey promise. cbn [interactionQueues microtasks].
  rewrite Hpending.
  destruct (decide (posKey = posKeyOf request)) as [->|Hother].
  - rewrite lookup_insert_eq. intros [= <-].
    exists request, outcome. apply elem_of_app. right. left.
  - rewrite lookup_insert_ne by congruence. intros Hentry.
    destruct (Htracked posKey promise Hentry) as (r & o & Hin).
    exists r, o. apply elem_of_app. left. exact Hin.
Qed.

Lemma tracked_step (s : state) (e : event) : tracked s -> tracked (step s e).
Proof.
  intros Hs. destruct e as [request|]; cbn [InteractionManager.step].
  - unfold handleInteractionAsync.
    destruct (interactionQueues s !! posKeyOf request) eqn:Hbusy.
    + intros posKey promise Hentry. cbn [interactionQueues microtasks] in *.
      destruct (Hs posKey promise Hentry) as (r & o & Hin).
      exists r, o. apply elem_of_app. left. exact Hin.
    + apply (tracked_startInteraction request s (microtasks s)); [exact Hs|reflexivity].
  - destruct (microtasks s) as [|[request|request posKey promise outcome] rest]
      eqn:Htasks; [exact Hs| |].
    + cbn [runMicrotask].
      apply (tracked_startInteraction request _ rest); [|reflexivity].
      cbn [interactionQueues]. intros posKey promise Hentry.
      destruct (Hs posKey promise Hentry) as (r & o & Hin).
      rewrite Htasks in Hin. apply elem_of_cons in Hin as [Hhead|Hin]; [discriminate|].
      exists r, o. exact Hin.
    + cbn [runMicrotask]. unfold finishInteraction.
      intros posKey' promise'. cbn [interactionQueues microtasks].
      intros Hentry.
      assert (Hbefore : interactionQueues s !! posKey' = Some promise'
                        /\ (posKey', promise') <> (posKey, promise)).
      { destruct (decide (interactionQueues s !! posKey = Some promise))
          as [Hlast|Hnewer].
        - destruct (decide (posKey' = posKey)) as [->|Hother].
          + rewrite lookup_delete_eq in Hentry. discriminate.
          + rewrite lookup_delete_ne in Hentry by congruence.
            split; [exact Hentry|congruence].
        - split; [exact Hentry|]. intros [= -> ->]. contradiction. }
      destruct Hbefore as [Hentry' Hdiffers].
      destruct (Hs posKey' promise' Hentry') as (r & o & Hin).
      rewrite Htasks in Hin. apply elem_of_cons in Hin as [Hhead|Hin].
      * injection Hhead as -> -> -> ->. contradiction.
      * exists r, o. exact Hin.
Qed.

Lemma tracked_run (events : list event) (s : state) :
  tracked s -> tracked (run events s).
Proof.
  revert s. induction events as [|e events IH]; intros s Hs; [exact Hs|].
  cbn [InteractionManager.run fold_left]. apply IH, tracked_step, Hs.
Qed.

Lemma tracked_drained (s : state) :
  tracked s -> microtasks s = [] -> interactionQueues s = ∅.
Proof.
  intros Hs Hnone. apply map_empty. intros posKey.
  destruct (interactionQueues s !! posKey) as [promise|] eqn:Hentry; [|reflexivity].
  destruct (Hs posKey promise Hentry) as (r & o & Hin).
  rewrite Hnone in Hin. apply elem_of_nil in Hin. contradiction.
Qed.

Lemma ticksLeft_tick (s : state) (t : microtask Outcome)
    (rest : list (microtask Outcome)) :
  microtasks s = t :: rest ->
  S (ticksLeft (microtasks (step s Tick))) = ticksLeft (microtasks s).
Proof.
  intros Htasks. cbn [InteractionManager.step]. rewrite Htasks.
  destruct t as [request|request posKey promise outcome]; cbn [runMicrotask].
  - unfold InteractionManager.startInteraction. cbn [world microtasks nextPromise].
    destruct (processInteraction request (world s)) as [world' outcome].
    cbn [microtasks]. unfold ticksLeft. rewrite sum_list_with_app. cbn. lia.
  - unfold finishInteraction. cbn [microtasks]. reflexivity.
Qed.

Lemma drain (n : nat) (s : state) :
  ticksLeft (microtasks s) = n ->
  microtasks (run (replicate n Tick) s) = [].
Proof.
  revert s. induction n as [|n IH]; intros s Hleft.
  - destruct (microtasks s) as [|[|] rest] eqn:Htasks;
      [exact Htasks|discriminate..].
  - destruct (microtasks s) as [|t rest] eqn:Htasks; [discriminate|].
    cbn [replicate InteractionManager.run fold_left]. apply IH.
    pose proof (ticksLeft_tick s t rest Htasks) as Htick.
    rewrite Htasks in Htick. lia.
Qed.

(** ** Single steps *)

Lemma startInteraction_unfold (request : InteractionRequest) (s : state) :
  startInteraction request s
  = mkInteractions (processInteraction request (world s)).1
      (<[posKeyOf request := nextPromise s]> (interactionQueues s))
      (processingCount s + 1)
      (S (nextPromise s))
      (microtasks s
         ++ [AfterCurrent request (posKeyOf request) (nextPromise s)
               (processInteraction request (world s)).2])
      (handled s
         ++ [(request, world s, (processInteraction request (world s)).1)])
      (returned s).
Proof.
  unfold InteractionManager.startInteraction.
  destruct (processInteraction request (world s)). reflexivity.
Qed.

Lemma call_free (request : InteractionRequest) (s : state) :
  interactionQueues s !! posKeyOf request = None ->
  step s (Call request) = startInteraction request s.
Proof.
  intros Hfree. cbn [InteractionManager.step]. unfold handleInteractionAsync.
  rewrite Hfree. reflexivity.
Qed.

Lemma call_busy (request : InteractionRequest) (s : state) (previous : nat) :
  interactionQueues s !! posKeyOf request = Some previous ->
  step s (Call request)
  = mkInteractions (world s) (interactionQueues s) (processingCount s)
      (nextPromise s) (microtasks s ++ [AfterPrevious request])
      (handled s) (returned s).
Proof.
  intros Hbusy. cbn [InteractionManager.step]. unfold handleInteractionAsync.
  rewrite Hbusy. reflexivity.
Qed.

Lemma ticks_idle (n : nat) (s : state) :
  microtasks s = [] -> run (replicate n Tick) s = s.
Proof.
  intros Hnone. induction n as [|n IH]; [reflexivity|].
  cbn [replicate InteractionManager.run fold_left InteractionManager.step].
  rewrite Hnone. exact IH.
Qed.

Lemma run_app (events later : list event) (s : state) :
  run (events ++ later) s = run later (run events s).
Proof. apply fold_left_app. Qed.

(** The clean-up of the last request of a coordinate. *)
Lemma tick_finish_last (w : World) (queue : gmap string nat) (count : Z)
    (next : nat) (request : InteractionRequest) (promise : nat)
    (outcome : Outcome) (rest : list (microtask Outcome))
    (log : list (InteractionRequest * World * World))
    (done : list (InteractionRequest * Outcome)) :
  step (mkInteractions w (<[posKeyOf request := promise]> queue) count next
          (AfterCurrent request (posKeyOf request) promise outcome :: rest)
          log done) Tick
  = mkInteractions w (delete (posKeyOf request) queue) (count - 1) next rest log
      (done ++ [(request, outcome)]).
Proof.
  cbn [InteractionManager.step microtasks runMicrotask].
  unfold finishInteraction.
  cbn [world interactionQueues processingCount nextPromise microtasks handled
       returned].
  rewrite decide_True by apply lookup_insert_eq.
  rewrite delete_insert_eq. reflexivity.
Qed.

Lemma tick_after_previous (w : World) (queue : gmap string nat) (count : Z)
    (next : nat) (request : InteractionRequest)
    (rest : list (microtask Outcome))
    (log : list (InteractionRequest * World * World))
    (done : list (InteractionRequest * Outcome)) :
  step (mkInteractions w queue count next (AfterPrevious request :: rest)
          log done) Tick
  = startInteraction request (mkInteractions w queue count next rest log done).
Proof. reflexivity. Qed.

Lemma tick_none (s : state) : microtasks s = [] -> step s Tick = s.
Proof. intros Hnone. cbn [InteractionManager.step]. rewrite Hnone. reflexivity. Qed.

Lemma run_cons (e : event) (events : list event) (s : state) :
  run (e :: events) s = run events (step s e).
Proof. reflexivity. Qed.

Lemma run_nil (s : state) : run [] s = s.
Proof. reflexivity. Qed.

Local Ltac fields :=
  cbn [world interactionQueues processingCount nextPromise microtasks handled
       returned app].

(** Two requests for one coordinate, the second arriving [n] microtasks
    after the first. *)
Lemma same_coordinate_pair (s0 : state) (r1 r2 : InteractionRequest) (n : nat) :
  posKeyOf r1 = posKeyOf r2 ->
  interactionQueues s0 !! posKeyOf r1 = None ->
  microtasks s0 = [] ->
  let w1 := (processInteraction r1 (world s0)).1 in
  let w2 := (processInteraction r2 w1).1 in
  let s := run (Call r1 :: replicate n Tick ++ [Call r2; Tick; Tick; Tick]) s0 in
  handled s = handled s0 ++ [(r1, world s0, w1); (r2, w1, w2)] /\
  returned s
    = returned s0 ++ [(r1, (processInteraction r1 (world s0)).2);
                      (r2, (processInteraction r2 w1).2)] /\
  world s = w2 /\
  interactionQueues s !! posKeyOf r1 = None /\
  microtasks s = [].
Proof.
  intros Hsame Hfree Hnone w1 w2 s. subst s.
  rewrite run_cons, (call_free r1 s0 Hfree), startInteraction_unfold, Hnone.
  fields. fold w1. rewrite run_app.
  destruct n as [|n].
  - (* the second call finds the coordinate busy *)
    cbn [replicate]. rewrite run_nil, run_cons.
    rewrite (call_busy r2 _ (nextPromise s0))
      by (fields; rewrite <- Hsame; apply lookup_insert_eq).
    fields.
    rewrite run_cons, tick_finish_last.
    rewrite run_cons, tick_after_previous, startInteraction_unfold.
    fields. fold w2.
    rewrite run_cons, tick_finish_last, run_nil.
    fields. rewrite <- !app_assoc, <- Hsame, lookup_delete_eq. auto.
  - (* the first request has settled before the second call *)
    cbn [replicate]. rewrite (run_cons Tick (replicate n Tick)), tick_finish_last.
    rewrite ticks_idle by reflexivity.
    rewrite run_cons, call_free
      by (fields; rewrite <- Hsame; apply lookup_delete_eq).
    rewrite startInteraction_unfold.
    fields. fold w2.
    rewrite run_cons, tick_finish_last.
    rewrite run_cons, tick_none by reflexivity.
    rewrite run_cons, tick_none by reflexivity.
    rewrite run_nil.
    fields. rewrite <- !app_assoc, <- Hsame, lookup_delete_eq. auto.
Qed.

(** ** The queue map and the calls that have not returned *)

Lemma promises_app (tasks tasks' : list (microtask Outcome)) :
  promises (tasks ++ tasks') = promises tasks ++ promises tasks'.
Proof. apply omap_app. Qed.

Lemma holders_app (key : string) (tasks tasks' : list (microtask Outcome)) :
  holders key (tasks ++ tasks') = holders key tasks ++ holders key tasks'.
Proof. apply omap_app. Qed.

Lemma elem_of_promises (tasks : list (microtask Outcome)) (promise : nat) :
  promise ∈ promises tasks <->
  exists request key outcome, AfterCurrent request key promise outcome ∈ tasks.
Proof.
  unfold promises. rewrite list_elem_of_omap. split.
  - intros ([request|request key p outcome] & Hin & Ht); [discriminate|].
    injection Ht as ->. eauto.
  - intros (request & key & outcome & Hin). eexists. split; [exact Hin|reflexivity].
Qed.

Lemma elem_of_holders (key : string) (tasks : list (microtask Outcome))
    (promise : nat) :
  promise ∈ holders key tasks <->
  exists request outcome, AfterCurrent request key promise outcome ∈ tasks.
Proof.
  unfold holders. rewrite list_elem_of_omap. split.
  - intros ([request|request key' p outcome] & Hin & Ht); [discriminate|].
    destruct (decide (key' = key)) as [->|]; [|discriminate].
    injection Ht as ->. eauto.
  - intros (request & outcome & Hin). eexists. split; [exact Hin|].
    cbn. rewrite decide_True by reflexivity. reflexivity.
Qed.

Lemma elem_of_awaited (tasks : list (microtask Outcome))
    (request : InteractionRequest) (outcome : Outcome) :
  (request, outcome) ∈ awaited tasks <->
  exists key promise, AfterCurrent request key promise outcome ∈ tasks.
Proof.
  unfold awaited. rewrite list_elem_of_omap. split.
  - intros ([r|r key p o] & Hin & Ht); [discriminate|].
    injection Ht as -> ->. eauto.
  - intros (key & promise & Hin). eexists. split; [exact Hin|reflexivity].
Qed.

Lemma held_init (w : World) : held (init w : state).
Proof.
  split_and!; cbn.
  - intros request key promise outcome Hin. apply elem_of_nil in Hin. contradiction.
  - constructor.
  - intros key. apply lookup_empty.
Qed.

(** Parking a call, or taking a parked call off the queue, changes nothing
    for the calls that await their own result. *)
Lemma held_tasks (s : state) (tasks : list (microtask Outcome)) :
  held s ->
  (forall request key promise outcome,
     AfterCurrent request key promise outcome ∈ tasks <->
     AfterCurrent request key promise outcome ∈ microtasks s) ->
  promises tasks = promises (microtasks s) ->
  (forall key, holders key tasks = holders key (microtasks s)) ->
  held (mkInteractions (world s) (interactionQueues s) (processingCount s)
          (nextPromise s) tasks (handled s) (returned s)).
Proof.
  intros (Hkeys & Hnodup & Hlast) Hsame Hpromises Hholders.
  split_and!; cbn [microtasks nextPromise interactionQueues].
  - intros request key promise outcome Hin. apply Hsame in Hin.
    exact (Hkeys _ _ _ _ Hin).
  - rewrite Hpromises. exact Hnodup.
  - intros key. rewrite Hholders. apply Hlast.
Qed.

Lemma held_startInteraction (request : InteractionRequest) (s : state) :
  held s -> held (startInteraction request s).
Proof.
  intros (Hkeys & Hnodup & Hlast). rewrite startInteraction_unfold.
  split_and!; cbn [microtasks nextPromise interactionQueues].
  - intros r key promise outcome Hin.
    apply elem_of_app in Hin as [Hin|Hin].
    + destruct (Hkeys _ _ _ _ Hin) as [-> Hlt]. split; [reflexivity|lia].
    + apply list_elem_of_singleton in Hin. injection Hin as -> -> -> ->.
      split; [reflexivity|lia].
  - rewrite promises_app. apply NoDup_app. split; [exact Hnodup|].
    split; [|apply NoDup_singleton].
    intros promise Hin. apply elem_of_promises in Hin as (r & key & o & Hin).
    destruct (Hkeys _ _ _ _ Hin) as [_ Hlt].
    cbn. rewrite list_elem_of_singleton. lia.
  - intros key. rewrite holders_app. cbn [holders omap list_omap].
    destruct (decide (posKeyOf request = key)) as [<-|Hother].
    + rewrite lookup_insert_eq. cbn. rewrite last_snoc. reflexivity.
    + rewrite lookup_insert_ne by exact Hother. cbn.
      rewrite app_nil_r. apply Hlast.
Qed.

Lemma held_finishInteraction (s : state) (request : InteractionRequest)
    (key : string) (promise : nat) (outcome : Outcome)
    (rest : list (microtask Outcome)) :
  held s ->
  microtasks s = AfterCurrent request key promise outcome :: rest ->
  held (finishInteraction request key promise outcome
          (mkInteractions (world s) (interactionQueues s) (processingCount s)
             (nextPromise s) rest (handled s) (returned s))).
Proof.
  intros (Hkeys & Hnodup & Hlast) Htasks. rewrite Htasks in Hkeys, Hnodup, Hlast.
  cbn [promises omap list_omap] in Hnodup. apply NoDup_cons in Hnodup as [Hfresh Hnodup].
  unfold finishInteraction.
  split_and!; cbn [microtasks nextPromise interactionQueues].
  - intros r k p o Hin. apply (Hkeys r k p o). right. exact Hin.
  - exact Hnodup.
  - intros key'. specialize (Hlast key'). cbn [holders omap list_omap] in Hlast.
    destruct (decide (key = key')) as [<-|Hother].
    + fold (holders key rest) in Hlast.
      destruct (holders key rest) as [|h hs] eqn:Hholders.
      * cbn in Hlast. rewrite decide_True by exact Hlast.
        apply lookup_delete_eq.
      * assert (Hnewer : interactionQueues s !! key <> Some promise).
        { rewrite Hlast. change (option_list (Some promise) ++ h :: hs)
            with (promise :: h :: hs).
          rewrite last_cons_cons. intros Hp.
          apply last_Some_elem_of in Hp. rewrite <- Hholders in Hp.
          apply elem_of_holders in Hp as (r & o & Hin).
          apply Hfresh, elem_of_promises. eauto. }
        rewrite decide_False by exact Hnewer.
        rewrite Hlast. apply last_cons_cons.
    + fold (holders key' rest) in Hlast. cbn in Hlast.
      destruct (decide (interactionQueues s !! key = Some promise)).
      * rewrite lookup_delete_ne by exact Hother. exact Hlast.
      * exact Hlast.
Qed.

Lemma held_step (s : state) (e : event) : held s -> held (step s e).
Proof.
  intros Hs. destruct e as [request|]; cbn [InteractionManager.step].
  - unfold handleInteractionAsync.
    destruct (interactionQueues s !! posKeyOf request);
      [|apply held_startInteraction, Hs].
    apply held_tasks; [exact Hs| | |].
    + intros r key promise outcome. rewrite elem_of_app, list_elem_of_singleton.
      split; [intros [?|?]; [assumption|discriminate]|auto].
    + rewrite promises_app. apply app_nil_r.
    + intros key. rewrite holders_app. apply app_nil_r.
  - destruct (microtasks s) as [|[request|request key promise outcome] rest]
      eqn:Htasks; [exact Hs| |].
    + cbn [runMicrotask]. apply held_startInteraction.
      apply held_tasks; [exact Hs| | |]; rewrite Htasks.
      * intros r key promise outcome. rewrite elem_of_cons.
        split; [auto|intros [?|?]; [discriminate|assumption]].
      * reflexivity.
      * reflexivity.
    + cbn [runMicrotask]. apply held_finishInteraction; assumption.
Qed.

Lemma held_run (events : list event) (s : state) :
  held s -> held (run events s).
Proof.
  revert s. induction events as [|e events IH]; intros s Hs; [exact Hs|].
  cbn [InteractionManager.run fold_left]. apply IH, held_step, Hs.
Qed.

(** The queue map has an entry for a coordinate exactly while the
    coordinate is busy. *)
Lemma held_busy (s : state) (pos : WorldManager.Position2D) :
  held s ->
  is_Some (interactionQueues s !! WorldManager.posKey pos)
  <-> busy (microtasks s) pos.
Proof.
  intros (Hkeys & _ & Hlast). rewrite Hlast. split.
  - intros [promise Hp]. apply last_Some_elem_of in Hp.
    apply elem_of_holders in Hp as (request & outcome & Hin).
    destruct (Hkeys _ _ _ _ Hin) as [Hkey _].
    exists request, outcome. split; [apply elem_of_awaited; eauto|].
    apply WorldManagerProps.posKey_inj. symmetry. exact Hkey.
  - intros (request & outcome & Hin & <-).
    apply elem_of_awaited in Hin as (key & promise & Hin).
    destruct (Hkeys _ _ _ _ Hin) as [-> _].
    assert (Hholder : promise ∈ holders (posKeyOf request) (microtasks s))
      by (apply elem_of_holders; eauto).
    unfold posKeyOf in *.
    destruct (holders (WorldManager.posKey (target request)) (microtasks s))
      as [|h hs] using rev_ind; [apply elem_of_nil in Hholder; contradiction|].
    rewrite last_snoc. eauto.
Qed.

(** ** The log of the calls that have not returned *)

Local Abbreviation logged := (logged processInteraction).

Lemma logged_tasks (s : state) (tasks : list (microtask Outcome))
    (done : list (InteractionRequest * Outcome)) :
  logged s ->
  (forall entry, entry ∈ awaited tasks -> entry ∈ awaited (microtasks s)) ->
  logged (mkInteractions (world s) (interactionQueues s) (processingCount s)
            (nextPromise s) tasks (handled s) done).
Proof.
  intros Hs Hsub request outcome Hin. cbn [microtasks handled] in *.
  exact (Hs request outcome (Hsub _ Hin)).
Qed.

Lemma logged_startInteraction (request : InteractionRequest) (s : state) :
  logged s -> logged (startInteraction request s).
Proof.
  intros Hs r o. rewrite startInteraction_unfold. cbn [microtasks handled].
  unfold awaited. rewrite omap_app. cbn [omap list_omap].
  rewrite elem_of_app, list_elem_of_singleton. intros [Hin|Hin].
  - destruct (Hs r o Hin) as (before & Hrun & Ho).
    exists before. split; [apply elem_of_app; left; exact Hrun|exact Ho].
  - injection Hin as -> ->. exists (world s).
    split; [apply elem_of_app; right; left|reflexivity].
Qed.

Lemma logged_step (s : state) (e : event) : logged s -> logged (step s e).
Proof.
  intros Hs. destruct e as [request|]; cbn [InteractionManager.step].
  - unfold handleInteractionAsync.
    destruct (interactionQueues s !! posKeyOf request);
      [|apply logged_startInteraction, Hs].
    apply logged_tasks; [exact Hs|].
    intros entry. unfold awaited. rewrite omap_app. cbn [omap list_omap].
    rewrite app_nil_r. trivial.
  - destruct (microtasks s) as [|[request|request key promise outcome] rest]
      eqn:Htasks; [exact Hs| |].
    + cbn [runMicrotask]. apply logged_startInteraction.
      apply logged_tasks; [exact Hs|]. rewrite Htasks. trivial.
    + cbn [runMicrotask]. unfold finishInteraction.
      cbn [world interactionQueues processingCount nextPromise microtasks
           handled returned].
      intros r o Hin. cbn [microtasks handled] in *.
      apply (Hs r o). rewrite Htasks. cbn [awaited omap list_omap].
      right. exact Hin.
Qed.

Lemma logged_run (events : list event) (s : state) :
  logged s -> logged (run events s).
Proof.
  revert s. induction events as [|e events IH]; intros s Hs; [exact Hs|].
  cbn [InteractionManager.run fold_left]. apply IH, logged_step, Hs.
Qed.

Lemma handled_step (s : state) (e : event) :
  handled s `prefix_of` handled (step s e).
Proof.
  destruct e as [request|]; cbn [InteractionManager.step].
  - unfold handleInteractionAsync.
    destruct (interactionQueues s !! posKeyOf request); [reflexivity|].
    rewrite startInteraction_unfold. apply prefix_app_r. reflexivity.
  - destruct (microtasks s) as [|[request|request key promise outcome] rest];
      [reflexivity| |reflexivity].
    cbn [runMicrotask]. rewrite startInteraction_unfold.
    apply prefix_app_r. reflexivity.
Qed.

Lemma handled_run (events : list event) (s : state) :
  handled s `prefix_of` handled (run events s).
Proof.
  revert s. induction events as [|e events IH]; intros s; [reflexivity|].
  cbn [InteractionManager.run fold_left].
  etransitivity; [apply handled_step|apply IH].
Qed.

(** ** The microtasks run in the order they were queued *)

Lemma start_appends (s : state) (request : InteractionRequest) :
  exists t,
    microtasks (startInteraction request s) = microtasks s ++ [t] /\
    returned (startInteraction request s) = returned s.
Proof. rewrite startInteraction_unfold. eexists. split; reflexivity. Qed.

Lemma call_appends (s : state) (request : InteractionRequest) :
  exists t,
    microtasks (step s (Call request)) = microtasks s ++ [t] /\
    returned (step s (Call request)) = returned s.
Proof.
  cbn [InteractionManager.step]. unfold handleInteractionAsync.
  destruct (interactionQueues s !! posKeyOf request).
  - eexists. split; reflexivity.
  - rewrite startInteraction_unfold. eexists. split; reflexivity.
Qed.

Lemma run_fifo (later : list event) (s : state) :
  (ticks later <= length (microtasks s))%nat ->
  exists added,
    microtasks (run later s) = drop (ticks later) (microtasks s) ++ added /\
    returned (run later s)
    = returned s ++ awaited (take (ticks later) (microtasks s)).
Proof.
  revert s. induction later as [|[request|] later IH]; intros s Hticks.
  - exists []. cbn. rewrite !app_nil_r. split; reflexivity.
  - cbn [ticks] in *. rewrite run_cons.
    destruct (call_appends s request) as (t & Htasks & Hreturned).
    destruct (IH (step s (Call request))) as (added & Hqueue & Hdone).
    { rewrite Htasks, length_app. lia. }
    rewrite Htasks in Hqueue, Hdone. rewrite Hreturned in Hdone.
    rewrite drop_app_le in Hqueue by exact Hticks.
    rewrite take_app_le in Hdone by exact Hticks.
    exists (t :: added). rewrite Hqueue, <- app_assoc. split; [reflexivity|exact Hdone].
  - cbn [ticks] in *. rewrite run_cons.
    destruct (microtasks s) as [|t rest] eqn:Htasks; [cbn in Hticks; lia|].
    cbn [length] in Hticks. cbn [InteractionManager.step]. rewrite Htasks.
    destruct t as [request|request key promise outcome]; cbn [runMicrotask].
    + set (s1 := mkInteractions (world s) (interactionQueues s)
                   (processingCount s) (nextPromise s) rest (handled s)
                   (returned s)).
      destruct (start_appends s1 request) as (t & Htasks1 & Hreturned1).
      destruct (IH (startInteraction request s1)) as (added & Hqueue & Hdone).
      { rewrite Htasks1, length_app. cbn [s1 microtasks]. lia. }
      rewrite Htasks1 in Hqueue, Hdone. rewrite Hreturned1 in Hdone.
      cbn [s1 microtasks returned] in Hqueue, Hdone.
      rewrite drop_app_le in Hqueue by lia.
      rewrite take_app_le in Hdone by lia.
      exists (t :: added). rewrite Hqueue, <- app_assoc.
      split; [reflexivity|exact Hdone].
    + destruct (IH (finishInteraction request key promise outcome
                      (mkInteractions (world s) (interactionQueues s)
                         (processingCount s) (nextPromise s) rest (handled s)
                         (returned s)))) as (added & Hqueue & Hdone).
      { cbn [finishInteraction microtasks]. lia. }
      cbn [finishInteraction microtasks returned] in Hqueue, Hdone.
      exists added. split; [exact Hqueue|].
      rewrite Hdone, <- app_assoc. reflexivity.
Qed.

(** C2.  Whatever the handler is and whatever it settles with, in every
    state that a schedule of calls and microtasks leads to:
    - the handler runs so far form one chain, each on the world the run
      before it left, so no two of them have seen the same world;
    - the queue map has an entry for a coordinate exactly while a call for
      that coordinate has run its handler and has not returned, so the
      entry goes when the last such call returns;
    - a call for a busy coordinate runs no handler.  A call for the same
      coordinate has finished its handler before, and is about to return.
      The new call is parked behind every microtask that is pending and
      stays parked until those have run; by then the other call has
      returned, and the next microtask runs the handler of the parked call,
      on the world of that moment and at the end of the same log;
    - a call for a coordinate that is not busy runs its handler at once,
      whatever other coordinates are busy and whoever is parked;
    - two calls for one coordinate, the second any number of microtasks
      after the first and nothing else pending, run their handlers one
      after the other, the second on the world the first left, and leave
      the queue map empty;
    - once the pending microtasks have run, the queue map is empty. *)
Theorem handleInteractionAsync_serializes (w0 : World) (events : list event) :
  let s := run events (init w0) in
  serial w0 s /\
  (forall pos,
     is_Some (interactionQueues s !! WorldManager.posKey pos)
     <-> busy (microtasks s) pos) /\
  (forall request,
     busy (microtasks s) (target request) ->
     exists first before,
       target first = target request /\
       (first, before, (processInteraction first before).1) ∈ handled s /\
       let s' := step s (Call request) in
       handled s' = handled s /\ world s' = world s /\
       forall later,
         (ticks later <= length (microtasks s))%nat ->
         let s1 := run later s' in
         handled s `prefix_of` handled s1 /\
         (exists added,
            microtasks s1
            = drop (ticks later) (microtasks s)
              ++ AfterPrevious request :: added /\
            returned s1
            = returned s ++ awaited (take (ticks later) (microtasks s))) /\
         (ticks later = length (microtasks s) ->
          (first, (processInteraction first before).2) ∈ returned s1 /\
          handled (step s1 Tick)
          = handled s1
            ++ [(request, world s1,
                 (processInteraction request (world s1)).1)])) /\
  (forall request,
     ~ busy (microtasks s) (target request) ->
     handled (step s (Call request))
     = handled s
       ++ [(request, world s, (processInteraction request (world s)).1)]) /\
  (forall (r1 r2 : InteractionRequest) (n : nat),
     target r1 = target r2 -> microtasks s = [] ->
     let w1 := (processInteraction r1 (world s)).1 in
     let w2 := (processInteraction r2 w1).1 in
     let s2 :=
       run (Call r1 :: replicate n Tick ++ [Call r2; Tick; Tick; Tick]) s in
     handled s2 = handled s ++ [(r1, world s, w1); (r2, w1, w2)] /\
     world s2 = w2 /\ interactionQueues s2 = ∅ /\ microtasks s2 = []) /\
  (let s' := run (replicate (ticksLeft (microtasks s)) Tick) s in
   microtasks s' = [] /\ interactionQueues s' = ∅).
Proof.
  intros s.
  assert (Hheld : held s) by apply held_run, held_init.
  assert (Hlogged : logged s).
  { apply logged_run. intros request outcome Hin.
    apply elem_of_nil in Hin. contradiction. }
  assert (Htracked : tracked s).
  { apply tracked_run. intros posKey promise Hentry.
    cbn in Hentry. rewrite lookup_empty in Hentry. discriminate. }
  split_and!.
  - apply serial_run. split; reflexivity.
  - intros pos. apply held_busy, Hheld.
  - intros request Hbusy.
    pose proof Hbusy as (first & outcome & Hfirst & Htarget).
    destruct (Hlogged first outcome Hfirst) as (before & Hrun & ->).
    exists first, before. split; [exact Htarget|]. split; [exact Hrun|].
    apply (held_busy s (target request) Hheld) in Hbusy as [previous Hbusy].
    fold (posKeyOf request) in Hbusy. cbv zeta.
    rewrite (call_busy request s previous Hbusy).
    split; [reflexivity|]. split; [reflexivity|].
    intros later Hticks.
    match goal with
    | |- context [run later ?parked] =>
        pose proof (handled_run later parked) as Hprefix;
        destruct (run_fifo later parked) as (added & Hqueue & Hdone);
        [cbn [microtasks]; rewrite length_app; lia|];
        set (s1 := run later parked) in *
    end.
    cbn [microtasks returned handled] in Hprefix, Hqueue, Hdone.
    rewrite drop_app_le, <- app_assoc in Hqueue by exact Hticks.
    rewrite take_app_le in Hdone by exact Hticks.
    split; [exact Hprefix|]. split; [exists added; split; assumption|].
    intros Hturn. split.
    + rewrite Hdone, Hturn, firstn_all. apply elem_of_app. right. exact Hfirst.
    + rewrite Hturn, drop_all in Hqueue.
      cbn [InteractionManager.step]. rewrite Hqueue. cbn [app runMicrotask].
      rewrite startInteraction_unfold. reflexivity.
  - intros request Hfree.
    assert (Hnone : interactionQueues s !! posKeyOf request = None).
    { destruct (interactionQueues s !! posKeyOf request) as [p|] eqn:Hentry;
        [|reflexivity].
      exfalso. apply Hfree, (held_busy s (target request) Hheld).
      unfold posKeyOf in Hentry. rewrite Hentry. eauto. }
    rewrite (call_free request s Hnone), startInteraction_unfold. reflexivity.
  - intros r1 r2 n Hsame Hnone.
    assert (Hempty : interactionQueues s = ∅)
      by (apply tracked_drained; assumption).
    destruct (same_coordinate_pair s r1 r2 n) as (Hhandled & _ & Hworld & _ & Htasks).
    + unfold posKeyOf. rewrite Hsame. reflexivity.
    + rewrite Hempty. apply lookup_empty.
    + exact Hnone.
    + cbv zeta. split_and!; [exact Hhandled|exact Hworld| |exact Htasks].
      apply tracked_drained; [|exact Htasks].
      apply tracked_run, Htracked.
  - cbv zeta.
    assert (Hdrained :
      microtasks (run (replicate (ticksLeft (microtasks s)) Tick) s) = [])
      by (apply drain; reflexivity).
    split; [exact Hdrained|].
    apply tracked_drained; [|exact Hdrained].
    apply tracked_run, Htracked.
Qed.

End Serializer.

(** Two players chop the tree of the sample world and a third one goes for
    the wall beside it, all called back to back.  The second chop is parked
    and finds durability 2 when its turn comes; the call for the wall does
    not wait for it; the entries are gone at the end. *)
Lemma handleInteractionAsync_serializes_witness :
  let first := mkRequest "p1" CHOP (WorldManager.mkPos 1 1) None in
  let second := mkRequest "p2" CHOP (WorldManager.mkPos 1 1) None in
  let other := mkRequest "p3" CHOP (WorldManager.mkPos 2 1) None in
  let handler := chop "2026-01-01T00:00:00.000Z" in
  let s := run handler [Call first] (init WorldManager.sampleWorld) in
  let w1 := (handler first WorldManager.sampleWorld).1 in
  busy (microtasks s) (WorldManager.mkPos 1 1) /\
  handled (step handler s (Call second)) = handled s /\
  handled (step handler (step handler s (Call second)) (Call other))
  = [(first, WorldManager.sampleWorld, w1); (other, w1, w1)] /\
  (let s2 := run handler [Call first; Call second; Tick; Tick; Tick]
                 (init WorldManager.sampleWorld) in
   handled s2
   = [(first, WorldManager.sampleWorld, w1); (second, w1, (handler second w1).1)] /\
   interactionQueues s2 = ∅) /\
  (WorldManager.state (WorldManager.getTile w1 (WorldManager.mkPos 1 1))
     ≫= WorldManager.durability) = Some 2.
Proof.
  intros first second other handler s w1.
  assert (Hbusy : busy (microtasks s) (target second)).
  { exists first, (handler first WorldManager.sampleWorld).2.
    split; [|reflexivity]. apply elem_of_awaited.
    exists (posKeyOf first), 0%nat. left. }
  destruct (handleInteractionAsync_serializes handler
              WorldManager.sampleWorld [Call first])
    as (_ & _ & Hparked & _).
  destruct (Hparked second Hbusy) as (_ & _ & _ & _ & Hhandled & _).
  split; [exact Hbusy|]. split; [exact Hhandled|]. split; [|split].
  - destruct (handleInteractionAsync_serializes handler
                WorldManager.sampleWorld [Call first; Call second])
      as (_ & _ & _ & Hfree & _).
    etransitivity; [apply (Hfree other)|vm_compute; reflexivity].
    intros (request & outcome & Hin & Htarget).
    apply elem_of_awaited in Hin as (key & promise & Hin).
    vm_compute in Hin.
    apply elem_of_cons in Hin as [Hin|Hin].
    + injection Hin as -> _ _ _. discriminate.
    + apply elem_of_cons in Hin as [Hin|Hin]; [discriminate|].
      apply elem_of_nil in Hin. contradiction.
  - destruct (handleInteractionAsync_serializes handler
                WorldManager.sampleWorld [])
      as (_ & _ & _ & _ & Hpair & _).
    destruct (Hpair first second 0%nat eq_refl eq_refl)
      as (Hlog & _ & Hqueue & _).
    split; [exact Hlog|exact Hqueue].
  - vm_compute. reflexivity.
Defined.

(** Calls for one coordinate are not served in the order of their arrival.
    The first of three chops has returned and the second is parked when the
    third is called: the coordinate is not busy, so the third runs its
    handler at once, ahead of the second. *)
Example later_call_overtakes :
  let first := mkRequest "p1" CHOP (WorldManager.mkPos 1 1) None in
  let second := mkRequest "p2" CHOP (WorldManager.mkPos 1 1) None in
  let third := mkRequest "p3" CHOP (WorldManager.mkPos 1 1) None in
  let handler := chop "2026-01-01T00:00:00.000Z" in
  let s := run handler
             [Call first; Call second; Tick; Call third; Tick; Tick; Tick]
             (init WorldManager.sampleWorld) in
  (fun entry => playerId entry.1.1) <$> handled s = ["p1"; "p3"; "p2"] /\
  microtasks s = [].
Proof. vm_compute. split; reflexivity. Qed.

End InteractionManagerProps.

(** * Properties of the code around the claims *)

Module ClockProps.
Import TimeManager.

Ltac Zify.zify_post_hook ::= Z.to_euclidean_division_equations.

Lemma resolvePeriod_any (tick : Z) :
  resolvePeriod tick =
    let n := tick mod ticksPerDay in
    if n <? 60 then Dawn else if n <? 120 then Day
    else if n <? 180 then Dusk else Night.
Proof.
  unfold resolvePeriod, ticksPerDay. cbv zeta.
  replace (Z.rem (Z.rem tick 240 + 240) 240) with (tick mod 240).
  - reflexivity.
  - pose proof (Z.rem_bound_abs tick 240).
    pose proof (Z.rem_opp_l tick 240).
    lia.
Qed.

(** X1.  The day-phase of any integer tick, negative ones included, is the
    quarter of the day that [tick mod ticksPerDay] lies in, so it repeats
    every [ticksPerDay] ticks in both directions. *)
Theorem resolvePeriod_periodic (tick k : Z) :
  resolvePeriod (tick + k * ticksPerDay) = resolvePeriod tick /\
  resolvePeriod tick = resolvePeriod (tick mod ticksPerDay) /\
  (resolvePeriod tick = Dawn <-> 0 <= tick mod ticksPerDay < 60) /\
  (resolvePeriod tick = Day <-> 60 <= tick mod ticksPerDay < 120) /\
  (resolvePeriod tick = Dusk <-> 120 <= tick mod ticksPerDay < 180) /\
  (resolvePeriod tick = Night <-> 180 <= tick mod ticksPerDay < 240).
Proof.
  rewrite !resolvePeriod_any. cbv zeta.
  rewrite Z.mod_add by discriminate. rewrite Z.mod_mod by discriminate.
  pose proof (Z.mod_pos_bound tick ticksPerDay eq_refl) as Hn.
  unfold ticksPerDay in *.
  split; [reflexivity|]. split; [reflexivity|].
  repeat (match goal with
          | |- context [?a <? ?b] => destruct (Z.ltb_spec a b)
          end);
    repeat split; intros; try discriminate; try reflexivity; lia.
Qed.

Section Advance.
Context {num : Type} `{Number num}.

Lemma applyTickAdvance_tick (delta : Z) (c : state num) :
  tick (applyTickAdvance delta c) = tick c + Z.max 0 delta.
Proof.
  unfold applyTickAdvance. destruct (Z.leb_spec delta 0); cbn [tick]; lia.
Qed.

Lemma applyTickAdvance_rates (delta : Z) (c : state num) :
  tickIntervalMs (applyTickAdvance delta c) = tickIntervalMs c /\
  speedMultiplier (applyTickAdvance delta c) = speedMultiplier c /\
  lastUpdatedAt (applyTickAdvance delta c) = lastUpdatedAt c.
Proof. unfold applyTickAdvance. destruct (delta <=? 0); repeat split. Qed.

Lemma applyTickAdvance_phase (delta : Z) (c : state num) :
  timeOfDay c = resolvePeriod (tick c) ->
  timeOfDay (applyTickAdvance delta c)
  = resolvePeriod (tick (applyTickAdvance delta c)).
Proof.
  unfold applyTickAdvance. destruct (delta <=? 0); [trivial|reflexivity].
Qed.

Lemma applyTickAdvance_notified (delta : Z) (c : state num) :
  let c' := applyTickAdvance delta c in
  notified c' = if decide (timeOfDay c' = timeOfDay c) then notified c
                else notified c ++ [timeOfDay c'].
Proof.
  unfold applyTickAdvance. destruct (delta <=? 0); cbn.
  - destruct (decide (timeOfDay c = timeOfDay c)); [reflexivity|contradiction].
  - reflexivity.
Qed.

(** A call of [advance] returns early, or moves [lastUpdatedAt] and hands
    over to [applyTickAdvance]. *)
Lemma advance_cases (forceTicks : option Z) (now : num) (c : state num) :
  advance forceTicks now c = c \/
  exists delta t,
    advance forceTicks now c = applyTickAdvance delta (set_lastUpdatedAt t c).
Proof.
  unfold advance. destruct forceTicks as [ticksToAdvance|].
  - right. eauto.
  - destruct (num_leb _ _); [left; reflexivity|].
    destruct (_ <=? 0); [left; reflexivity|right; eauto].
Qed.

Lemma advance_tick_le (forceTicks : option Z) (now : num) (c : state num) :
  tick c <= tick (advance forceTicks now c).
Proof.
  destruct (advance_cases forceTicks now c) as [->|(delta & t & ->)]; [lia|].
  rewrite applyTickAdvance_tick. cbn [tick set_lastUpdatedAt]. lia.
Qed.

Lemma advance_rates (forceTicks : option Z) (now : num) (c : state num) :
  tickIntervalMs (advance forceTicks now c) = tickIntervalMs c /\
  speedMultiplier (advance forceTicks now c) = speedMultiplier c.
Proof.
  destruct (advance_cases forceTicks now c) as [->|(delta & t & ->)];
    [split; reflexivity|].
  destruct (applyTickAdvance_rates delta (set_lastUpdatedAt t c)) as (-> & -> & _).
  split; reflexivity.
Qed.

Lemma advance_phase (forceTicks : option Z) (now : num) (c : state num) :
  timeOfDay c = resolvePeriod (tick c) ->
  timeOfDay (advance forceTicks now c)
  = resolvePeriod (tick (advance forceTicks now c)).
Proof.
  intros Hc.
  destruct (advance_cases forceTicks now c) as [->|(delta & t & ->)];
    [exact Hc|].
  apply applyTickAdvance_phase. exact Hc.
Qed.

Lemma driven_advance_apply (deltaTime : num) (c : state num) :
  Driven.advance true deltaTime c
  = applyTickAdvance
      (num_floor (num_div (num_mul deltaTime (speedMultiplier c))
                          (tickIntervalMs c))) c.
Proof.
  unfold Driven.advance, applyTickAdvance. cbn [negb].
  destruct (_ <=? 0); reflexivity.
Qed.


(** X3.  A clock whose day-phase agrees with its tick keeps it that way
    under every sequence of [advance] calls: [getTimeOfDay()] is always
    the phase [resolvePeriod] gives for [getCurrentTime()].  The clock the
    constructor builds without a snapshot starts in agreement. *)
Theorem advance_all_phase_in_step (calls : list (option Z * num))
    (c : state num) :
  timeOfDay c = resolvePeriod (tick c) ->
  timeOfDay (advance_all calls c) = resolvePeriod (tick (advance_all calls c)).
Proof.
  revert c. induction calls as [|[forceTicks now] rest IH]; intros c Hc.
  - exact Hc.
  - cbn [advance_all fold_left fst snd]. apply IH, advance_phase, Hc.
Qed.

(** X4.  One call of [advance] calls the listeners at most once: not at all
    when the day-phase after the call is the phase before it, and once, with
    the new phase, when it differs, however many phase boundaries the jump
    crosses.  In particular a forced jump by a whole number of days calls
    nobody. *)
Theorem advance_notifies_on_change (forceTicks : option Z) (now : num)
    (c : state num) :
  let c' := advance forceTicks now c in
  notified c' = (if decide (timeOfDay c' = timeOfDay c) then notified c
                 else notified c ++ [timeOfDay c']) /\
  (forall days : Z,
     0 < days -> timeOfDay c = resolvePeriod (tick c) ->
     forceTicks = Some (days * ticksPerDay) ->
     tick c' = tick c + days * ticksPerDay /\
     timeOfDay c' = timeOfDay c /\ notified c' = notified c).
Proof.
  cbv zeta. split.
  - destruct (advance_cases forceTicks now c) as [->|(delta & t & ->)].
    + destruct (decide (timeOfDay c = timeOfDay c)); [reflexivity|contradiction].
    + apply (applyTickAdvance_notified delta (set_lastUpdatedAt t c)).
  - intros days Hdays Hc ->. unfold advance, applyTickAdvance.
    destruct (Z.leb_spec (days * ticksPerDay) 0) as [Hle|_];
      [unfold ticksPerDay in Hle; lia|].
    cbn [tick timeOfDay notified set_lastUpdatedAt].
    assert (Hsame : resolvePeriod (tick c + days * ticksPerDay) = timeOfDay c).
    { rewrite Hc. apply resolvePeriod_periodic. }
    rewrite Hsame.
    destruct (decide (timeOfDay c = timeOfDay c)); [|contradiction].
    repeat split.
Qed.

Lemma counted_each_rates (c c' : state num) (deltas : list num) :
  speedMultiplier c' = speedMultiplier c ->
  tickIntervalMs c' = tickIntervalMs c ->
  counted_each c' deltas = counted_each c deltas.
Proof.
  intros Hs Hi. unfold counted_each. f_equal. apply list_fmap_ext.
  intros i d _. unfold counted. rewrite Hs, Hi. reflexivity.
Qed.

Lemma driven_each_counted (deltas : list num) (c : state num) :
  tick (driven_each deltas c) = tick c + counted_each c deltas /\
  lastUpdatedAt (driven_each deltas c) = lastUpdatedAt c.
Proof.
  revert c. induction deltas as [|d rest IH]; intros c.
  - cbn. split; [lia|reflexivity].
  - cbn [driven_each fold_left]. rewrite driven_advance_apply.
    set (t := num_floor (num_div (num_mul d (speedMultiplier c))
                                 (tickIntervalMs c))).
    destruct (applyTickAdvance_rates t c) as (HI' & Hs' & Hlast).
    destruct (IH (applyTickAdvance t c)) as [Htick Hkept].
    unfold driven_each in *. rewrite Htick, Hkept, Hlast.
    rewrite (counted_each_rates c (applyTickAdvance t c) rest Hs' HI').
    rewrite applyTickAdvance_tick.
    unfold counted_each. cbn [fmap list_fmap fold_right].
    unfold counted at 2. fold t. split; [lia|reflexivity].
Qed.

Lemma counted_each_permutation (c : state num) (deltas deltas' : list num) :
  deltas' ≡ₚ deltas -> counted_each c deltas' = counted_each c deltas.
Proof.
  unfold counted_each.
  induction 1 as [|d l l' _ IH|d d' l|l l' l'' _ IH _ IH'];
    cbn [fmap list_fmap fold_right] in *; lia.
Qed.

Lemma counted_each_replicate (c : state num) (deltaTime : num) (n : nat) :
  counted c deltaTime = 0 -> counted_each c (replicate n deltaTime) = 0.
Proof.
  intros Hnone. unfold counted_each. induction n as [|n IH]; [reflexivity|].
  cbn [replicate fmap list_fmap fold_right].
  change (list_fmap num Z (counted c)) with (fmap (M := list) (counted c)).
  rewrite Hnone. exact IH.
Qed.

End Advance.

(** X5.  The clock driven by the game loop, as the program runs it in
    binary64, keeps nothing from one call to the next.  With every
    [deltaTime * speedMultiplier / tickIntervalMs] finite and the tick a
    safe integer before and after, each [deltaTime] is turned into ticks on
    its own and what is left of it is dropped: the tick after a sequence of
    calls is the tick before it plus the ticks of each call,
    [lastUpdatedAt] is not used, the order of the calls does not matter,
    and a [deltaTime] that gives no tick by itself gives none however often
    it is passed. *)
Theorem driven_each_drops_remainders (c : state PrimFloat.float)
    (deltas : list PrimFloat.float) :
  let quotient deltaTime :=
    PrimFloat.div (PrimFloat.mul deltaTime (speedMultiplier c))
                  (tickIntervalMs c) in
  Forall (fun deltaTime => float_finite (quotient deltaTime) = true) deltas ->
  safeInteger (tick c) ->
  safeInteger (tick c + counted_each c deltas) ->
  tick (driven_each deltas c) = tick c + counted_each c deltas /\
  lastUpdatedAt (driven_each deltas c) = lastUpdatedAt c /\
  (forall deltas',
     deltas' ≡ₚ deltas ->
     tick (driven_each deltas' c) = tick (driven_each deltas c)) /\
  (forall deltaTime (n : nat),
     float_finite (quotient deltaTime) = true ->
     float_floor (quotient deltaTime) <= 0 ->
     tick (driven_each (replicate n deltaTime) c) = tick c).
Proof.
  intros quotient _ _ _.
  destruct (driven_each_counted deltas c) as [Htick Hkept].
  split; [exact Htick|]. split; [exact Hkept|]. split.
  - intros deltas' Hperm.
    rewrite Htick, (proj1 (driven_each_counted deltas' c)).
    rewrite (counted_each_permutation c deltas deltas' Hperm). reflexivity.
  - intros deltaTime n _ Hnone.
    rewrite (proj1 (driven_each_counted (replicate n deltaTime) c)).
    rewrite counted_each_replicate; [lia|].
    unfold counted. cbn [num_floor num_div num_mul Number_binary64].
    fold (quotient deltaTime). lia.
Qed.

(** With a tick every 50 ms: two calls with 75 ms count two ticks where
    150 ms hold three, and calls with 49 ms never move the clock. *)
Lemma driven_each_drops_remainders_witness :
  let c := create (num := PrimFloat.float)
             (float_ofZ 50) (float_ofZ 1) (float_ofZ 1700000000000) in
  tick (driven_each [float_ofZ 75; float_ofZ 75] c) = 2 /\
  counted c (float_ofZ 150) = 3 /\
  forall n : nat, tick (driven_each (replicate n (float_ofZ 49)) c) = 0.
Proof.
  intros c.
  destruct (driven_each_drops_remainders c [float_ofZ 75; float_ofZ 75])
    as (Htick & _ & _ & Hshort).
  - repeat constructor.
  - vm_compute. split; reflexivity.
  - vm_compute. split; reflexivity.
  - split; [|split].
    + rewrite Htick. vm_compute. reflexivity.
    + vm_compute. reflexivity.
    + intros n. rewrite (Hshort (float_ofZ 49) n); [reflexivity| |].
      * vm_compute. reflexivity.
      * vm_compute. discriminate.
Defined.

Lemma advance_all_phase_in_step_witness :
  let c := create (num := Q) 1000%Q 1%Q 0%Q in
  let calls := [(Some 70, 10%Q); (None, 5010%Q); (Some (-3), 5020%Q)] in
  timeOfDay c = resolvePeriod (tick c) /\
  tick (advance_all calls c) = 75 /\
  timeOfDay (advance_all calls c) = resolvePeriod (tick (advance_all calls c)).
Proof.
  intros c calls. split; [reflexivity|]. split; [reflexivity|].
  apply (advance_all_phase_in_step calls c). reflexivity.
Defined.

Lemma advance_notifies_on_change_witness :
  let c := advance (Some 100) 0%Q (create (num := Q) 1000%Q 1%Q 0%Q) in
  let c' := advance (Some (2 * ticksPerDay)) 10%Q c in
  notified c = [Day] /\ tick c' = 580 /\ notified c' = [Day].
Proof.
  intros c c'. split; [reflexivity|].
  destruct (advance_notifies_on_change (Some (2 * ticksPerDay)) 10%Q c)
    as [_ Hdays].
  destruct (Hdays 2) as (Htick & _ & Hnotified).
  - lia.
  - reflexivity.
  - reflexivity.
  - split; [exact Htick|exact Hnotified].
Defined.

Section Exact.
Local Open Scope Q_scope.


End Exact.


End ClockProps.

Module WeatherManagerProps.
Import Weather WeatherProps PrimFloat.

(** X8.  With a draw of at most 1, and [Math.random()] draws below 1, the
    loop of [getNextWeather] returns by itself for every current weather:
    the tables add up to at least 1 in binary64, so the fallback after the
    loop is never the one that answers. *)
Theorem getNextWeather_loop_returns (current : WeatherType)
    (roll : PrimFloat.float) :
  PrimFloat.leb roll (float_ofZ 1) = true ->
  walk (WEATHER_TRANSITIONS current) roll (float_ofZ 0)
  = Some (getNextWeather current roll).
Proof.
  intros Hroll. unfold getNextWeather, pick.
  destruct (walk (WEATHER_TRANSITIONS current) roll (num_ofZ 0)) as [w|] eqn:Hwalk.
  - exact Hwalk.
  - rewrite walk_cumulative in Hwalk.
    destruct (first_reaching_unit_draw current roll Hroll) as [w Hw].
    unfold first_reaching in Hw. rewrite Hw in Hwalk. discriminate.
Qed.

Lemma getNextWeather_loop_returns_witness :
  let roll := float_ofZ 1 in
  PrimFloat.leb roll (float_ofZ 1) = true /\
  walk (WEATHER_TRANSITIONS storm) roll (float_ofZ 0)
  = Some (getNextWeather storm roll).
Proof.
  intros roll. split; [reflexivity|].
  apply (getNextWeather_loop_returns storm roll). reflexivity.
Defined.

(** X9.  [WeatherManager.update] moves along the transition table: the new
    weather is an entry of the current weather's table, or fog on a night
    whose first draw is below 0.1.  Hence snow only follows clear or snow
    and a storm never follows snow or fog, whatever is drawn; away from the
    night the update is [getNextWeather] on the first draw. *)
Theorem update_follows_table (timeOfDay : TimeManager.TimeOfDay)
    (current : WeatherType) (random : nat -> PrimFloat.float) :
  let next := WeatherManager.update timeOfDay current random in
  (next ∈ (fst <$> WEATHER_TRANSITIONS current) \/
   timeOfDay = TimeManager.Night /\
   PrimFloat.ltb (random 0%nat) 0.1%float = true /\ next = fog) /\
  (next = snow -> current = clear \/ current = snow) /\
  (next = storm -> current = clear \/ current = rain \/ current = storm) /\
  (timeOfDay <> TimeManager.Night ->
   next = getNextWeather current (random 0%nat)).
Proof.
  cbv zeta.
  assert (Hlast : exists lastTransition,
            last (WEATHER_TRANSITIONS current) = Some lastTransition)
    by (destruct current; eexists; reflexivity).
  destruct Hlast as [lastTransition Hlast].
  assert (Hmember : forall roll,
            getNextWeather current roll ∈ (fst <$> WEATHER_TRANSITIONS current))
    by (intros roll; exact (pick_member _ roll _ Hlast)).
  assert (Hcases :
    WeatherManager.update timeOfDay current random
      ∈ (fst <$> WEATHER_TRANSITIONS current) \/
    timeOfDay = TimeManager.Night /\
    PrimFloat.ltb (random 0%nat) 0.1%float = true /\
    WeatherManager.update timeOfDay current random = fog).
  { unfold WeatherManager.update.
    destruct timeOfDay; try (left; apply Hmember).
    destruct (PrimFloat.ltb (random 0%nat) 0.1%float) eqn:Hfog.
    - right. repeat split.
    - left. apply Hmember. }
  split; [exact Hcases|].
  split; [|split].
  - intros Hsnow. rewrite Hsnow in Hcases.
    destruct Hcases as [Hin|(_ & _ & [=])].
    destruct current; auto; exfalso; cbn in Hin;
      rewrite ?elem_of_cons, elem_of_nil in Hin;
      decompose [or] Hin; try discriminate; assumption.
  - intros Hstorm. rewrite Hstorm in Hcases.
    destruct Hcases as [Hin|(_ & _ & [=])].
    destruct current; auto; exfalso; cbn in Hin;
      rewrite ?elem_of_cons, elem_of_nil in Hin;
      decompose [or] Hin; try discriminate; assumption.
  - intros Hday. unfold WeatherManager.update.
    destruct timeOfDay; try reflexivity. contradiction.
Qed.

Lemma update_follows_table_witness :
  let random := fun n : nat => float_ofZ 0 in
  WeatherManager.update TimeManager.Day snow random = snow /\
  WeatherManager.update TimeManager.Night snow random = fog.
Proof.
  intros random. split.
  - destruct (update_follows_table TimeManager.Day snow random)
      as (_ & _ & _ & Hday).
    rewrite Hday by discriminate. reflexivity.
  - reflexivity.
Defined.

End WeatherManagerProps.

Module TerrainProps.
Import WorldManager WorldManagerProps.

(** A tile that is not the void one is stored in the grid. *)
Lemma getTile_stored (m : manager) (pos : Position2D) :
  getTile m pos <> voidTile ->
  isInBounds m pos = true /\
  exists row,
    tiles (worldMap m) !! Z.to_nat (y pos) = Some row /\
    array_get row (x pos) = Some (getTile m pos).
Proof.
  unfold getTile. destruct (isInBounds m pos); cbn [negb]; [|congruence].
  destruct (tiles (worldMap m) !! Z.to_nat (y pos)) as [row|] eqn:Hrow;
    [|congruence].
  destruct (array_get row (x pos)) as [tile|] eqn:Hget; cbn; [|congruence].
  intros _. split; [reflexivity|]. exists row. split; [reflexivity|exact Hget].
Qed.

Lemma getTile_typed (m : manager) (pos : Position2D) :
  type (getTile m pos) <> VOID -> getTile m pos <> voidTile.
Proof. intros Htype Hvoid. rewrite Hvoid in Htype. contradiction. Qed.

Lemma getTile_outside (m : manager) (pos : Position2D) :
  isInBounds m pos = false -> getTile m pos = voidTile.
Proof. intros Hout. unfold getTile. rewrite Hout. reflexivity. Qed.

Lemma setTile_cases (m : manager) (pos : Position2D) (tile : Tile)
    (expectedVersion : option Z) :
  setTile m pos tile expectedVersion = (m, false) \/
  exists row,
    isInBounds m pos = true /\
    tiles (worldMap m) !! Z.to_nat (y pos) = Some row /\
    (forall expected, expectedVersion = Some expected ->
                      expected = getTileVersion m pos) /\
    setTile m pos tile expectedVersion = (stored m pos tile row, true).
Proof.
  unfold setTile.
  destruct (isInBounds m pos) eqn:Hin; cbn [negb]; [|left; reflexivity].
  destruct (tiles (worldMap m) !! Z.to_nat (y pos)) as [row|] eqn:Hrow;
    [|left; reflexivity].
  rewrite (currentVersion_row m pos row Hin Hrow).
  destruct expectedVersion as [expected|].
  - destruct (Z.eqb_spec (getTileVersion m pos) expected) as [<-|Hstale];
      cbn [negb]; [|left; reflexivity].
    right. exists row. repeat split. intros ? [= <-]. reflexivity.
  - right. exists row. repeat split. discriminate.
Qed.

Lemma stored_bounds (m : manager) (pos pos' : Position2D) (tile : Tile)
    (row : list (option Tile)) :
  isInBounds (stored m pos tile row) pos' = isInBounds m pos'.
Proof. reflexivity. Qed.

Lemma stored_getTile (m : manager) (pos : Position2D) (tile : Tile)
    (row : list (option Tile)) :
  isInBounds m pos = true ->
  tiles (worldMap m) !! Z.to_nat (y pos) = Some row ->
  getTile (stored m pos tile row) pos
  = mkTile (type tile) (state tile) (Some (getTileVersion m pos + 1)).
Proof.
  intros Hin Hrow. unfold getTile. rewrite stored_bounds, Hin. cbn [negb].
  unfold stored, markTileDirty. cbn [worldMap tiles].
  rewrite list_lookup_insert_eq by exact (lookup_lt_Some _ _ _ Hrow).
  assert (0 <= x pos).
  { unfold isInBounds in Hin. repeat (apply andb_prop in Hin as [Hin ?]). lia. }
  rewrite <- (Z2Nat.id (x pos)) at 2 by assumption.
  rewrite array_get_set. reflexivity.
Qed.

Lemma array_get_set_ne {A : Type} (a : list (option A)) (i : nat) (j : Z) (v : A) :
  j <> Z.of_nat i -> array_get (array_set a i v) j = array_get a j.
Proof.
  intros Hne. unfold array_get, array_set.
  destruct (Z.ltb_spec j 0) as [?|Hj]; [reflexivity|].
  assert (Hnat : Z.to_nat j <> i) by lia.
  destruct (decide (i < length a)%nat) as [Hin|Hout].
  - rewrite list_lookup_insert_ne by congruence. reflexivity.
  - destruct (decide (Z.to_nat j < length a)%nat) as [Hj'|Hj'].
    + rewrite lookup_app_l by exact Hj'. reflexivity.
    + rewrite lookup_app_r by lia.
      rewrite (lookup_ge_None_2 a) by lia.
      destruct (decide (Z.to_nat j - length a < i - length a)%nat).
      * rewrite lookup_app_l by (rewrite length_replicate; lia).
        rewrite lookup_replicate_2 by lia. reflexivity.
      * rewrite lookup_app_r by (rewrite length_replicate; lia).
        rewrite length_replicate.
        destruct (Z.to_nat j - length a - (i - length a))%nat as [|k] eqn:Hk;
          [lia|reflexivity].
Qed.

Lemma stored_getTile_ne (m : manager) (pos pos' : Position2D) (tile : Tile)
    (row : list (option Tile)) :
  isInBounds m pos = true ->
  tiles (worldMap m) !! Z.to_nat (y pos) = Some row ->
  pos' <> pos ->
  getTile (stored m pos tile row) pos' = getTile m pos'.
Proof.
  intros Hin Hrow Hne. unfold getTile. rewrite stored_bounds.
  destruct (isInBounds m pos') eqn:Hin'; cbn [negb]; [|reflexivity].
  unfold stored, markTileDirty. cbn [worldMap tiles].
  unfold isInBounds in Hin, Hin'.
  repeat (apply andb_prop in Hin as [Hin ?]).
  repeat (apply andb_prop in Hin' as [Hin' ?]).
  destruct (decide (y pos' = y pos)) as [Hy|Hy].
  - rewrite Hy, list_lookup_insert_eq by exact (lookup_lt_Some _ _ _ Hrow).
    rewrite Hrow. rewrite array_get_set_ne; [reflexivity|].
    intros Hx. apply Hne. destruct pos, pos'. cbn in *. f_equal; lia.
  - rewrite list_lookup_insert_ne by lia. reflexivity.
Qed.

Lemma harvest_mutation (m : manager) (pos : Position2D) (now : string) :
  mutate Harvest m pos now = (m, false) \/
  exists tile expectedVersion,
    mutate Harvest m pos now = setTile m pos tile expectedVersion.
Proof.
  unfold mutate, harvest.
  destruct (isHarvestable m pos); cbn [negb]; [|left; reflexivity].
  destruct (state (getTile m pos)) as [st|]; [|left; reflexivity].
  destruct (durability st) as [d|]; [|left; reflexivity].
  right. destruct (d - 1 <=? 0).
  - exists (mkTile GRASS None None), (Some (default 0 (version (getTile m pos)))).
    destruct (setTile m pos _ _) as [m' [|]]; reflexivity.
  - exists (worn (getTile m pos) st (d - 1) now),
           (Some (default 0 (version (getTile m pos)))).
    unfold worn.
    destruct (setTile m pos _ _) as [m' [|]]; reflexivity.
Qed.

(** Every call that changes the terrain gives up at once or ends in one
    call of [setTile] at its coordinate. *)
Lemma mutate_cases (op : mutation) (m : manager) (pos : Position2D)
    (now : string) :
  mutate op m pos now = (m, false) \/
  exists tile expectedVersion,
    mutate op m pos now = setTile m pos tile expectedVersion.
Proof.
  destruct op as [tile expectedVersion| |cropId| |].
  - right. eexists _, _. reflexivity.
  - cbn [mutate]. unfold tillLand.
    destruct (isTillable m pos); cbn [negb]; [|left; reflexivity].
    right. eexists _, _. reflexivity.
  - cbn [mutate]. unfold plantCrop.
    destruct (bool_decide _); cbn [negb]; [|left; reflexivity].
    destruct (truthy _); [left; reflexivity|].
    right. eexists _, _. reflexivity.
  - cbn [mutate]. unfold waterTile.
    destruct (bool_decide _); cbn [negb]; [|left; reflexivity].
    destruct (state (getTile m pos)); [|left; reflexivity].
    right. eexists _, _. reflexivity.
  - apply harvest_mutation.
Qed.

(** X10.  Outside the map there is only the void tile: it is not walkable,
    tillable or harvestable, its version reads 0, and every call that
    would change it - a plain write with or without an expected version,
    tilling, planting, watering, harvesting - returns false and leaves the
    world as it was. *)
Theorem outside_the_map (m : manager) (pos : Position2D) :
  isInBounds m pos = false ->
  getTile m pos = voidTile /\ getTileVersion m pos = 0 /\
  isWalkable m pos = false /\ isTillable m pos = false /\
  isHarvestable m pos = false /\
  forall op now, mutate op m pos now = (m, false).
Proof.
  intros Hout. pose proof (getTile_outside m pos Hout) as Hvoid.
  unfold getTileVersion, isWalkable, isTillable, isHarvestable.
  rewrite Hvoid. repeat split.
  intros op now.
  destruct (mutate_cases op m pos now) as [Hno|(tile & ev & Hset)];
    [exact Hno|].
  rewrite Hset. unfold setTile. rewrite Hout. reflexivity.
Qed.

Lemma outside_the_map_witness :
  getTile sampleWorld (mkPos 3 1) = voidTile /\
  mutate Till sampleWorld (mkPos (-1) 0) "t" = (sampleWorld, false) /\
  mutate (Write (mkTile GRASS None None) None) sampleWorld (mkPos 1 3) "t"
  = (sampleWorld, false).
Proof.
  split; [|split].
  - apply (outside_the_map sampleWorld (mkPos 3 1)). reflexivity.
  - apply (outside_the_map sampleWorld (mkPos (-1) 0)). reflexivity.
  - apply (outside_the_map sampleWorld (mkPos 1 3)). reflexivity.
Defined.

Lemma mutate_outcome (op : mutation) (m : manager) (pos : Position2D)
    (now : string) :
  mutate op m pos now = (m, false) \/
  exists tile row,
    isInBounds m pos = true /\
    tiles (worldMap m) !! Z.to_nat (y pos) = Some row /\
    mutate op m pos now = (stored m pos tile row, true).
Proof.
  destruct (mutate_cases op m pos now) as [Hno|(tile & ev & Hset)];
    [left; exact Hno|].
  destruct (setTile_cases m pos tile ev) as [Hno|(row & Hin & Hrow & _ & Hyes)].
  - left. congruence.
  - right. exists tile, row. repeat split; congruence.
Qed.

(** X11.  A call that changes the terrain is all or nothing.  It returns
    false and the world, dirty set included, is what it was; or it returns
    true, the coordinate is inside the map, its version has gone up by
    exactly one, and [getDirtyTiles] lists it beside the coordinates it
    listed before.  The size of the map stays.  [tillLand], [plantCrop],
    [waterTile] and [harvest], which write a tile they have built
    themselves, touch no other coordinate; for a plain [setTile] this
    depends on the object the caller passes and is not stated. *)
Theorem mutation_all_or_nothing (op : mutation) (m : manager)
    (pos : Position2D) (now : string) :
  let m' := fst (mutate op m pos now) in
  (if snd (mutate op m pos now)
   then isInBounds m pos = true /\
        getTileVersion m' pos = getTileVersion m pos + 1 /\
        (forall pos', isDirty m' pos' <-> pos' = pos \/ isDirty m pos')
   else m' = m) /\
  (ownTile op = true ->
   forall pos', pos' <> pos -> getTile m' pos' = getTile m pos') /\
  (forall pos', isInBounds m' pos' = isInBounds m pos').
Proof.
  cbv zeta.
  destruct (mutate_cases op m pos now) as [Hno|(tile & ev & Hset)].
  - rewrite Hno. cbn [fst snd]. repeat split.
  - destruct (setTile_cases m pos tile ev)
      as [Hno|(row & Hin & Hrow & _ & Hyes)].
    + rewrite Hset, Hno. cbn [fst snd]. repeat split.
    + pose proof (setTile_isDirty _ _ _ _ _ Hyes) as Hdirty.
      rewrite Hset, Hyes. cbn [fst snd]. split; [|split].
      * split; [exact Hin|]. split; [|exact Hdirty].
        unfold getTileVersion at 1.
        rewrite (stored_getTile m pos tile row Hin Hrow). reflexivity.
      * intros _ pos' Hne.
        exact (stored_getTile_ne m pos pos' tile row Hin Hrow Hne).
      * intros pos'. apply stored_bounds.
Qed.

Lemma setTile_current (m : manager) (pos : Position2D) (tile : Tile) :
  getTile m pos <> voidTile ->
  exists m',
    setTile m pos tile (Some (getTileVersion m pos)) = (m', true) /\
    getTile m' pos
    = mkTile (type tile) (state tile) (Some (getTileVersion m pos + 1)).
Proof.
  intros Hstored.
  destruct (getTile_stored m pos Hstored) as (Hin & row & Hrow & _).
  destruct (setTile_cases m pos tile (Some (getTileVersion m pos)))
    as [Hno|(row' & _ & Hrow' & _ & Hyes)].
  - exfalso. revert Hno. unfold setTile. rewrite Hin, Hrow. cbn [negb].
    rewrite (currentVersion_row m pos row Hin Hrow), Z.eqb_refl. cbn [negb].
    intros [= _ Hfalse].
  - eexists. split; [exact Hyes|]. apply stored_getTile; assumption.
Qed.

Lemma tillable_stored (m : manager) (pos : Position2D) :
  isTillable m pos = true -> getTile m pos <> voidTile.
Proof.
  unfold isTillable. intros Htill Hvoid. rewrite Hvoid in Htill. discriminate.
Qed.

Lemma harvestable_stored (m : manager) (pos : Position2D) :
  isHarvestable m pos = true -> getTile m pos <> voidTile.
Proof.
  unfold isHarvestable. intros Hharvest Hvoid. rewrite Hvoid in Hharvest.
  discriminate.
Qed.

Lemma farmland_stored (m : manager) (pos : Position2D) :
  type (getTile m pos) = FARMLAND -> getTile m pos <> voidTile.
Proof. intros Htype Hvoid. rewrite Hvoid in Htype. discriminate. Qed.

(** X12.  The version check inside the domain calls never turns a call
    down: each of them reads the version and writes in one go.  Tilling
    succeeds exactly on a tillable tile, planting exactly on farmland whose
    crop is unset or the empty string, watering exactly on farmland that has
    a state, harvesting exactly on a harvestable tile that has a
    durability. *)
Theorem domain_calls_succeed_iff (m : manager) (pos : Position2D)
    (cropId now : string) :
  let tile := getTile m pos in
  snd (tillLand m pos now) = isTillable m pos /\
  snd (plantCrop m pos cropId now)
  = bool_decide (type tile = FARMLAND) && negb (truthy (state tile ≫= crop)) /\
  snd (waterTile m pos now)
  = bool_decide (type tile = FARMLAND) && bool_decide (is_Some (state tile)) /\
  success (snd (harvest m pos now))
  = isHarvestable m pos && bool_decide (is_Some (state tile ≫= durability)).
Proof.
  cbv zeta.
  assert (Hwrite : forall tile, getTile m pos <> voidTile ->
            snd (setTile m pos tile (Some (default 0 (version (getTile m pos)))))
            = true).
  { intros tile Hstored.
    destruct (setTile_current m pos tile Hstored) as (m' & Hset & _).
    unfold getTileVersion in Hset. rewrite Hset. reflexivity. }
  split; [|split; [|split]].
  - unfold tillLand.
    destruct (isTillable m pos) eqn:Htill; cbn [negb]; [|reflexivity].
    apply Hwrite, tillable_stored, Htill.
  - unfold plantCrop.
    destruct (bool_decide_reflect (type (getTile m pos) = FARMLAND))
      as [Hfarm|_]; cbn [negb andb]; [|reflexivity].
    destruct (truthy _); cbn [negb]; [reflexivity|].
    apply Hwrite, farmland_stored, Hfarm.
  - unfold waterTile.
    destruct (bool_decide_reflect (type (getTile m pos) = FARMLAND))
      as [Hfarm|_]; cbn [negb andb]; [|reflexivity].
    destruct (state (getTile m pos)) as [st|] eqn:Hstate.
    + rewrite bool_decide_eq_true_2 by eauto.
      apply Hwrite, farmland_stored, Hfarm.
    + rewrite bool_decide_eq_false_2 by (intros [? [=]]). reflexivity.
  - unfold harvest.
    destruct (isHarvestable m pos) eqn:Hharvest; cbn [negb andb]; [|reflexivity].
    pose proof (harvestable_stored m pos Hharvest) as Hstored.
    destruct (state (getTile m pos)) as [st|] eqn:Hstate; cbn [mbind option_bind].
    + destruct (durability st) as [d|] eqn:Hd.
      * rewrite bool_decide_eq_true_2 by eauto.
        destruct (d - 1 <=? 0).
        -- specialize (Hwrite (mkTile GRASS None None) Hstored).
           destruct (setTile m pos _ _) as [m' ok]. cbn [snd] in Hwrite.
           subst ok. reflexivity.
        -- specialize (Hwrite (worn (getTile m pos) st (d - 1) now) Hstored).
           unfold worn in Hwrite.
           destruct (setTile m pos _ _) as [m' ok]. cbn [snd] in Hwrite.
           subst ok. reflexivity.
      * rewrite bool_decide_eq_false_2 by (intros [? [=]]). reflexivity.
    + rewrite bool_decide_eq_false_2 by (intros [? [=]]). reflexivity.
Qed.

(** X13.  Tilling, planting and watering a tillable tile, one after the
    other, all succeed.  They leave watered farmland that carries the crop
    at growth stage 0 and the time of the last call, three versions on; the
    tile can then be neither tilled nor planted again. *)
Theorem farm_cycle (m : manager) (pos : Position2D) (cropId t1 t2 t3 : string) :
  isTillable m pos = true -> cropId <> "" ->
  exists m1 m2 m3,
    tillLand m pos t1 = (m1, true) /\
    plantCrop m1 pos cropId t2 = (m2, true) /\
    waterTile m2 pos t3 = (m3, true) /\
    getTile m3 pos
    = mkTile FARMLAND
        (Some (mkTileState (Some true) (Some cropId) (Some 0) (Some true) None
                 (Some t3)))
        (Some (getTileVersion m pos + 3)) /\
    (forall now, tillLand m3 pos now = (m3, false)) /\
    (forall other now, plantCrop m3 pos other now = (m3, false)).
Proof.
  intros Htill Hcrop.
  destruct (setTile_current m pos
              (mkTile FARMLAND
                 (Some (mkTileState (Some true) None None (Some false) None
                          (Some t1))) None)
              (tillable_stored m pos Htill)) as (m1 & Hset1 & Htile1).
  cbn [type state] in Htile1.
  assert (Hstored1 : getTile m1 pos <> voidTile) by (rewrite Htile1; discriminate).
  assert (Hv1 : getTileVersion m1 pos = getTileVersion m pos + 1)
    by (unfold getTileVersion at 1; rewrite Htile1; reflexivity).
  destruct (setTile_current m1 pos
              (mkTile FARMLAND
                 (Some (mkTileState (Some true) (Some cropId) (Some 0)
                          (Some false) None (Some t2))) None)
              Hstored1) as (m2 & Hset2 & Htile2).
  cbn [type state] in Htile2.
  assert (Hstored2 : getTile m2 pos <> voidTile) by (rewrite Htile2; discriminate).
  assert (Hv2 : getTileVersion m2 pos = getTileVersion m pos + 2)
    by (unfold getTileVersion at 1; rewrite Htile2; cbn; lia).
  destruct (setTile_current m2 pos
              (mkTile FARMLAND
                 (Some (mkTileState (Some true) (Some cropId) (Some 0)
                          (Some true) None (Some t3))) None)
              Hstored2) as (m3 & Hset3 & Htile3).
  cbn [type state] in Htile3.
  exists m1, m2, m3. split; [|split; [|split; [|split; [|split]]]].
  - unfold tillLand. rewrite Htill. exact Hset1.
  - unfold plantCrop. cbv zeta.
    change (default 0 (version (getTile m1 pos))) with (getTileVersion m1 pos).
    rewrite Htile1. cbn [type state mbind option_bind crop truthy spread default
                         tilled watered durability].
    rewrite bool_decide_eq_true_2 by reflexivity. exact Hset2.
  - unfold waterTile. cbv zeta.
    change (default 0 (version (getTile m2 pos))) with (getTileVersion m2 pos).
    rewrite Htile2. cbn [type state tilled crop growthStage durability].
    rewrite bool_decide_eq_true_2 by reflexivity. exact Hset3.
  - rewrite Htile3, Hv2. f_equal. f_equal. lia.
  - intros now. unfold tillLand, isTillable. rewrite Htile3. reflexivity.
  - intros other now. unfold plantCrop. rewrite Htile3.
    cbn [type state mbind option_bind crop truthy].
    rewrite bool_decide_eq_true_2 by reflexivity.
    destruct cropId; [contradiction|reflexivity].
Qed.

Lemma farm_cycle_witness :
  let m :=
    mkManager (mkMap 2 1 [[Some (mkTile GRASS None None);
                           Some (mkTile DIRT None (Some 4))]]) ∅ in
  exists m1 m2 m3,
    tillLand m (mkPos 1 0) "t1" = (m1, true) /\
    plantCrop m1 (mkPos 1 0) "wheat" "t2" = (m2, true) /\
    waterTile m2 (mkPos 1 0) "t3" = (m3, true) /\
    version (getTile m3 (mkPos 1 0)) = Some 7.
Proof.
  intros m.
  destruct (farm_cycle m (mkPos 1 0) "wheat" "t1" "t2" "t3")
    as (m1 & m2 & m3 & H1 & H2 & H3 & Htile & _).
  - reflexivity.
  - discriminate.
  - exists m1, m2, m3. rewrite Htile. repeat split; assumption.
Defined.
Lemma elem_of_span (from count z : Z) :
  z ∈ span from count <-> from <= z < from + count.
Proof.
  unfold span. rewrite list_elem_of_fmap. split.
  - intros (i & -> & Hi). apply elem_of_seq in Hi. lia.
  - intros Hz. exists (Z.to_nat (z - from)). split; [lia|].
    apply elem_of_seq. lia.
Qed.

Lemma getTileConfig_total (t : TerrainType) : is_Some (getTileConfig t).
Proof. unfold getTileConfig. eauto. Qed.

Lemma visible_void_free (m : manager) (center : Position2D) (radius : Z)
    (v : VisibleTile) :
  v ∈ getVisibleTiles m center radius -> type (vt_tile v) <> VOID.
Proof.
  unfold getVisibleTiles. intros Hv.
  apply list_elem_of_bind in Hv as (dy & Hv & _).
  apply list_elem_of_bind in Hv as (dx & Hv & _). cbv zeta in Hv.
  destruct (decide (type (getTile m (mkPos (x center + dx) (y center + dy)))
                    = VOID)) as [|Htype];
    [apply elem_of_nil in Hv; contradiction|].
  destruct (getTileConfig _) as [config|];
    [|apply elem_of_nil in Hv; contradiction].
  apply list_elem_of_singleton in Hv. subst v. exact Htype.
Qed.

(** X14.  [getVisibleTiles] returns, each with its current tile and
    configuration, exactly the coordinates of the square of the given
    radius around the centre whose tile is not void: all of them lie inside
    the map.  [getTilesInRect] returns exactly the coordinates of the
    rectangle that lie inside the map, void-typed tiles included.  A
    negative radius and an empty rectangle give nothing. *)
Theorem visible_tiles_listed (m : manager) (center : Position2D) (radius : Z)
    (rect : Rectangle) (v : VisibleTile) :
  (v ∈ getVisibleTiles m center radius <->
   Z.abs (x (vt_pos v) - x center) <= radius /\
   Z.abs (y (vt_pos v) - y center) <= radius /\
   vt_tile v = getTile m (vt_pos v) /\
   type (vt_tile v) <> VOID /\
   getTileConfig (type (vt_tile v)) = Some (vt_config v)) /\
  (v ∈ getVisibleTiles m center radius -> isInBounds m (vt_pos v) = true) /\
  (v ∈ getTilesInRect m rect <->
   rect_x rect <= x (vt_pos v) < rect_x rect + rect_width rect /\
   rect_y rect <= y (vt_pos v) < rect_y rect + rect_height rect /\
   isInBounds m (vt_pos v) = true /\
   vt_tile v = getTile m (vt_pos v) /\
   getTileConfig (type (vt_tile v)) = Some (vt_config v)).
Proof.
  assert (Hvisible :
    v ∈ getVisibleTiles m center radius <->
    Z.abs (x (vt_pos v) - x center) <= radius /\
    Z.abs (y (vt_pos v) - y center) <= radius /\
    vt_tile v = getTile m (vt_pos v) /\
    type (vt_tile v) <> VOID /\
    getTileConfig (type (vt_tile v)) = Some (vt_config v)).
  { unfold getVisibleTiles. rewrite list_elem_of_bind. split.
    - intros (dy & Hv & Hdy). apply list_elem_of_bind in Hv as (dx & Hv & Hdx).
      apply elem_of_span in Hdy, Hdx. cbv zeta in Hv.
      destruct (decide (type (getTile m (mkPos (x center + dx) (y center + dy)))
                        = VOID)) as [|Htype];
        [apply elem_of_nil in Hv; contradiction|].
      destruct (getTileConfig
                  (type (getTile m (mkPos (x center + dx) (y center + dy)))))
        as [config|] eqn:Hconfig;
        [|apply elem_of_nil in Hv; contradiction].
      apply list_elem_of_singleton in Hv. subst v. cbn [vt_pos vt_tile vt_config x y].
      repeat split; try assumption; lia.
    - intros (Hx & Hy & Htile & Htype & Hconfig).
      exists (y (vt_pos v) - y center). split; [|apply elem_of_span; lia].
      apply list_elem_of_bind. exists (x (vt_pos v) - x center).
      split; [|apply elem_of_span; lia]. cbv zeta.
      replace (mkPos (x center + (x (vt_pos v) - x center))
                     (y center + (y (vt_pos v) - y center)))
        with (vt_pos v) by (destruct (vt_pos v); cbn; f_equal; lia).
      rewrite <- Htile. rewrite decide_False by exact Htype.
      rewrite Hconfig. apply list_elem_of_singleton.
      destruct v; cbn in *. congruence. }
  split; [exact Hvisible|]. split.
  - intros Hv. apply Hvisible in Hv as (_ & _ & Htile & Htype & _).
    rewrite Htile in Htype.
    exact (proj1 (getTile_stored m (vt_pos v) (getTile_typed m _ Htype))).
  - unfold getTilesInRect. rewrite list_elem_of_bind. split.
    + intros (py & Hv & Hy). apply list_elem_of_bind in Hv as (px & Hv & Hx).
      apply elem_of_span in Hy, Hx. cbv zeta in Hv.
      destruct (isInBounds m (mkPos px py)) eqn:Hin; cbv iota in Hv;
        [|apply elem_of_nil in Hv; contradiction].
      destruct (getTileConfig (type (getTile m (mkPos px py))))
        as [config|] eqn:Hconfig;
        [|apply elem_of_nil in Hv; contradiction].
      apply list_elem_of_singleton in Hv. subst v. cbn [vt_pos vt_tile vt_config x y].
      repeat split; try assumption; lia.
    + intros (Hx & Hy & Hin & Htile & Hconfig).
      exists (y (vt_pos v)). split; [|apply elem_of_span; lia].
      apply list_elem_of_bind. exists (x (vt_pos v)).
      split; [|apply elem_of_span; lia]. cbv zeta.
      replace (mkPos (x (vt_pos v)) (y (vt_pos v))) with (vt_pos v)
        by (destruct (vt_pos v); reflexivity).
      rewrite Hin, <- Htile, Hconfig. apply list_elem_of_singleton.
      destruct v; cbn in *. congruence.
Qed.

Lemma visible_tiles_listed_witness :
  let v := mkVisible (mkPos 1 1)
             (mkTile TREE (Some (mkTileState None None None None (Some 3) None))
                     (Some 3))
             (mkConfig false false true false) in
  v ∈ getVisibleTiles sampleWorld (mkPos 2 2) 1 /\
  isInBounds sampleWorld (vt_pos v) = true.
Proof.
  intros v.
  destruct (visible_tiles_listed sampleWorld (mkPos 2 2) 1 (mkRect 0 0 0 0) v)
    as (Hlisted & Hinside & _).
  assert (Hv : v ∈ getVisibleTiles sampleWorld (mkPos 2 2) 1).
  { apply Hlisted. vm_compute. repeat split; discriminate. }
  split; [exact Hv|exact (Hinside Hv)].
Defined.

(** ** The tally of [describeView] *)

(** The number of the tiles of one type. *)
Local Abbreviation occurrences t types :=
  (Z.of_nat (length (filter (fun t' : TerrainType => t' = t) types))).

Lemma countType_keys (t : TerrainType) (counts : list (TerrainType * Z)) :
  forall t', t' ∈ (fst <$> countType t counts) <->
             t' = t \/ t' ∈ (fst <$> counts).
Proof.
  intros t'. induction counts as [|[t0 n] rest IH]; cbn [countType].
  - cbn. rewrite list_elem_of_singleton, elem_of_nil. tauto.
  - destruct (decide (t0 = t)) as [->|Hne]; cbn [fmap list_fmap fst];
      rewrite !elem_of_cons; [tauto|].
    rewrite IH. tauto.
Qed.

Lemma countType_NoDup (t : TerrainType) (counts : list (TerrainType * Z)) :
  NoDup (fst <$> counts) -> NoDup (fst <$> countType t counts).
Proof.
  induction counts as [|[t0 n] rest IH]; cbn [countType]; intros Hnd.
  - cbn. apply NoDup_singleton.
  - cbn [fmap list_fmap fst] in Hnd. apply NoDup_cons in Hnd as [Hfresh Hnd].
    destruct (decide (t0 = t)) as [->|Hne]; cbn [fmap list_fmap fst].
    + apply NoDup_cons. split; assumption.
    + apply NoDup_cons. split; [|apply IH, Hnd].
      rewrite countType_keys. intros [?|?]; [congruence|contradiction].
Qed.

Lemma countType_entries (t : TerrainType) (counts : list (TerrainType * Z))
    (t' : TerrainType) (n : Z) :
  NoDup (fst <$> counts) ->
  (t', n) ∈ countType t counts <->
  (t' <> t /\ (t', n) ∈ counts) \/
  (t' = t /\ ((t, n - 1) ∈ counts \/ n = 1 /\ t ∉ (fst <$> counts))).
Proof.
  induction counts as [|[t0 k] rest IH]; cbn [countType]; intros Hnd.
  - rewrite list_elem_of_singleton. cbn. split.
    + intros [= -> ->]. right. split; [reflexivity|]. right.
      split; [reflexivity|apply not_elem_of_nil].
    + intros [[_ Hin]|[-> [Hin|[-> _]]]];
        [apply elem_of_nil in Hin; contradiction
        |apply elem_of_nil in Hin; contradiction|reflexivity].
  - cbn [fmap list_fmap fst] in Hnd. apply NoDup_cons in Hnd as [Hfresh Hnd].
    assert (Hkey : forall k', (t0, k') ∈ rest -> False).
    { intros k' Hin. apply Hfresh. apply list_elem_of_fmap.
      exists (t0, k'). split; [reflexivity|exact Hin]. }
    destruct (decide (t0 = t)) as [->|Hne].
    + rewrite !elem_of_cons. cbn [fmap list_fmap fst]. rewrite elem_of_cons.
      split.
      * intros [[= -> ->]|Hin].
        -- right. split; [reflexivity|]. left. left. f_equal. lia.
        -- destruct (decide (t' = t)) as [->|Hne']; [destruct (Hkey _ Hin)|].
           left. split; [exact Hne'|]. right. exact Hin.
      * intros [[Hne' [[= ? ?]|Hin]]|[-> [[[= ?]|Hin]|[_ Hnot]]]];
          try congruence.
        -- right. exact Hin.
        -- left. f_equal. lia.
        -- destruct (Hkey _ Hin).
        -- exfalso. apply Hnot. left. reflexivity.
    + rewrite !elem_of_cons, (IH Hnd). cbn [fmap list_fmap fst].
      rewrite elem_of_cons. split.
      * intros [[= -> ->]|[[Hne' Hin]|[-> [Hin|[-> Hnot]]]]].
        -- left. split; [exact Hne|]. left. reflexivity.
        -- left. split; [exact Hne'|]. right. exact Hin.
        -- right. split; [reflexivity|]. left. right. exact Hin.
        -- right. split; [reflexivity|]. right. split; [reflexivity|].
           intros [?|?]; [congruence|contradiction].
      * intros [[Hne' [[= -> ->]|Hin]]|[-> [[[= ? ?]|Hin]|[-> Hnot]]]];
          try congruence.
        -- left. reflexivity.
        -- right. left. split; assumption.
        -- right. right. split; [reflexivity|]. left. exact Hin.
        -- right. right. split; [reflexivity|]. right. split; [reflexivity|].
           intros Hin. apply Hnot. right. exact Hin.
Qed.

(** What the counts say once the types [seen] have gone through. *)
Local Abbreviation tallied counts seen :=
  (NoDup (fst <$> counts) /\
   forall (t : TerrainType) (n : Z),
     (t, n) ∈ counts <-> 0 < n /\ n = occurrences t seen).

Lemma occurrences_snoc (t t' : TerrainType) (seen : list TerrainType) :
  occurrences t (seen ++ [t'])
  = occurrences t seen + (if decide (t' = t) then 1 else 0).
Proof.
  rewrite filter_app, length_app, Nat2Z.inj_add. f_equal.
  rewrite filter_cons, filter_nil.
  destruct (decide (t' = t)); reflexivity.
Qed.

Lemma tallied_one_more (t : TerrainType) (counts : list (TerrainType * Z))
    (seen : list TerrainType) :
  tallied counts seen -> tallied (countType t counts) (seen ++ [t]).
Proof.
  intros [Hnd Hcounts]. split; [apply countType_NoDup, Hnd|].
  intros t' n. rewrite (countType_entries t counts t' n Hnd).
  rewrite occurrences_snoc, !Hcounts.
  assert (Hfresh : t ∉ (fst <$> counts) <-> occurrences t seen = 0).
  { split.
    - intros Hnot.
      destruct (decide (occurrences t seen = 0)) as [|Hpos]; [assumption|].
      exfalso. apply Hnot. apply list_elem_of_fmap.
      exists (t, occurrences t seen). split; [reflexivity|].
      apply Hcounts. split; [lia|reflexivity].
    - intros Hzero Hin. apply list_elem_of_fmap in Hin as ([t0 k] & Heq & Hin).
      cbn in Heq. subst t0. apply Hcounts in Hin. lia. }
  rewrite Hfresh.
  destruct (decide (t = t')) as [->|Hne].
  - split.
    + intros [[Hne _]|[_ [[Hpos Hn]|[-> Hzero]]]]; [congruence|lia|lia].
    + intros [Hpos Hn]. right. split; [reflexivity|].
      destruct (decide (occurrences t' seen = 0)); [right|left]; lia.
  - split.
    + intros [[_ [Hpos Hn]]|[-> _]]; [lia|congruence].
    + intros [Hpos Hn]. left. split; [congruence|]. lia.
Qed.

Lemma tallied_fold (types seen : list TerrainType)
    (counts : list (TerrainType * Z)) :
  tallied counts seen ->
  tallied (fold_left (fun counts t => countType t counts) types counts)
          (seen ++ types).
Proof.
  revert seen counts. induction types as [|t rest IH]; intros seen counts Hc.
  - rewrite app_nil_r. exact Hc.
  - cbn [fold_left].
    replace (seen ++ t :: rest) with ((seen ++ [t]) ++ rest)
      by (rewrite <- app_assoc; reflexivity).
    apply IH, tallied_one_more, Hc.
Qed.

Lemma types_filtered (t : TerrainType) (visible : list VisibleTile) :
  length (filter (fun t' : TerrainType => t' = t)
                 ((fun v => type (vt_tile v)) <$> visible))
  = length (filter (fun v => type (vt_tile v) = t) visible).
Proof.
  induction visible as [|v rest IH]; [reflexivity|].
  cbn [fmap list_fmap]. rewrite !filter_cons.
  destruct (decide (type (vt_tile v) = t)); cbn [length]; rewrite IH;
    reflexivity.
Qed.

Lemma types_folded (visible : list VisibleTile)
    (counts : list (TerrainType * Z)) :
  fold_left (fun counts v => countType (type (vt_tile v)) counts) visible counts
  = fold_left (fun counts t => countType t counts)
              ((fun v => type (vt_tile v)) <$> visible) counts.
Proof.
  revert counts. induction visible as [|v rest IH]; intros counts;
    [reflexivity|].
  cbn [fold_left fmap list_fmap]. apply IH.
Qed.

(** X15.  The lines of [describeView] tally the view: every terrain type
    among the visible tiles has one line, with the number of visible tiles
    of that type, and no other type has a line; the void is never listed. *)
Theorem describeView_tallies (m : manager) (center : Position2D) (radius : Z) :
  let visible := getVisibleTiles m center radius in
  NoDup (fst <$> describeView m center radius) /\
  (forall t n,
     (t, n) ∈ describeView m center radius <->
     0 < n /\
     n = Z.of_nat (length (filter (fun v => type (vt_tile v) = t) visible))) /\
  VOID ∉ (fst <$> describeView m center radius).
Proof.
  cbv zeta. unfold describeView.
  set (visible := getVisibleTiles m center radius).
  rewrite (types_folded visible []).
  destruct (tallied_fold ((fun v => type (vt_tile v)) <$> visible) [] [])
    as [Hnd Hcounts].
  { split; [constructor|]. intros t n. cbn. rewrite elem_of_nil. lia. }
  cbn [app] in Hcounts.
  pose proof (fun t => types_filtered t visible) as Hlength.
  split; [exact Hnd|]. split.
  - intros t n. rewrite Hcounts, Hlength. reflexivity.
  - intros Hin. apply list_elem_of_fmap in Hin as ([t n] & Heq & Hin).
    cbn in Heq. subst t. apply Hcounts in Hin as [Hpos Hn].
    rewrite Hlength in Hn.
    destruct (filter (fun v => type (vt_tile v) = VOID) visible) as [|v rest]
      eqn:Hfilter; [cbn in Hn; lia|].
    assert (Hv : v ∈ filter (fun v => type (vt_tile v) = VOID) visible)
      by (rewrite Hfilter; left).
    apply list_elem_of_filter in Hv as [Hvoid Hv].
    apply (visible_void_free m center radius v Hv Hvoid).
Qed.
(** X16.  For a coordinate of safe integers, negative ones included, the
    key [markTileDirty] writes is read back by the loop of [getDirtyTiles]
    as that coordinate; hence two such coordinates with one key are the
    same, in the dirty set as in the queue map of the interactions. *)
Theorem posKey_decodes (pos : Position2D) :
  safeInteger (x pos) -> safeInteger (y pos) ->
  decodeKey (posKey pos) = Some pos /\
  forall pos',
    safeInteger (x pos') -> safeInteger (y pos') ->
    posKey pos' = posKey pos -> pos' = pos.
Proof.
  intros _ _. split; [apply decodeKey_posKey|].
  intros pos' _ _. apply posKey_inj.
Qed.

Lemma posKey_decodes_witness :
  decodeKey (posKey (mkPos (-3) 9007199254740991)) =
    Some (mkPos (-3) 9007199254740991) /\
  posKey (mkPos (-3) 12) = "-3,12".
Proof.
  split; [|reflexivity].
  apply (posKey_decodes (mkPos (-3) 9007199254740991)); cbn; unfold safeInteger; lia.
Defined.

Lemma replay_dirty (calls : list call) (m : manager) (acc : list Position2D) :
  dirtyTiles m = list_to_set (posKey <$> acc) ->
  dirtyTiles (replay calls m)
  = list_to_set (posKey <$> changed calls m acc).
Proof.
  revert m acc. induction calls as [|[op pos now|] rest IH]; intros m acc Hacc.
  - exact Hacc.
  - cbn [replay fold_left perform changed].
    destruct (mutate_outcome op m pos now)
      as [->|(tile & row & _ & _ & ->)]; cbn [fst].
    + apply IH, Hacc.
    + apply IH. unfold stored, markTileDirty. cbn [dirtyTiles fmap list_fmap].
      rewrite list_to_set_cons, Hacc. reflexivity.
  - cbn [replay fold_left perform changed]. apply IH. reflexivity.
Qed.

(** X17.  Starting with nothing dirty (a new manager, or one whose flags
    were just cleared), after any sequence of calls [getDirtyTiles] lists
    exactly the coordinates changed by a successful call since the flags
    were last cleared, each with the tile it holds now; calls that return
    false leave no entry, and [hasDirtyData] says whether there is one. *)
Theorem getDirtyTiles_lists_changed (calls : list call) (m0 : manager) :
  dirtyTiles m0 = ∅ ->
  let m := replay calls m0 in
  (forall pos tile,
     (pos, tile) ∈ getDirtyTiles m <->
     pos ∈ changed calls m0 [] /\ tile = getTile m pos) /\
  (hasDirtyData m = true <-> changed calls m0 [] <> []).
Proof.
  intros Hclean m.
  pose proof (replay_dirty calls m0 [] Hclean) as Hdirty. fold m in Hdirty.
  assert (Hkey : forall pos,
            posKey pos ∈ dirtyTiles m <-> pos ∈ changed calls m0 []).
  { intros pos. rewrite Hdirty, elem_of_list_to_set, list_elem_of_fmap. split.
    - intros (pos' & Hkey & Hin). apply posKey_inj in Hkey. congruence.
    - intros Hin. eauto. }
  split.
  - intros pos tile. unfold getDirtyTiles. rewrite list_elem_of_omap. split.
    + intros (key & Hin & Hdecode). apply elem_of_elements in Hin.
      rewrite Hdirty, elem_of_list_to_set, list_elem_of_fmap in Hin.
      destruct Hin as (pos' & -> & Hin). rewrite decodeKey_posKey in Hdecode.
      cbn in Hdecode. injection Hdecode as <- <-. split; [exact Hin|reflexivity].
    + intros [Hin ->]. exists (posKey pos). split.
      * apply elem_of_elements, Hkey, Hin.
      * rewrite decodeKey_posKey. reflexivity.
  - unfold hasDirtyData. rewrite bool_decide_eq_true. split.
    + intros Hsize Hnone. rewrite Hdirty, Hnone in Hsize. cbn in Hsize.
      rewrite size_empty in Hsize. lia.
    + intros Hsome.
      destruct (changed calls m0 []) as [|pos rest] eqn:Hchanged;
        [contradiction|].
      assert (Hin : posKey pos ∈ dirtyTiles m) by (apply Hkey; left).
      destruct (decide (size (dirtyTiles m) = 0)%nat) as [Hzero|]; [|lia].
      apply size_empty_inv in Hzero. rewrite (Hzero (posKey pos)) in Hin.
      apply elem_of_empty in Hin. contradiction.
Qed.

Lemma getDirtyTiles_lists_changed_witness :
  let calls :=
    [Mutate Harvest (mkPos 1 1) "t1"; Mutate Till (mkPos 0 0) "t2";
     ClearDirtyFlags; Mutate Harvest (mkPos 1 1) "t3"] in
  let m := replay calls sampleWorld in
  (mkPos 1 1, getTile m (mkPos 1 1)) ∈ getDirtyTiles m /\
  hasDirtyData m = true.
Proof.
  intros calls m.
  destruct (getDirtyTiles_lists_changed calls sampleWorld eq_refl)
    as [Hlisted Hany].
  split.
  - apply Hlisted. split; [|reflexivity]. vm_compute. left.
  - apply Hany. vm_compute. discriminate.
Defined.

(** ** The generated world *)

Lemma generateRow_lookup (columns : nat) (width height x0 y : Z)
    (random : nat -> PrimFloat.float) (drawn i : nat) :
  (i < columns)%nat ->
  exists d,
    fst (generateRow columns width height x0 y random drawn) !! i
    = Some (Some (fst (generateTile width height (x0 + Z.of_nat i) y random d))).
Proof.
  revert x0 drawn i. induction columns as [|columns IH]; intros x0 drawn i Hi;
    [lia|].
  cbn [generateRow].
  destruct (generateTile width height x0 y random drawn) as [tile drawn1] eqn:Htile.
  destruct (generateRow columns width height (x0 + 1) y random drawn1)
    as [row drawn2] eqn:Hrow.
  destruct i as [|i]; cbn [fst].
  - exists drawn. rewrite Z.add_0_r, Htile. reflexivity.
  - destruct (IH (x0 + 1) drawn1 i ltac:(lia)) as [d Hd].
    rewrite Hrow in Hd. cbn [fst] in Hd. exists d.
    etransitivity; [exact Hd|].
    replace (x0 + Z.of_nat (S i)) with (x0 + 1 + Z.of_nat i) by lia.
    reflexivity.
Qed.

Lemma generateRows_lookup (rows : nat) (width height y0 : Z)
    (random : nat -> PrimFloat.float) (drawn j : nat) :
  (j < rows)%nat ->
  exists d,
    fst (generateRows rows width height y0 random drawn) !! j
    = Some (fst (generateRow (Z.to_nat width) width height 0
                   (y0 + Z.of_nat j) random d)).
Proof.
  revert y0 drawn j. induction rows as [|rows IH]; intros y0 drawn j Hj; [lia|].
  cbn [generateRows].
  destruct (generateRow (Z.to_nat width) width height 0 y0 random drawn)
    as [row drawn1] eqn:Hrow.
  destruct (generateRows rows width height (y0 + 1) random drawn1)
    as [below drawn2] eqn:Hbelow.
  destruct j as [|j]; cbn [fst].
  - exists drawn. rewrite Z.add_0_r, Hrow. reflexivity.
  - destruct (IH (y0 + 1) drawn1 j ltac:(lia)) as [d Hd].
    rewrite Hbelow in Hd. cbn [fst] in Hd. exists d.
    etransitivity; [exact Hd|].
    replace (y0 + Z.of_nat (S j)) with (y0 + 1 + Z.of_nat j) by lia.
    reflexivity.
Qed.

(** The tile of a fresh world is the one the generator pushed for its
    cell. *)
Lemma create_getTile (columns rows : Z) (seed : option Z)
    (mathRandom : nat -> PrimFloat.float) (pos : Position2D) :
  isInBounds (create columns rows seed mathRandom) pos = true ->
  exists random d,
    getTile (create columns rows seed mathRandom) pos
    = fst (generateTile columns rows (x pos) (y pos) random d).
Proof.
  intros Hin. unfold getTile. rewrite Hin. cbn [negb].
  unfold isInBounds, create, generateDefaultWorld in *.
  cbn [worldMap width height tiles] in *.
  repeat (apply andb_prop in Hin as [Hin ?]).
  set (random := match seed with
                 | Some sd => if sd =? 0 then mathRandom else seededRandom sd
                 | None => mathRandom
                 end).
  destruct (generateRows_lookup (Z.to_nat rows) columns rows 0 random 0
              (Z.to_nat (y pos)) ltac:(lia)) as [d1 ->].
  destruct (generateRow_lookup (Z.to_nat columns) columns rows 0
              (0 + Z.of_nat (Z.to_nat (y pos))) random d1 (Z.to_nat (x pos))
              ltac:(lia)) as [d2 Hcell].
  unfold array_get. destruct (Z.ltb_spec (x pos) 0) as [?|_]; [lia|].
  rewrite Hcell. cbn [mjoin option_join default].
  exists random, d2.
  replace (0 + Z.of_nat (Z.to_nat (x pos))) with (x pos) by lia.
  replace (0 + Z.of_nat (Z.to_nat (y pos))) with (y pos) by lia.
  reflexivity.
Qed.

(** X18.  The world the constructor generates, whatever the seed and the
    random draws: nothing is dirty and no tile has a version yet; a cell
    is a wall exactly when it lies on the border, and otherwise water, a
    tree, a rock or grass; a tree comes with durability 3 and a rock with
    durability 5, so every harvestable tile can be harvested, and the
    border cannot be walked on. *)
Theorem create_walled_in (columns rows : Z) (seed : option Z)
    (mathRandom : nat -> PrimFloat.float) (pos : Position2D) :
  let m := create columns rows seed mathRandom in
  isInBounds m pos = true ->
  let tile := getTile m pos in
  dirtyTiles m = ∅ /\ getTileVersion m pos = 0 /\
  (type tile = WALL <->
   x pos = 0 \/ x pos = columns - 1 \/ y pos = 0 \/ y pos = rows - 1) /\
  (type tile = WALL \/ type tile = WATER \/ type tile = TREE \/
   type tile = ROCK \/ type tile = GRASS) /\
  (type tile = WALL -> isWalkable m pos = false) /\
  (isHarvestable m pos = true ->
   state tile ≫= durability
   = Some (if decide (type tile = TREE) then 3 else 5)).
Proof.
  intros m Hin tile. subst tile.
  unfold getTileVersion, isWalkable, isHarvestable.
  destruct (create_getTile columns rows seed mathRandom pos Hin)
    as (random & d & Htile).
  fold m in Htile. rewrite Htile. clear Htile.
  split; [reflexivity|].
  unfold generateTile.
  destruct ((x pos =? 0) || (x pos =? columns - 1) || (y pos =? 0)
            || (y pos =? rows - 1)) eqn:Hborder.
  - cbn. repeat split; auto; try discriminate.
    intros _. repeat (apply orb_prop in Hborder as [Hborder|Hborder]); lia.
  - assert (Hinner : ~ (x pos = 0 \/ x pos = columns - 1 \/ y pos = 0
                        \/ y pos = rows - 1)).
    { intros Hedge. apply orb_false_elim in Hborder as [Hborder ?].
      apply orb_false_elim in Hborder as [Hborder ?].
      apply orb_false_elim in Hborder as [? ?]. lia. }
    repeat (match goal with
            | |- context [PrimFloat.ltb ?a ?b] => destruct (PrimFloat.ltb a b)
            end);
      cbn; repeat split; auto 6; try discriminate; try contradiction.
Qed.

Lemma create_walled_in_witness :
  let m := create 8 6 (Some 42) (fun _ => float_ofZ 0) in
  type (getTile m (mkPos 7 3)) = WALL /\ isWalkable m (mkPos 7 3) = false.
Proof.
  intros m.
  destruct (create_walled_in 8 6 (Some 42) (fun _ => float_ofZ 0) (mkPos 7 3))
    as (_ & _ & Hwall & _ & Hwalk & _).
  - reflexivity.
  - assert (Htype : type (getTile m (mkPos 7 3)) = WALL)
      by (apply Hwall; right; left; reflexivity).
    split; [exact Htype|exact (Hwalk Htype)].
Defined.

End TerrainProps.

Module QueueProps.
Import AgentActionQueue AgentActionQueueProps.

Lemma insertByPriority_sorted (queue : list AgentAction) (action : AgentAction) :
  sorted queue -> sorted (insertByPriority queue action).
Proof.
  unfold sorted. intros Hsorted.
  destruct (insertByPriority_split queue action)
    as (before & after & -> & -> & Hbefore & Hafter).
  apply StronglySorted_app in Hsorted as (Hcross & Hb & Ha).
  apply StronglySorted_app_2; [|exact Hb|].
  - intros b c Hb' Hc. rewrite Forall_forall in Hbefore.
    apply elem_of_cons in Hc as [->|Hc]; [apply Hbefore, Hb'|].
    apply Hcross; assumption.
  - apply StronglySorted_cons. split; [|exact Ha].
    destruct after as [|item rest]; [constructor|].
    apply StronglySorted_cons in Ha as [Hrest _].
    constructor; [lia|].
    eapply Forall_impl; [exact Hrest|]. cbn. intros c Hc. lia.
Qed.

Lemma insertByPriority_at (queue : list AgentAction) (action : AgentAction) :
  let i := insertIndex queue action 0 in
  insertByPriority queue action !! i = Some action /\
  delete i (insertByPriority queue action) = queue /\
  length (insertByPriority queue action) = S (length queue) /\
  Forall (fun item => item = action \/ item ∈ queue)
         (insertByPriority queue action).
Proof.
  cbv zeta.
  destruct (insertIndex_split queue action 0)
    as (before & after & -> & Hindex & _).
  unfold insertByPriority. rewrite Hindex. cbn [Nat.add].
  rewrite take_app_length, drop_app_length.
  split; [|split; [|split]].
  - rewrite lookup_app_r by lia. rewrite Nat.sub_diag. reflexivity.
  - rewrite delete_take_drop.
    rewrite take_app_length.
    replace (S (length before)) with (length (before ++ [action]))
      by (rewrite length_app; cbn; lia).
    replace (before ++ action :: after) with ((before ++ [action]) ++ after)
      by (rewrite <- app_assoc; reflexivity).
    rewrite drop_app_length. reflexivity.
  - rewrite !length_app. cbn. lia.
  - apply Forall_forall. intros item Hin.
    apply elem_of_app in Hin as [Hin|Hin].
    + right. apply elem_of_app. left. exact Hin.
    + apply elem_of_cons in Hin as [->|Hin]; [left; reflexivity|].
      right. apply elem_of_app. right. exact Hin.
Qed.

(** X19.  [insertByPriority] keeps a queue that is in priority order in
    priority order.  It adds the action and nothing else: taking the action
    out again at the index where it went gives the queue back, so the
    entries that were queued keep their order. *)
Theorem insertByPriority_keeps_order (queue : list AgentAction)
    (action : AgentAction) :
  sorted queue ->
  let i := insertIndex queue action 0 in
  sorted (insertByPriority queue action) /\
  insertByPriority queue action !! i = Some action /\
  delete i (insertByPriority queue action) = queue /\
  length (insertByPriority queue action) = S (length queue).
Proof.
  intros Hsorted i.
  destruct (insertByPriority_at queue action) as (Hat & Hdelete & Hlength & _).
  split; [apply insertByPriority_sorted, Hsorted|]. auto.
Qed.

Lemma insertByPriority_keeps_order_witness :
  let queue := [criticalAction; earlierAction; lowAction] in
  sorted queue /\
  insertByPriority queue normalAction
  = [criticalAction; earlierAction; normalAction; lowAction] /\
  sorted (insertByPriority queue normalAction).
Proof.
  intros queue.
  assert (Hsorted : sorted queue).
  { unfold sorted, queue. repeat constructor; vm_compute; discriminate. }
  split; [exact Hsorted|]. split; [reflexivity|].
  apply (insertByPriority_keeps_order queue normalAction Hsorted).
Defined.

(** ** What every reachable state keeps *)

Lemma nextAction_split (queue : list AgentAction) (now : Z) :
  exists skipped,
    Forall (fun action => expired action now = true) skipped /\
    match nextAction queue now with
    | (Some action, rest) =>
        queue = skipped ++ action :: rest /\ expired action now = false
    | (None, rest) => queue = skipped /\ rest = []
    end.
Proof.
  induction queue as [|action rest (skipped & Hskipped & IH)]; cbn [nextAction].
  - exists []. split; [constructor|split; reflexivity].
  - destruct (expired action now) eqn:Hexpired.
    + exists (action :: skipped). split; [constructor; assumption|].
      destruct (nextAction rest now) as [[next|] rest'].
      * destruct IH as [-> ?]. split; [reflexivity|assumption].
      * destruct IH as [-> ->]. split; reflexivity.
    + exists []. split; [constructor|split; [reflexivity|exact Hexpired]].
Qed.

Lemma orderly_part (agent : string) (queue part : list AgentAction) :
  part `sublist_of` queue ->
  sorted queue /\ (length queue <= 100)%nat /\
  Forall (fun action => agentId action = agent) queue ->
  sorted part /\ (length part <= 100)%nat /\
  Forall (fun action => agentId action = agent) part.
Proof.
  intros Hpart (Hsorted & Hlength & Hagent). split; [|split].
  - unfold sorted in *. clear Hlength Hagent.
    induction Hpart as [|a l1 l2 Hsub IH|a l1 l2 Hsub IH].
    + constructor.
    + apply StronglySorted_cons in Hsorted as [Hhead Htail].
      apply StronglySorted_cons. split; [|apply IH, Htail].
      rewrite Forall_forall in *. intros b Hb. apply Hhead.
      exact (elem_of_sublist _ _ _ Hb Hsub).
    + apply StronglySorted_cons in Hsorted as [_ Htail]. apply IH, Htail.
  - pose proof (sublist_length _ _ Hpart). lia.
  - rewrite Forall_forall in *. intros a Ha. apply Hagent.
    exact (elem_of_sublist _ _ _ Ha Hpart).
Qed.

Lemma orderly_insert (s : state) (agent : string) (queue : list AgentAction)
    (executing' : gmap string AgentAction) (locks' : gset string)
    (started' : list AgentAction) (releases' : list string) :
  orderly s ->
  sorted queue /\ (length queue <= 100)%nat /\
  Forall (fun action => agentId action = agent) queue ->
  orderly (mkQueues (<[agent := queue]> (queues s)) executing' locks' started'
                    releases').
Proof.
  intros Hs Hqueue agent' queue'. cbn [queues].
  destruct (decide (agent' = agent)) as [->|Hne].
  - rewrite lookup_insert_eq. intros [= <-]. exact Hqueue.
  - rewrite lookup_insert_ne by congruence. apply Hs.
Qed.

Lemma orderly_same (s : state) (executing' : gmap string AgentAction)
    (locks' : gset string) (started' : list AgentAction)
    (releases' : list string) :
  orderly s ->
  orderly (mkQueues (queues s) executing' locks' started' releases').
Proof. intros Hs agent queue. cbn [queues]. apply Hs. Qed.

Lemma executeNextAction_orderly (agent : string) (now : Z) (s : state) :
  orderly s -> orderly (executeNextAction agent now s).
Proof.
  intros Hs. unfold executeNextAction.
  destruct (queues s !! agent) as [queue|] eqn:Hqueue;
    [|apply orderly_same, Hs].
  destruct (nextAction_split queue now) as (skipped & _ & Hnext).
  destruct (nextAction queue now) as [[action|] rest].
  - destruct Hnext as [-> _]. apply orderly_insert; [exact Hs|].
    apply (orderly_part agent (skipped ++ action :: rest));
      [|apply (Hs agent), Hqueue].
    apply sublist_inserts_l, sublist_cons, reflexivity.
  - destruct Hnext as [_ ->]. apply orderly_insert; [exact Hs|].
    split; [constructor|]. split; [cbn; lia|constructor].
Qed.

Lemma default_orderly (s : state) (agent : string) :
  orderly s ->
  sorted (default [] (queues s !! agent)) /\
  (length (default [] (queues s !! agent)) <= 100)%nat /\
  Forall (fun a => agentId a = agent) (default [] (queues s !! agent)).
Proof.
  intros Hs. destruct (queues s !! agent) as [queue|] eqn:Hq; cbn [default].
  - exact (Hs _ _ Hq).
  - split; [constructor|]. split; [cbn; lia|constructor].
Qed.

(** The state of [enqueue] between the insertion and [processQueue]. *)
Lemma inserted_orderly (action : AgentAction) (s : state) :
  orderly s ->
  (length (default [] (queues s !! agentId action)) < 100)%nat ->
  orderly (mkQueues
             (<[agentId action :=
                  insertByPriority (default [] (queues s !! agentId action))
                                   action]> (queues s))
             (executing s) (locks s) (started s) (releases s)).
Proof.
  intros Hs Hroom. apply orderly_insert; [exact Hs|].
  destruct (default_orderly s (agentId action) Hs) as (Hsorted & _ & Hagent).
  destruct (insertByPriority_at (default [] (queues s !! agentId action)) action)
    as (_ & _ & Hlen & Hmembers).
  split; [apply insertByPriority_sorted, Hsorted|].
  split; [lia|].
  rewrite Forall_forall in *. intros a Ha.
  destruct (Hmembers a Ha) as [->|Hin]; [reflexivity|apply Hagent, Hin].
Qed.

Lemma enqueue_orderly (action : AgentAction) (now : Z) (s : state) :
  orderly s -> orderly (fst (enqueue action now s)).
Proof.
  intros Hs. unfold enqueue.
  destruct (Z.leb_spec 100 (Z.of_nat (length (default [] (queues s !! agentId action)))))
    as [Hfull|Hroom]; cbn [fst].
  - apply orderly_insert; [exact Hs|apply default_orderly, Hs].
  - pose proof (inserted_orderly action s Hs ltac:(lia)) as Hinserted.
    unfold processQueue. destruct (decide _); [exact Hinserted|].
    apply (orderly_same (executeNextAction _ _ _)).
    apply executeNextAction_orderly, Hinserted.
Qed.

Lemma cancel_orderly (agent actionId : string) (s : state) :
  orderly s -> orderly (fst (cancel agent actionId s)).
Proof.
  intros Hs. unfold cancel.
  destruct (queues s !! agent) as [queue|] eqn:Hqueue; [|exact Hs].
  destruct (list_find _ queue) as [[index action]|]; [|exact Hs].
  destruct (cancellable action); [|exact Hs].
  cbn [fst]. apply orderly_insert; [exact Hs|].
  apply (orderly_part agent queue); [apply sublist_delete|apply (Hs agent), Hqueue].
Qed.

Lemma operate_orderly (s : state) (o : operation) :
  orderly s -> orderly (operate s o).
Proof.
  intros Hs. destruct o as [[action now|agent now|]|agent actionId];
    cbn [operate step].
  - apply enqueue_orderly, Hs.
  - unfold settle. destruct (executing s !! agent); [|exact Hs].
    apply executeNextAction_orderly, orderly_same, Hs.
  - unfold release. destruct (releases s); [exact Hs|apply orderly_same, Hs].
  - apply cancel_orderly, Hs.
Qed.

Lemma operate_all_orderly (operations : list operation) (s : state) :
  orderly s -> orderly (operate_all operations s).
Proof.
  revert s. induction operations as [|o rest IH]; intros s Hs; [exact Hs|].
  cbn [operate_all fold_left]. apply IH, operate_orderly, Hs.
Qed.

Lemma orderly_empty : orderly empty.
Proof. intros agent queue. cbn. rewrite lookup_empty. discriminate. Qed.

(** X20.  Whatever is enqueued, settled, released and cancelled, starting
    from the empty manager, every agent's queue stays in priority order,
    never holds more than 100 actions, and holds only actions of that
    agent. *)
Theorem queues_stay_sorted_and_bounded (operations : list operation)
    (agent : string) (queue : list AgentAction) :
  queues (operate_all operations empty) !! agent = Some queue ->
  sorted queue /\ (length queue <= 100)%nat /\
  Forall (fun action => agentId action = agent) queue.
Proof. apply (operate_all_orderly operations empty orderly_empty). Qed.

Lemma queues_stay_sorted_and_bounded_witness :
  let operations :=
    [Happens (Enqueue earlierAction 0); Happens (Enqueue lowAction 0);
     Happens (Enqueue criticalAction 0); Cancel "npc" "a1";
     Happens (Enqueue normalAction 0)] in
  queues (operate_all operations empty) !! "npc"
  = Some [criticalAction; normalAction] /\
  sorted [criticalAction; normalAction].
Proof.
  intros operations.
  assert (Hqueue : queues (operate_all operations empty) !! "npc"
                   = Some [criticalAction; normalAction])
    by (vm_compute; reflexivity).
  split; [exact Hqueue|].
  exact (proj1 (queues_stay_sorted_and_bounded operations "npc" _ Hqueue)).
Defined.


(** ** The lock *)

Lemma guarded_queues (s : state) (queues' : gmap string (list AgentAction)) :
  guarded s ->
  guarded (mkQueues queues' (executing s) (locks s) (started s) (releases s)).
Proof. intros Hs. exact Hs. Qed.

Lemma processQueue_unlocked (agent : string) (now : Z) (s : state) :
  agent ∉ locks s ->
  processQueue agent now s
  = executeNextAction agent now
      (mkQueues (queues s) (executing s) ({[ agent ]} ∪ locks s) (started s)
                (releases s)).
Proof.
  intros Hfree. unfold processQueue. rewrite decide_False by exact Hfree.
  unfold executeNextAction. cbn [queues executing locks started releases].
  destruct (queues s !! agent) as [queue|]; [|reflexivity].
  destruct (nextAction queue now) as [[action|] rest]; reflexivity.
Qed.

Lemma executeNextAction_guarded (agent : string) (now : Z) (s : state) :
  orderly s -> guarded s ->
  agent ∈ locks s -> agent ∉ releases s -> executing s !! agent = None ->
  guarded (executeNextAction agent now s).
Proof.
  intros Horderly (Hrunning & Hreleases & Hnodup) Hlock Hpending Hidle.
  assert (Hstop : forall queues',
    guarded (mkQueues queues' (delete agent (executing s)) (locks s)
                      (started s) (releases s ++ [agent]))).
  { intros queues'. split; [|split]; cbn [executing locks started releases].
    - intros agent' action Hexec.
      apply lookup_delete_Some in Hexec as [Hne Hexec].
      destruct (Hrunning _ _ Hexec) as (? & ? & ? & Hnot).
      split_and!; try assumption.
      rewrite elem_of_app, list_elem_of_singleton. intros [?|?]; [auto|congruence].
    - intros agent'. rewrite elem_of_app, list_elem_of_singleton.
      intros [Hin| ->]; [apply Hreleases, Hin|exact Hlock].
    - apply NoDup_app. split; [exact Hnodup|]. split; [|apply NoDup_singleton].
      intros agent' Hin. rewrite list_elem_of_singleton. intros ->. contradiction. }
  unfold executeNextAction.
  destruct (queues s !! agent) as [queue|] eqn:Hqueue; [|apply Hstop].
  destruct (nextAction_split queue now) as (skipped & _ & Hnext).
  destruct (nextAction queue now) as [[action|] rest]; [|apply Hstop].
  destruct Hnext as [-> _].
  destruct (Horderly _ _ Hqueue) as (_ & _ & Hagent).
  rewrite Forall_forall in Hagent.
  split; [|split]; cbn [executing locks started releases];
    [|exact Hreleases|exact Hnodup].
  intros agent' action' Hexec.
  destruct (decide (agent' = agent)) as [->|Hne].
  - rewrite lookup_insert_eq in Hexec. injection Hexec as <-.
    split_and!; try assumption.
    + apply Hagent, elem_of_app. right. left.
    + apply elem_of_app. right. left.
  - rewrite lookup_insert_ne in Hexec by congruence.
    destruct (Hrunning _ _ Hexec) as (? & ? & ? & ?).
    split_and!; try assumption. apply elem_of_app. left. assumption.
Qed.

Lemma enqueue_guarded (action : AgentAction) (now : Z) (s : state) :
  orderly s -> guarded s -> guarded (fst (enqueue action now s)).
Proof.
  intros Horderly Hguarded. unfold enqueue.
  destruct (Z.leb_spec 100 (Z.of_nat (length (default [] (queues s !! agentId action)))))
    as [Hfull|Hroom]; cbn [fst]; [exact Hguarded|].
  pose proof (inserted_orderly action s Horderly ltac:(lia)) as Hinserted.
  destruct (decide (agentId action ∈ locks s)) as [Hlock|Hfree].
  - unfold processQueue. cbn [locks]. rewrite decide_True by exact Hlock.
    exact Hguarded.
  - rewrite processQueue_unlocked by exact Hfree.
    cbn [queues executing locks started releases].
    destruct Hguarded as (Hrunning & Hreleases & Hnodup).
    apply executeNextAction_guarded; cbn [queues executing locks started releases].
    + exact (orderly_same _ _ _ _ _ Hinserted).
    + split; [|split]; cbn [executing locks started releases];
        [|intros agent Hin; apply elem_of_union_r, Hreleases, Hin|exact Hnodup].
      intros agent current Hexec.
      destruct (Hrunning _ _ Hexec) as (? & ? & ? & ?).
      split_and!; try assumption. apply elem_of_union_r. assumption.
    + apply elem_of_union_l, elem_of_singleton. reflexivity.
    + intros Hin. apply Hfree, Hreleases, Hin.
    + destruct (executing s !! agentId action) as [current|] eqn:Hexec;
        [|reflexivity].
      destruct (Hrunning _ _ Hexec) as (_ & _ & Hlock & _). contradiction.
Qed.

Lemma settle_guarded (agent : string) (now : Z) (s : state) :
  orderly s -> guarded s -> guarded (settle agent now s).
Proof.
  intros Horderly Hguarded. unfold settle.
  destruct (executing s !! agent) as [current|] eqn:Hexec; [|exact Hguarded].
  destruct Hguarded as (Hrunning & Hreleases & Hnodup).
  destruct (Hrunning _ _ Hexec) as (_ & _ & Hlock & Hpending).
  apply executeNextAction_guarded.
  - apply orderly_same, Horderly.
  - split; [|split]; cbn [executing locks started releases]; try assumption.
    intros agent' action Hexec'.
    apply lookup_delete_Some in Hexec' as [_ Hexec']. exact (Hrunning _ _ Hexec').
  - exact Hlock.
  - exact Hpending.
  - apply lookup_delete_eq.
Qed.

Lemma release_guarded (s : state) : guarded s -> guarded (release s).
Proof.
  intros Hguarded. unfold release.
  destruct (releases s) as [|agent rest] eqn:Hrel; [exact Hguarded|].
  destruct Hguarded as (Hrunning & Hreleases & Hnodup).
  rewrite Hrel in Hrunning, Hreleases, Hnodup.
  apply NoDup_cons in Hnodup as [Hfresh Hnodup].
  split; [|split]; cbn [executing locks started releases]; [| |exact Hnodup].
  - intros agent' action Hexec.
    destruct (Hrunning _ _ Hexec) as (? & ? & ? & Hnot).
    split_and!; try assumption.
    + apply elem_of_difference. split; [assumption|].
      rewrite elem_of_singleton. intros ->. apply Hnot. left.
    + intros Hin. apply Hnot. right. exact Hin.
  - intros agent' Hin. apply elem_of_difference. split.
    + apply Hreleases. right. exact Hin.
    + rewrite elem_of_singleton. intros ->. contradiction.
Qed.

Lemma cancel_fields (agent actionId : string) (s : state) :
  executing (fst (cancel agent actionId s)) = executing s /\
  locks (fst (cancel agent actionId s)) = locks s /\
  started (fst (cancel agent actionId s)) = started s /\
  releases (fst (cancel agent actionId s)) = releases s.
Proof.
  unfold cancel. destruct (queues s !! agent) as [queue|]; [|repeat split].
  destruct (list_find _ queue) as [[index action]|]; [|repeat split].
  destruct (cancellable action); repeat split.
Qed.

Lemma operate_guarded (s : state) (o : operation) :
  orderly s -> guarded s -> guarded (operate s o).
Proof.
  intros Horderly Hguarded.
  destruct o as [[action now|agent now|]|agent actionId]; cbn [operate step].
  - apply enqueue_guarded; assumption.
  - apply settle_guarded; assumption.
  - apply release_guarded; assumption.
  - destruct (cancel_fields agent actionId s) as (He & Hl & Hs & Hr).
    unfold guarded. rewrite He, Hl, Hs, Hr. exact Hguarded.
Qed.

Lemma operate_all_kept (operations : list operation) (s : state) :
  orderly s -> guarded s ->
  orderly (operate_all operations s) /\ guarded (operate_all operations s).
Proof.
  revert s. induction operations as [|o rest IH]; intros s Ho Hg; [auto|].
  cbn [operate_all fold_left].
  apply IH; [apply operate_orderly, Ho|apply operate_guarded; assumption].
Qed.

Lemma guarded_empty : guarded empty.
Proof.
  split; [|split]; cbn.
  - intros agent action. rewrite lookup_empty. discriminate.
  - intros agent Hin. apply elem_of_nil in Hin. contradiction.
  - constructor.
Qed.

(** X21.  The lock, and how [clearAll] ends it.  In every state reached
    from the empty manager by calls of [enqueue] and [cancel] and by the
    settling of actions, where no action calls the manager from inside its
    [execute()], a running action belongs to the agent it runs for, was
    started, and its agent holds the lock; so an [enqueue] for that agent
    starts nothing and leaves the running action as it is.  [clearAll]
    called while the action is running deletes the lock with the rest, and
    the next [enqueue] for the agent calls [execute()] of its action while
    the first one has not settled: the agent then has two actions
    running. *)
Theorem running_action_blocks_enqueue (operations : list operation)
    (action current : AgentAction) (now : Z) :
  let s := operate_all operations empty in
  executing s !! agentId action = Some current ->
  (agentId current = agentId action /\ current ∈ started s /\
   agentId action ∈ locks s /\
   started (fst (enqueue action now s)) = started s /\
   executing (fst (enqueue action now s)) = executing s) /\
  (expired action now = false ->
   let s' := fst (enqueue action now (clearAll (agentId action) s)) in
   started s' = started s ++ [action] /\
   executing s' !! agentId action = Some action /\
   current ∈ started s').
Proof.
  intros s Hexec.
  destruct (operate_all_kept operations empty orderly_empty guarded_empty)
    as [_ (Hrunning & _)].
  destruct (Hrunning _ _ Hexec) as (Hagent & Hstarted & Hlock & _).
  split.
  - split_and!; try assumption.
    + unfold enqueue. destruct (_ <=? _); [reflexivity|].
      cbn [fst]. unfold processQueue. cbn [locks].
      rewrite decide_True by exact Hlock. reflexivity.
    + unfold enqueue. destruct (_ <=? _); [reflexivity|].
      cbn [fst]. unfold processQueue. cbn [locks].
      rewrite decide_True by exact Hlock. reflexivity.
  - intros Hfresh. cbv zeta.
    assert (Hrun :
      fst (enqueue action now (clearAll (agentId action) s))
      = mkQueues (<[agentId action := []]>
                    (<[agentId action := [action]]>
                       (delete (agentId action) (queues s))))
                 (<[agentId action := action]>
                    (delete (agentId action) (executing s)))
                 ({[ agentId action ]} ∪ locks s ∖ {[ agentId action ]})
                 (started s ++ [action]) (releases s)).
    { unfold enqueue, clearAll. cbn [queues executing locks started releases].
      rewrite lookup_delete_eq. cbn [default length Z.of_nat Z.leb Z.compare fst].
      unfold processQueue. cbn [locks].
      rewrite decide_False by (rewrite elem_of_difference, elem_of_singleton; tauto).
      unfold executeNextAction. cbn [queues executing locks started releases].
      rewrite lookup_insert_eq.
      change (insertByPriority [] action) with [action].
      cbn [nextAction]. rewrite Hfresh. reflexivity. }
    rewrite Hrun. cbn [started executing]. split_and!.
    + reflexivity.
    + apply lookup_insert_eq.
    + apply elem_of_app. left. exact Hstarted.
Qed.

Lemma running_action_blocks_enqueue_witness :
  let operations := [Happens (Enqueue earlierAction 0)] in
  let s := operate_all operations empty in
  executing s !! "npc" = Some earlierAction /\
  started (fst (enqueue criticalAction 5 s)) = [earlierAction] /\
  started (fst (enqueue criticalAction 5 (clearAll "npc" s)))
  = [earlierAction; criticalAction].
Proof.
  intros operations s.
  assert (Hexec : executing s !! agentId criticalAction = Some earlierAction)
    by (vm_compute; reflexivity).
  destruct (running_action_blocks_enqueue operations criticalAction
              earlierAction 5 Hexec) as [(_ & _ & _ & Hblocked & _) Hcleared].
  split; [exact Hexec|]. split; [exact Hblocked|].
  exact (proj1 (Hcleared eq_refl)).
Defined.

(** ** Expired actions *)

Lemma nextAction_find (queue : list AgentAction) (now : Z) :
  nextAction queue now
  = match list_find (fun action => expired action now = false) queue with
    | Some (i, action) => (Some action, drop (S i) queue)
    | None => (None, [])
    end.
Proof.
  induction queue as [|action rest IH]; [reflexivity|].
  cbn [nextAction list_find].
  destruct (expired action now) eqn:Hexpired.
  - rewrite decide_False by discriminate. rewrite IH.
    destruct (list_find _ rest) as [[i next]|]; reflexivity.
  - rewrite decide_True by reflexivity. reflexivity.
Qed.

(** X22.  When the loop of [executeNextAction] comes round, it calls
    [execute()] of the first queued action that has not timed out at that
    moment and leaves the ones behind it queued; the timed-out actions in
    front of it are dropped without being run.  When every queued action
    has timed out the queue ends up empty, nothing is started, nothing is
    running and the lock is about to be deleted. *)
Theorem executeNextAction_skips_expired (agent : string) (now : Z) (s : state)
    (queue : list AgentAction) :
  queues s !! agent = Some queue ->
  let s' := executeNextAction agent now s in
  match list_find (fun action => expired action now = false) queue with
  | Some (i, action) =>
      Forall (fun skipped => expired skipped now = true) (take i queue) /\
      started s' = started s ++ [action] /\
      executing s' !! agent = Some action /\
      queues s' !! agent = Some (drop (S i) queue) /\
      releases s' = releases s
  | None =>
      Forall (fun skipped => expired skipped now = true) queue /\
      started s' = started s /\
      executing s' !! agent = None /\
      queues s' !! agent = Some [] /\
      releases s' = releases s ++ [agent]
  end.
Proof.
  intros Hqueue. cbv zeta. unfold executeNextAction.
  rewrite Hqueue, nextAction_find.
  destruct (list_find _ queue) as [[i action]|] eqn:Hfind;
    cbn [queues executing started releases].
  - apply list_find_Some in Hfind as (Hi & _ & Hbefore).
    split_and!; try reflexivity.
    + apply Forall_forall. intros skipped Hin.
      apply list_elem_of_lookup in Hin as [j Hj].
      pose proof (lookup_lt_Some _ _ _ Hj) as Hlt.
      rewrite length_take in Hlt.
      rewrite lookup_take_lt in Hj by lia.
      specialize (Hbefore j skipped Hj ltac:(lia)).
      destruct (expired skipped now); [reflexivity|contradiction].
    + apply lookup_insert_eq.
    + apply lookup_insert_eq.
  - apply list_find_None in Hfind.
    split_and!; try reflexivity.
    + eapply Forall_impl; [exact Hfind|]. cbn. intros skipped Hnot.
      destruct (expired skipped now); [reflexivity|contradiction].
    + apply lookup_delete_eq.
    + apply lookup_insert_eq.
Qed.

Lemma executeNextAction_skips_expired_witness :
  let stale := mkAction "old" "npc" MOVE CRITICAL 0 true (Some 1000) in
  let s := mkQueues {[ "npc" := [stale; normalAction; lowAction] ]} ∅
                    {[ "npc" ]} [] [] in
  started (executeNextAction "npc" 5000 s) = [normalAction] /\
  queues (executeNextAction "npc" 5000 s) !! "npc" = Some [lowAction].
Proof.
  intros stale s.
  pose proof (executeNextAction_skips_expired "npc" 5000 s
                [stale; normalAction; lowAction]) as Hskip.
  cbv zeta in Hskip.
  change (list_find (fun action => expired action 5000 = false)
                    [stale; normalAction; lowAction])
    with (Some (1%nat, normalAction)) in Hskip.
  destruct Hskip as (_ & Hstarted & _ & Hqueue & _).
  - vm_compute. reflexivity.
  - split; [exact Hstarted|exact Hqueue].
Defined.

(** ** Cancelling *)

(** X23.  [cancel] never touches the running action, the locks or the log
    of started actions.  For an agent without a queue it returns false.
    Otherwise, if the first queued action with the given id may be
    cancelled, exactly that entry is removed and the call returns true; if
    not, the queue stays, and the call returns true just when the running
    action has the id and may be cancelled - a running action goes on all
    the same. *)
Theorem cancel_only_unqueues (agent actionId : string) (s : state) :
  let s' := fst (cancel agent actionId s) in
  (executing s' = executing s /\ locks s' = locks s /\
   started s' = started s /\ releases s' = releases s) /\
  (queues s !! agent = None -> cancel agent actionId s = (s, false)) /\
  (forall queue i action,
     queues s !! agent = Some queue ->
     list_find (fun a => id a = actionId) queue = Some (i, action) ->
     cancellable action = true ->
     snd (cancel agent actionId s) = true /\
     queues s' = <[agent := delete i queue]> (queues s) /\
     (length (delete i queue) = length queue - 1)%nat) /\
  (forall queue,
     queues s !! agent = Some queue ->
     (forall i action,
        list_find (fun a => id a = actionId) queue = Some (i, action) ->
        cancellable action = false) ->
     s' = s /\
     (snd (cancel agent actionId s) = true <->
      exists current,
        executing s !! agent = Some current /\ id current = actionId /\
        cancellable current = true)).
Proof.
  cbv zeta. split; [apply cancel_fields|]. split; [|split].
  - intros Hnone. unfold cancel. rewrite Hnone. reflexivity.
  - intros queue i action Hqueue Hfind Hcancellable.
    unfold cancel. rewrite Hqueue, Hfind, Hcancellable. cbn [fst snd queues].
    split_and!; try reflexivity.
    apply length_delete. apply list_find_Some in Hfind as [Hi _]. eauto.
  - intros queue Hqueue Hfixed. unfold cancel. rewrite Hqueue.
    assert (Hmarked :
      match executing s !! agent with
      | Some current => bool_decide (id current = actionId) && cancellable current
      | None => false
      end = true <->
      exists current,
        executing s !! agent = Some current /\ id current = actionId /\
        cancellable current = true).
    { destruct (executing s !! agent) as [current|].
      - rewrite andb_true_iff, bool_decide_eq_true. split.
        + intros [? ?]. eauto.
        + intros (? & [= <-] & ? & ?). auto.
      - split; [discriminate|]. intros (? & [=] & _). }
    destruct (list_find _ queue) as [[i action]|] eqn:Hfind.
    + rewrite (Hfixed i action eq_refl). cbn [fst snd]. split; [reflexivity|].
      exact Hmarked.
    + cbn [fst snd]. split; [reflexivity|exact Hmarked].
Qed.

Lemma cancel_only_unqueues_witness :
  let s := operate_all [Happens (Enqueue earlierAction 0);
                        Happens (Enqueue lowAction 0);
                        Happens (Enqueue criticalAction 0)] empty in
  snd (cancel "npc" "a1" s) = true /\
  queues (fst (cancel "npc" "a1" s)) !! "npc" = Some [criticalAction] /\
  cancel "npc" "a0" s = (s, true) /\
  cancel "npc" "a2" s = (s, false).
Proof.
  intros s.
  destruct (cancel_only_unqueues "npc" "a1" s) as (_ & _ & Hqueued & _).
  destruct (Hqueued [criticalAction; lowAction] 1%nat lowAction)
    as (Hok & Hqueues & _).
  - vm_compute. reflexivity.
  - vm_compute. reflexivity.
  - reflexivity.
  - split; [exact Hok|]. split.
    + rewrite Hqueues. rewrite lookup_insert_eq. reflexivity.
    + split; vm_compute; reflexivity.
Defined.

(** ** The window between the last action and the unlocking *)

Lemma settle_last (s : state) (agent : string) (now : Z) (current : AgentAction) :
  executing s !! agent = Some current ->
  queues s !! agent = Some [] ->
  settle agent now s
  = mkQueues (<[agent := []]> (queues s)) (delete agent (executing s))
             (locks s) (started s) (releases s ++ [agent]).
Proof.
  intros Hcurrent Hqueue. unfold settle. rewrite Hcurrent.
  unfold executeNextAction. cbn [queues]. rewrite Hqueue.
  cbn [nextAction executing locks started releases].
  rewrite delete_delete_eq. reflexivity.
Qed.

(** X24.  The lock outlives the loop by one microtask.  When the running
    action settles with nothing queued, the loop ends and the lock is
    deleted only by the continuation of [processQueue].  An action that is
    enqueued in between is put in the queue and [enqueue] returns true, but
    nothing starts it: once the lock is gone the action is still queued,
    nothing is running, and no later event of this agent's loop changes
    that - only another [enqueue] gets it going.  Enqueued after the
    continuation has run, the same action starts at once. *)
Theorem enqueue_before_unlock_strands (s : state) (action current : AgentAction)
    (t1 t2 : Z) :
  let agent := agentId action in
  executing s !! agent = Some current ->
  queues s !! agent = Some [] ->
  agent ∈ locks s ->
  releases s = [] ->
  let stranded := run [Settle agent t1; Enqueue action t2; Release] s in
  snd (enqueue action t2 (settle agent t1 s)) = true /\
  started stranded = started s /\
  getQueueInfo agent stranded = mkQueueInfo 1 false None /\
  queues stranded !! agent = Some [action] /\
  (agent ∉ locks stranded) /\
  (forall t, settle agent t stranded = stranded) /\
  release stranded = stranded /\
  (expired action t2 = false ->
   started (run [Settle agent t1; Release; Enqueue action t2] s)
   = started s ++ [action]).
Proof.
  intros agent Hcurrent Hqueue Hlock Hreleases stranded.
  pose proof (settle_last s agent t1 current Hcurrent Hqueue) as Hsettle.
  rewrite Hreleases in Hsettle. cbn [app] in Hsettle.
  assert (Henqueue :
    enqueue action t2 (settle agent t1 s)
    = (mkQueues (<[agent := [action]]> (<[agent := []]> (queues s)))
                (delete agent (executing s)) (locks s) (started s) [agent],
       true)).
  { rewrite Hsettle.
    rewrite (enqueue_busy _ action t2 []); cbn [queues executing locks started
                                               releases];
      [reflexivity|exact Hlock|apply lookup_insert_eq|cbn; lia]. }
  assert (Hstranded :
    stranded
    = mkQueues (<[agent := [action]]> (<[agent := []]> (queues s)))
               (delete agent (executing s)) (locks s ∖ {[ agent ]})
               (started s) []).
  { unfold stranded, run. cbn [fold_left step]. fold agent.
    rewrite Henqueue. reflexivity. }
  split; [rewrite Henqueue; reflexivity|].
  rewrite Hstranded.
  assert (Hidle : delete agent (executing s) !! agent = None)
    by apply lookup_delete_eq.
  split_and!.
  - reflexivity.
  - unfold getQueueInfo. cbn [queues executing].
    rewrite lookup_insert_eq, Hidle. cbn [default length fmap option_fmap option_map].
    rewrite bool_decide_eq_false_2 by (intros [? [=]]). reflexivity.
  - apply lookup_insert_eq.
  - cbn [locks]. rewrite elem_of_difference, elem_of_singleton. tauto.
  - intros t. unfold settle. cbn [executing]. rewrite Hidle. reflexivity.
  - reflexivity.
  - intros Hfresh. unfold run. cbn [fold_left step]. fold agent.
    rewrite Hsettle. unfold release. cbn [releases queues executing locks started].
    rewrite enqueue_idle; cbn [queues executing locks started releases].
    + reflexivity.
    + fold agent. rewrite elem_of_difference, elem_of_singleton. tauto.
    + fold agent. rewrite lookup_insert_eq. reflexivity.
    + exact Hfresh.
Qed.

Lemma enqueue_before_unlock_strands_witness :
  let s := fst (enqueue earlierAction 0 empty) in
  let stranded := run [Settle "npc" 10; Enqueue normalAction 10; Release] s in
  started stranded = [earlierAction] /\
  queues stranded !! "npc" = Some [normalAction] /\
  executing stranded !! "npc" = None.
Proof.
  intros s stranded.
  destruct (enqueue_before_unlock_strands s normalAction earlierAction 10 10)
    as (_ & Hstarted & _ & Hqueue & _).
  - vm_compute. reflexivity.
  - vm_compute. reflexivity.
  - apply (bool_decide_unpack _). vm_compute. exact I.
  - reflexivity.
  - split; [exact Hstarted|]. split; [exact Hqueue|].
    vm_compute. reflexivity.
Defined.

(** ** Draining *)

Lemma unlimited_fresh (action : AgentAction) (now : Z) :
  timeout action = None -> expired action now = false.
Proof. intros Hnone. unfold expired. rewrite Hnone. reflexivity. Qed.

Lemma settles_drain (agent : string) (queue : list AgentAction) (times : list Z)
    (s : state) (current : AgentAction) :
  executing s !! agent = Some current ->
  queues s !! agent = Some queue ->
  length times = length queue ->
  Forall (fun action => timeout action = None) queue ->
  let s' := run (Settle agent <$> times) s in
  started s' = started s ++ queue /\
  queues s' !! agent = Some [] /\
  executing s' !! agent = last (current :: queue) /\
  locks s' = locks s /\ releases s' = releases s.
Proof.
  revert times s current.
  induction queue as [|action rest IH]; intros times s current Hcurrent Hqueue
    Hlength Hfresh; destruct times as [|t times]; try discriminate.
  - cbn. rewrite app_nil_r. auto.
  - apply Forall_cons in Hfresh as [Hfresh Hrest].
    cbn [fmap list_fmap run fold_left step].
    rewrite (settle_next s agent t current action rest Hcurrent Hqueue
               (unlimited_fresh action t Hfresh)).
    specialize (IH times
      (mkQueues (<[agent := rest]> (queues s)) (<[agent := action]> (executing s))
                (locks s) (started s ++ [action]) (releases s)) action).
    cbn [queues executing locks started releases] in IH.
    destruct IH as (Hstarted & Hqueues & Hexec & Hlocks & Hreleases);
      [apply lookup_insert_eq|apply lookup_insert_eq
      |cbn in Hlength; lia|exact Hrest|].
    unfold run in *. rewrite Hstarted, Hqueues, Hexec, Hlocks, Hreleases.
    rewrite <- app_assoc. split_and!; reflexivity.
Qed.

(** X25.  While an action of the agent is running, the actions queued
    behind it (none of them with a timeout) are started one at a time, each
    when the one before it settles, in the order of the queue, and the lock
    is kept all along.  When the last of them settles the loop ends, and the
    continuation of [processQueue] then deletes the lock. *)
Theorem settles_drain_in_queue_order (agent : string)
    (queue : list AgentAction) (times : list Z) (s : state)
    (current : AgentAction) (t : Z) :
  executing s !! agent = Some current ->
  queues s !! agent = Some queue ->
  length times = length queue ->
  Forall (fun action => timeout action = None) queue ->
  agent ∈ locks s -> releases s = [] ->
  let drained := run (Settle agent <$> times) s in
  started drained = started s ++ queue /\
  executing drained !! agent = last (current :: queue) /\
  agent ∈ locks drained /\
  (let finished := run [Settle agent t; Release] drained in
   started finished = started s ++ queue /\
   executing finished !! agent = None /\
   agent ∉ locks finished).
Proof.
  intros Hcurrent Hqueue Hlength Hfresh Hlock Hreleases drained.
  destruct (settles_drain agent queue times s current Hcurrent Hqueue Hlength
              Hfresh) as (Hstarted & Hqueues & Hexec & Hlocks & Hrel).
  fold drained in Hstarted, Hqueues, Hexec, Hlocks, Hrel.
  assert (Hlast : exists final, executing drained !! agent = Some final).
  { rewrite Hexec. destruct (last (current :: queue)) eqn:Hnone; [eauto|].
    apply last_None in Hnone. discriminate. }
  destruct Hlast as [final Hfinal].
  split; [exact Hstarted|]. split; [exact Hexec|].
  split; [rewrite Hlocks; exact Hlock|].
  cbv zeta. unfold run at 1 2 3. cbn [fold_left step].
  rewrite (settle_last drained agent t final Hfinal Hqueues).
  rewrite Hrel, Hreleases. unfold release.
  cbn [app releases queues executing locks started].
  split; [exact Hstarted|]. split; [apply lookup_delete_eq|].
  rewrite elem_of_difference, elem_of_singleton. tauto.
Qed.

Lemma settles_drain_in_queue_order_witness :
  let s := run [Enqueue earlierAction 0; Enqueue lowAction 0;
                Enqueue criticalAction 0] empty in
  let finished :=
    run [Settle "npc" 40; Release] (run (Settle "npc" <$> [10; 20]) s) in
  started finished = [earlierAction; criticalAction; lowAction] /\
  executing finished !! "npc" = None.
Proof.
  intros s finished.
  destruct (settles_drain_in_queue_order "npc" [criticalAction; lowAction]
              [10; 20] s earlierAction 40)
    as (_ & _ & _ & Hstarted & Hidle & _).
  - vm_compute. reflexivity.
  - vm_compute. reflexivity.
  - reflexivity.
  - repeat constructor.
  - apply (bool_decide_unpack _). vm_compute. exact I.
  - vm_compute. reflexivity.
  - split; [exact Hstarted|exact Hidle].
Defined.

End QueueProps.

Module InteractionProps.
Import InteractionManager InteractionManagerProps.

Section Books.
Context {World Outcome : Type}.
Variable processInteraction : InteractionRequest -> World -> World * Outcome.

Local Abbreviation state := (state World Outcome).
Local Abbreviation step := (step processInteraction).
Local Abbreviation run := (run processInteraction).
Local Abbreviation outcomes := (outcomes processInteraction).

(** The books of a state reached by the events: the count, what the
    handler runs settled with, and who has been served. *)
Local Abbreviation booked events s :=
  (processingCount s = Z.of_nat (length (awaited (microtasks s))) /\
   outcomes (handled s) = returned s ++ awaited (microtasks s) /\
   ((fun entry => entry.1.1) <$> handled s) ++ parked (microtasks s)
   ≡ₚ called events).

Lemma awaited_app (tasks more : list (microtask Outcome)) :
  awaited (tasks ++ more) = awaited tasks ++ awaited more.
Proof. apply omap_app. Qed.

Lemma parked_app (tasks more : list (microtask Outcome)) :
  parked (tasks ++ more) = parked tasks ++ parked more.
Proof. apply omap_app. Qed.

Lemma called_app (events more : list event) :
  called (events ++ more) = called events ++ called more.
Proof. apply omap_app. Qed.

Lemma awaited_current (request : InteractionRequest) (posKey : string)
    (promise : nat) (outcome : Outcome) (rest : list (microtask Outcome)) :
  awaited (AfterCurrent request posKey promise outcome :: rest)
  = (request, outcome) :: awaited rest /\
  parked (AfterCurrent request posKey promise outcome :: rest) = parked rest.
Proof. split; reflexivity. Qed.

Lemma awaited_previous (request : InteractionRequest)
    (rest : list (microtask Outcome)) :
  awaited (AfterPrevious request :: rest) = awaited rest /\
  parked (AfterPrevious request :: rest) = request :: parked rest.
Proof. split; reflexivity. Qed.

Lemma awaited_none :
  awaited (@nil (microtask Outcome)) = [] /\
  parked (@nil (microtask Outcome)) = [].
Proof. split; reflexivity. Qed.

Lemma booked_start (events : list event) (request : InteractionRequest)
    (s : state) (served : list InteractionRequest) :
  processingCount s = Z.of_nat (length (awaited (microtasks s))) ->
  outcomes (handled s) = returned s ++ awaited (microtasks s) ->
  ((fun entry => entry.1.1) <$> handled s) ++ request :: parked (microtasks s)
  ≡ₚ served ->
  let s' := InteractionManager.startInteraction processInteraction request s in
  processingCount s' = Z.of_nat (length (awaited (microtasks s'))) /\
  outcomes (handled s') = returned s' ++ awaited (microtasks s') /\
  ((fun entry => entry.1.1) <$> handled s') ++ parked (microtasks s')
  ≡ₚ served.
Proof.
  intros Hcount Houtcomes Hserved. cbv zeta.
  rewrite (startInteraction_unfold processInteraction).
  cbn [processingCount microtasks handled returned].
  rewrite awaited_app, parked_app.
  rewrite (proj1 (awaited_current _ _ _ _ _)), (proj2 (awaited_current _ _ _ _ _)).
  rewrite (proj1 awaited_none), (proj2 awaited_none).
  rewrite length_app, app_nil_r. cbn [length].
  split_and!.
  - lia.
  - unfold InteractionManager.outcomes in *. rewrite fmap_app, Houtcomes.
    cbn [fmap list_fmap fst snd]. rewrite <- app_assoc. reflexivity.
  - rewrite fmap_app. cbn [fmap list_fmap fst].
    rewrite <- Hserved, <- app_assoc. reflexivity.
Qed.

Lemma booked_step (events : list event) (s : state) (e : event) :
  booked events s -> booked (events ++ [e]) (step s e).
Proof.
  intros (Hcount & Houtcomes & Hserved). rewrite called_app.
  destruct e as [request|].
  - cbn [called omap].
    destruct (interactionQueues s !! posKeyOf request) as [previous|] eqn:Hentry.
    + rewrite (call_busy processInteraction request s previous Hentry).
      cbn [processingCount microtasks handled returned].
      rewrite awaited_app, parked_app.
      rewrite (proj1 (awaited_previous _ _)), (proj2 (awaited_previous _ _)).
      rewrite (proj1 awaited_none), (proj2 awaited_none).
      rewrite !app_nil_r. split_and!; [exact Hcount|exact Houtcomes|].
      rewrite app_assoc, Hserved. reflexivity.
    + rewrite (call_free processInteraction request s Hentry).
      apply (booked_start events); [exact Hcount|exact Houtcomes|].
      rewrite <- Hserved, <- Permutation_middle. symmetry.
      apply (Permutation_app_comm _ [request]).
  - cbn [called omap]. rewrite app_nil_r.
    cbn [InteractionManager.step].
    destruct (microtasks s) as [|[request|request posKey promise outcome] rest]
      eqn:Htasks.
    + rewrite Htasks. auto.
    + cbn [runMicrotask].
      rewrite (proj1 (awaited_previous _ _)) in Hcount, Houtcomes.
      rewrite (proj2 (awaited_previous _ _)) in Hserved.
      apply (booked_start events);
        cbn [processingCount microtasks handled returned]; assumption.
    + cbn [runMicrotask]. unfold finishInteraction.
      cbn [processingCount microtasks handled returned].
      rewrite (proj1 (awaited_current _ _ _ _ _)) in Hcount, Houtcomes.
      rewrite (proj2 (awaited_current _ _ _ _ _)) in Hserved.
      cbn [length] in Hcount.
      split_and!.
      * lia.
      * rewrite Houtcomes, <- app_assoc. reflexivity.
      * exact Hserved.
Qed.

Lemma booked_run (events : list event) (w0 : World) :
  booked events (run events (init w0)).
Proof.
  induction events as [|e events IH] using rev_ind.
  - cbn. split_and!; reflexivity.
  - rewrite (run_app processInteraction). cbn [InteractionManager.run fold_left].
    apply booked_step, IH.
Qed.

Lemma called_ticks (n : nat) : called (replicate n Tick) = [].
Proof. induction n as [|n IH]; [reflexivity|exact IH]. Qed.

(** X26.  In every schedule of calls and microtasks, [processingCount] is
    the number of calls whose handler has run and that have not returned
    yet: it never goes negative, and once the pending microtasks have run
    [getQueueStats] reports no queue entry and nothing in process. *)
Theorem processingCount_counts_awaited (w0 : World) (events : list event) :
  let s := run events (init w0) in
  processingCount s = Z.of_nat (length (awaited (microtasks s))) /\
  0 <= processingCount s /\
  getQueueStats (run (replicate (ticksLeft (microtasks s)) Tick) s) = (0, 0).
Proof.
  intros s.
  destruct (booked_run events w0) as (Hcount & _). fold s in Hcount.
  split; [exact Hcount|]. split; [lia|].
  set (ticks := replicate (ticksLeft (microtasks s)) Tick).
  assert (Hdrained : microtasks (run ticks s) = [])
    by (apply (drain processInteraction); reflexivity).
  destruct (booked_run (events ++ ticks) w0) as (Hcount' & _).
  rewrite (run_app processInteraction) in Hcount'. fold s in Hcount'.
  rewrite Hdrained in Hcount'. cbn in Hcount'.
  unfold getQueueStats. rewrite Hcount'.
  rewrite (tracked_drained (run ticks s));
    [reflexivity| |exact Hdrained].
  apply (tracked_run processInteraction), (tracked_run processInteraction).
  intros posKey promise Hentry. cbn in Hentry. rewrite lookup_empty in Hentry.
  discriminate.
Qed.

(** X27.  In every schedule, once the pending microtasks have run, every
    call has been served exactly once: the requests handled are the
    requests called, none lost and none run twice, and the calls have
    returned in the order in which their handlers ran, each with the
    outcome of its own handler run. *)
Theorem every_call_served_once (w0 : World) (events : list event) :
  let s := run events (init w0) in
  let s' := run (replicate (ticksLeft (microtasks s)) Tick) s in
  (fun entry => entry.1.1) <$> handled s' ≡ₚ called events /\
  returned s' = outcomes (handled s') /\
  length (returned s') = length (called events).
Proof.
  intros s s'.
  set (ticks := replicate (ticksLeft (microtasks s)) Tick).
  assert (Hdrained : microtasks s' = [])
    by (apply (drain processInteraction); reflexivity).
  destruct (booked_run (events ++ ticks) w0) as (_ & Houtcomes & Hserved).
  rewrite (run_app processInteraction) in Houtcomes, Hserved.
  fold s in Houtcomes, Hserved. fold ticks in s'. fold s' in Houtcomes, Hserved.
  rewrite Hdrained in Houtcomes, Hserved.
  rewrite (proj1 awaited_none) in Houtcomes.
  rewrite (proj2 awaited_none) in Hserved.
  rewrite app_nil_r in Houtcomes, Hserved.
  rewrite called_app in Hserved. unfold ticks in Hserved.
  rewrite called_ticks, app_nil_r in Hserved.
  split; [exact Hserved|]. split; [symmetry; exact Houtcomes|].
  rewrite <- Houtcomes. unfold InteractionManager.outcomes.
  rewrite length_fmap. rewrite <- (length_fmap (fun entry => entry.1.1)).
  apply Permutation_length, Hserved.
Qed.

End Books.

(** ** The handlers *)

Import WorldManager.

(** A handler gives up without touching the world, or it is one successful
    call of the [WorldManager]. *)
Lemma handler_cases (op : mutation) (m : manager) (pos : Position2D)
    (now : string) (done : InteractionResult) (failed : Message) :
  InteractionManager.success done = true ->
  let r := (let '(m', ok) := mutate op m pos now in
            if ok then (m', done) else (m', failure failed)) in
  r = (m, failure failed) \/
  mutate op m pos now = (r.1, true) /\ r.2 = done.
Proof.
  intros Hdone. cbv zeta.
  destruct (TerrainProps.mutate_outcome op m pos now)
    as [->|(tile & row & _ & _ & ->)]; [left; reflexivity|right].
  split; reflexivity.
Qed.

Lemma harvest_cases (m : manager) (pos : Position2D) (now : string) :
  exists m' result,
    harvest m pos now = (m', result) /\
    (m' = m /\ WorldManager.success result = false \/
     mutate Harvest m pos now = (m', true) /\
     WorldManager.success result = true).
Proof.
  destruct (harvest m pos now) as [m' result] eqn:Hharvest.
  exists m', result. split; [reflexivity|].
  assert (Hmutate : mutate Harvest m pos now = (m', WorldManager.success result))
    by (cbn [mutate]; rewrite Hharvest; reflexivity).
  destruct (TerrainProps.mutate_outcome Harvest m pos now)
    as [Hno|(tile & row & _ & _ & Hyes)]; rewrite Hmutate in *.
  - injection Hno as -> Hfail. left. split; [reflexivity|exact Hfail].
  - injection Hyes as _ Hok. right. rewrite Hok. split; reflexivity.
Qed.

Lemma processInteraction_cases (players : gmap string Position) (now : string)
    (request : InteractionRequest) (m : manager) :
  let r := processInteraction players now request m in
  r.1 = m /\
  (InteractionManager.success r.2 = false \/
   InteractionManager.type request = LOOK /\ rewards r.2 = None) \/
  exists op action crop,
    mutationOf request = Some op /\
    is_Some (players !! playerId request) /\
    mutate op m (target request) now = (r.1, true) /\
    InteractionManager.success r.2 = true /\
    changes r.2 = Some (target request, action, crop).
Proof.
  cbv zeta. unfold processInteraction, mutationOf.
  destruct (players !! playerId request) as [position|];
    [|left; split; [reflexivity|left; reflexivity]].
  destruct (PrimFloat.ltb _ _); [left; split; [reflexivity|left; reflexivity]|].
  destruct (InteractionManager.type request) eqn:Htype.
  - (* TILL *)
    unfold handleTill.
    destruct (isTillable m (target request));
      [|left; split; [reflexivity|left; reflexivity]].
    cbn [negb].
    destruct (handler_cases Till m (target request) now
                (mkResult true Tilled (Some (target request, "tilled", None)) None)
                TillFailed eq_refl) as [Hno|[Hyes Hdone]];
      cbn [mutate] in *.
    + left. rewrite Hno. split; [reflexivity|left; reflexivity].
    + right. exists Till, "tilled", None. rewrite Hdone.
      split_and!; eauto.
  - (* PLANT *)
    unfold handlePlant.
    destruct (truthy (data request));
      [|left; split; [reflexivity|left; reflexivity]].
    cbn [negb].
    destruct (WorldManager.type (getTile m (target request)));
      try (left; split; [reflexivity|left; reflexivity]).
    cbv zeta.
    destruct (handler_cases (Plant (default "" (data request))) m
                (target request) now
                (mkResult true (Planted (default "" (data request)))
                   (Some (target request, "planted",
                          Some (default "" (data request)))) None)
                PlantFailed eq_refl) as [Hno|[Hyes Hdone]];
      cbn [mutate] in *.
    + left. rewrite Hno. split; [reflexivity|left; reflexivity].
    + right. exists (Plant (default "" (data request))), "planted",
        (Some (default "" (data request))). rewrite Hdone.
      split_and!; eauto.
  - (* HARVEST: no case of the switch *)
    left. split; [reflexivity|left; reflexivity].
  - (* WATER *)
    unfold handleWater.
    destruct (handler_cases Water m (target request) now
                (mkResult true Watered (Some (target request, "watered", None))
                   None)
                CannotWater eq_refl) as [Hno|[Hyes Hdone]];
      cbn [mutate] in *.
    + left. rewrite Hno. split; [reflexivity|left; reflexivity].
    + right. exists Water, "watered", None. rewrite Hdone.
      split_and!; eauto.
  - (* CHOP *)
    unfold handleHarvest.
    destruct (isHarvestable m (target request));
      [|left; split; [reflexivity|left; reflexivity]].
    cbn [negb].
    destruct (harvest_cases m (target request) now)
      as (m' & result & Hharvest & [[-> Hfail]|Hok]);
      rewrite Hharvest; cbv beta iota zeta.
    + rewrite Hfail. cbn [negb]. left. split; [reflexivity|left; reflexivity].
    + destruct Hok as [Hmutate Hok]. rewrite Hok. cbn [negb]. right.
      destruct (complete result), (drops result);
        eexists Harvest, _, None; cbn [fst snd];
        split_and!; eauto.
  - (* MINE *)
    unfold handleHarvest.
    destruct (isHarvestable m (target request));
      [|left; split; [reflexivity|left; reflexivity]].
    cbn [negb].
    destruct (harvest_cases m (target request) now)
      as (m' & result & Hharvest & [[-> Hfail]|Hok]);
      rewrite Hharvest; cbv beta iota zeta.
    + rewrite Hfail. cbn [negb]. left. split; [reflexivity|left; reflexivity].
    + destruct Hok as [Hmutate Hok]. rewrite Hok. cbn [negb]. right.
      destruct (complete result), (drops result);
        eexists Harvest, _, None; cbn [fst snd];
        split_and!; eauto.
  - (* LOOK *)
    left. split; [reflexivity|right; split; reflexivity].
Qed.


(** A player standing at (1.5, 0, 1.2) is on tile (1, 1) of the sample
    world: chopping the tree there succeeds and leaves durability 2, the
    type [HARVEST] is turned down, and the tile two columns away is out of
    reach. *)
Example processInteraction_sample :
  let players : gmap string Position :=
    {[ "p1" := mkPosition (PrimFloat.div (float_ofZ 3) (float_ofZ 2))
                          (float_ofZ 0)
                          (PrimFloat.div (float_ofZ 6) (float_ofZ 5)) ]} in
  let at_tree type := mkRequest "p1" type (mkPos 1 1) None in
  let chopped := processInteraction players "t" (at_tree CHOP) sampleWorld in
  InteractionManager.success chopped.2 = true /\
  state (getTile chopped.1 (mkPos 1 1)) ≫= durability = Some 2 /\
  InteractionManager.success
    (processInteraction players "t" (at_tree HARVEST) sampleWorld).2 = false /\
  message (processInteraction players "t"
             (mkRequest "p1" MINE (mkPos 3 1) None) sampleWorld).2
  = TooFar (float_ofZ 2).
Proof. vm_compute. repeat split. Qed.

End InteractionProps.

Module SavingProps.
Import WorldManager.

Lemma getDirtyTiles_entry (m : manager) (pos : Position2D) (tile : Tile)
    (marked : list Position2D) :
  dirtyTiles m = list_to_set (posKey <$> marked) ->
  (pos, tile) ∈ getDirtyTiles m -> pos ∈ marked /\ tile = getTile m pos.
Proof.
  intros Hdirty Hin. unfold getDirtyTiles in Hin.
  apply list_elem_of_omap in Hin as (key & Hkey & Hdecode).
  apply elem_of_elements in Hkey.
  rewrite Hdirty, elem_of_list_to_set, list_elem_of_fmap in Hkey.
  destruct Hkey as (pos' & -> & Hmarked).
  rewrite WorldManagerProps.decodeKey_posKey in Hdecode. cbn in Hdecode.
  injection Hdecode as <- <-. split; [exact Hmarked|reflexivity].
Qed.

(** X29.  A change made while a save of the dirty terrain is waiting for
    the database is never saved by it and is not picked up later either.
    The batch was read before the change, so what it holds for the
    coordinate, if anything, is the tile before the change; when the save
    lands it clears every flag, the one set by the change included, and the
    next save finds nothing to do. *)
Theorem save_misses_change_in_flight (calls : list call) (m0 : manager)
    (op : mutation) (pos : Position2D) (now : string) :
  dirtyTiles m0 = ∅ ->
  let m := replay calls m0 in
  forall batch previous changed_world,
    Game.saveBegins m = Some batch ->
    mutate op m pos now = (changed_world, true) ->
    let saved := Game.saveLands batch (Game.mkStore changed_world previous) in
    posKey pos ∈ dirtyTiles changed_world /\
    hasDirtyData (Game.worldManager saved) = false /\
    Game.saveBegins (Game.worldManager saved) = None /\
    getTile (Game.worldManager saved) pos = getTile changed_world pos /\
    (pos, getTile (Game.worldManager saved) pos) ∉ Game.dirtyChunks saved.
Proof.
  intros Hclean m batch previous changed_world Hbatch Hchange saved.
  pose proof (TerrainProps.replay_dirty calls m0 [] Hclean) as Hdirty.
  fold m in Hdirty.
  destruct (TerrainProps.mutate_outcome op m pos now)
    as [Hno|(tile & row & Hin & Hrow & Hyes)]; [congruence|].
  rewrite Hchange in Hyes. injection Hyes as ->.
  assert (Hbatch' : batch = getDirtyTiles m).
  { unfold Game.saveBegins in Hbatch. destruct (negb _); [discriminate|].
    destruct (getDirtyTiles m); [discriminate|congruence]. }
  split_and!.
  - unfold stored, markTileDirty. cbn [dirtyTiles].
        apply elem_of_union_l, elem_of_singleton. reflexivity.
  - reflexivity.
  - reflexivity.
  - reflexivity.
  - cbn [saved Game.saveLands Game.dirtyChunks Game.worldManager].
    change (getTile (clearDirtyFlags (stored m pos tile row)) pos)
      with (getTile (stored m pos tile row) pos).
    rewrite (TerrainProps.stored_getTile m pos tile row Hin Hrow), Hbatch'.
    intros Hlisted.
    apply (getDirtyTiles_entry m pos _ _ Hdirty) in Hlisted as [_ Hold].
    apply (f_equal version) in Hold. cbn [version] in Hold.
    unfold getTileVersion in Hold.
    destruct (version (getTile m pos)) as [v|]; cbn [default] in Hold;
      injection Hold as Hv || discriminate Hold; lia.
Qed.

Lemma save_misses_change_in_flight_witness :
  let calls := [Mutate Harvest (mkPos 1 1) "t1"] in
  let m := replay calls sampleWorld in
  let changed_world := (mutate Harvest m (mkPos 1 1) "t2").1 in
  let saved :=
    Game.saveLands (getDirtyTiles m) (Game.mkStore changed_world []) in
  hasDirtyData (Game.worldManager saved) = false /\
  (mkPos 1 1, getTile (Game.worldManager saved) (mkPos 1 1))
    ∉ Game.dirtyChunks saved.
Proof.
  intros calls m changed_world saved.
  destruct (save_misses_change_in_flight calls sampleWorld Harvest (mkPos 1 1)
              "t2" eq_refl (getDirtyTiles m) [] changed_world)
    as (_ & Hclean & _ & _ & Hmissed).
  - vm_compute. reflexivity.
  - vm_compute. reflexivity.
  - split; [exact Hclean|exact Hmissed].
Defined.

End SavingProps.
